(** * snapcraft: finalising application commands

    A shallow embedding of [snapcraft/internal/meta/command.py] together
    with the parts of the Python runtime the module leans on ([re],
    [shlex], [os.path], [os.walk], [shutil.which], file reads and writes),
    followed by the properties of the command pipeline.

    Python [str] values are modelled as [string]: the octets of their UTF-8
    encoding.  Every character the module inspects (path separators, white
    space, quotes, the members of the command grammar) is ASCII, and no
    octet of a multi-octet UTF-8 sequence is ASCII, so splitting, joining and
    prefix tests commute with the encoding. *)

From Stdlib Require Import String Ascii List Bool ZArith Lia.
Import ListNotations.
Open Scope string_scope.

(* ================================================================= *)
(** ** Strings *)

(** [s.startswith(p)] *)
Definition startswith (s p : string) : bool := String.prefix p s.

(** [s.endswith("/")] and friends, for a single character. *)
Fixpoint endswith_char (s : string) (c : ascii) : bool :=
  match s with
  | EmptyString => false
  | String a EmptyString => Ascii.eqb a c
  | String _ s' => endswith_char s' c
  end.

(** [sep.join(parts)] *)
Fixpoint str_join (sep : string) (parts : list string) : string :=
  match parts with
  | [] => ""
  | [p] => p
  | p :: ps => p ++ sep ++ str_join sep ps
  end.

(** [s.split(sep)] for a one-character separator: never returns the empty
    list, and keeps empty fields. *)
Fixpoint str_split (sep : ascii) (s : string) : list string :=
  match s with
  | EmptyString => [""]
  | String a s' =>
      if Ascii.eqb a sep then "" :: str_split sep s'
      else match str_split sep s' with
           | [] => [String a ""]
           | f :: fs => String a f :: fs
           end
  end.

Definition in_range (lo hi c : ascii) : bool :=
  (nat_of_ascii lo <=? nat_of_ascii c)%nat && (nat_of_ascii c <=? nat_of_ascii hi)%nat.

Definition is_member (c : ascii) (chars : string) : bool :=
  existsb (Ascii.eqb c) (list_ascii_of_string chars).

Definition LF : ascii := "010"%char.
Definition TAB : ascii := "009"%char.
Definition CR : ascii := "013"%char.
Definition VT : ascii := "011"%char.
Definition FF : ascii := "012"%char.
Definition DQUOTE : ascii := "034"%char.

(* ================================================================= *)
(** ** The fragment of [re] used by the module *)

Module Re.

(** A character class is a list of inclusive ranges. *)
Definition cls := list (ascii * ascii).

Definition cls_mem (k : cls) (c : ascii) : bool :=
  existsb (fun r => in_range (fst r) (snd r) c) k.

(** Pattern items: [^], [$], one character of a class, a greedy starred
    class.  These are all the module's patterns need. *)
Inductive item :=
| Bol
| Eol
| One (k : cls)
| Many (k : cls).

Definition pattern := list item.

(** Without [re.MULTILINE], [$] matches at the end of the subject and
    also just before a line feed that is the last character. *)
Definition at_eol (rest : string) : bool :=
  match rest with
  | EmptyString => true
  | String c EmptyString => Ascii.eqb c LF
  | _ => false
  end.

(** Backtracking matcher anchored at the current position: [at_start]
    records whether that position is the beginning of the subject.
    Returns the unmatched remainder of the first successful attempt. *)
Fixpoint match_here (p : pattern) : bool -> string -> option string :=
  match p with
  | [] => fun _ s => Some s
  | Bol :: p' => fun at_start s =>
      if at_start then match_here p' at_start s else None
  | Eol :: p' => fun at_start s =>
      if at_eol s then match_here p' at_start s else None
  | One k :: p' => fun _ s =>
      match s with
      | String c s' => if cls_mem k c then match_here p' false s' else None
      | EmptyString => None
      end
  | Many k :: p' =>
      fix star (at_start : bool) (s : string) {struct s} : option string :=
        match s with
        | String c s' =>
            if cls_mem k c then
              match star false s' with
              | Some r => Some r
              | None => match_here p' at_start s
              end
            else match_here p' at_start s
        | EmptyString => match_here p' at_start s
        end
  end.

(** [pattern.match(s)] as a truth value. *)
Definition matches (p : pattern) (s : string) : bool :=
  match match_here p true s with Some _ => true | None => false end.

End Re.

(** [_COMMAND_PATTERN = re.compile("^[A-Za-z0-9. _#:$-][A-Za-z0-9/. _#:$-]*$")] *)
Definition single (c : ascii) : ascii * ascii := (c, c).

Definition first_class : Re.cls :=
  [("A", "Z"); ("a", "z"); ("0", "9"); single "."; single " "; single "_";
   single "#"; single ":"; single "$"; single "-"]%char.

Definition rest_class : Re.cls :=
  [("A", "Z"); ("a", "z"); ("0", "9"); single "/"; single "."; single " ";
   single "_"; single "#"; single ":"; single "$"; single "-"]%char.

Definition _COMMAND_PATTERN : Re.pattern :=
  [Re.Bol; Re.One first_class; Re.Many rest_class; Re.Eol].

(* ================================================================= *)
(** ** Failures and results *)

(** The exceptions that can leave the module: its own three errors and the
    built-in ones raised by indexing, [shlex], [os.path.relpath] and file
    access. *)
Inductive exn :=
| PrimedCommandNotFoundError (command : string)
| InvalidAppCommandFormatError (command app_name : string)
| InvalidAppCommandNotExecutable (command app_name : string)
| IndexError
| ValueError (msg : string)
| FileNotFoundError (path : string)
| IsADirectoryError (path : string)
| NotADirectoryError (path : string)
| UnicodeDecodeError.

Inductive result (A : Type) :=
| Ok (a : A)
| Raise (e : exn).
Arguments Ok {A} a.
Arguments Raise {A} e.

(** [xs[0]] *)
Definition index0 {A} (xs : list A) : result A :=
  match xs with
  | x :: _ => Ok x
  | [] => Raise IndexError
  end.

(* ================================================================= *)
(** ** [shlex.split] *)

Module Shlex.

(** [shlex.split(s, posix=...)] builds a lexer with [whitespace_split =
    True] and [commenters = ''], and collects the tokens of its
    [read_token] until the end-of-file token.  The lexer state
    ([self.state]) is one of [None], [' '], ['a'], a quote character or
    the escape character. *)
Inductive state :=
| SNone
| SSpace
| SWord
| SQuote (q : ascii)
| SEscape (e : ascii).

Definition whitespace : string :=
  String " " (String TAB (String CR (String LF ""))).
Definition quotes : string := String "'" (String DQUOTE "").
Definition escape : string := "\".
Definition escapedquotes : string := String DQUOTE "".

Definition snoc (tok : string) (c : ascii) : string := tok ++ String c "".

Definition nonempty (s : string) : bool :=
  match s with EmptyString => false | _ => true end.

(** [escapedstate in self.quotes] *)
Definition state_in_quotes (st : state) : bool :=
  match st with SQuote q => is_member q quotes | _ => false end.

(** [nextchar != escapedstate], comparing a character with a state. *)
Definition differs (c : ascii) (st : state) : bool :=
  match st with
  | SQuote q => negb (Ascii.eqb c q)
  | SSpace => negb (Ascii.eqb c " ")
  | SWord => negb (Ascii.eqb c "a")
  | SEscape e => negb (Ascii.eqb c e)
  | SNone => true
  end.

(** The end of one [read_token] call: the token is handed to the
    iterator, which stops when it equals [self.eof] ([None] in POSIX
    mode, where an unquoted empty token is turned into [None]; [''] in
    non-POSIX mode). *)
Definition emit (posix quoted : bool) (tok : string)
           (rest : result (list string)) : result (list string) :=
  let is_eof :=
    if posix then negb quoted && negb (nonempty tok) else negb (nonempty tok) in
  if is_eof then Ok []
  else match rest with
       | Ok toks => Ok (tok :: toks)
       | Raise e => Raise e
       end.

(** All calls of [read_token] over one input, fused into one pass.  [st]
    is [self.state], [tok] is [self.token]; [esc] and [quoted] are the
    locals [escapedstate] and [quoted], reset whenever a token is handed
    over. *)
Fixpoint lex (posix : bool) (st esc : state) (quoted : bool) (tok : string)
         (input : string) {struct input} : result (list string) :=
  match input with
  | EmptyString =>
      match st with
      | SNone => Ok []
      | SSpace | SWord => emit posix quoted tok (Ok [])
      | SQuote _ => Raise (ValueError "No closing quotation")
      | SEscape _ => Raise (ValueError "No escaped character")
      end
  | String c input' =>
      match st with
      | SNone => Ok []
      | SSpace =>
          if is_member c whitespace then
            if nonempty tok || (posix && quoted)
            then emit posix quoted tok (lex posix SSpace SSpace false "" input')
            else lex posix SSpace esc quoted tok input'
          else if posix && is_member c escape then
            lex posix (SEscape c) SWord quoted tok input'
          else if is_member c quotes then
            lex posix (SQuote c) esc quoted
                (if posix then tok else String c "") input'
          else
            (* a word character, or any other one since
               [whitespace_split] is set *)
            lex posix SWord esc quoted (String c "") input'
      | SQuote q =>
          if Ascii.eqb c q then
            if posix then lex posix SWord esc true tok input'
            else emit posix true (snoc tok c)
                      (lex posix SSpace SSpace false "" input')
          else if posix && is_member c escape && is_member q escapedquotes then
            lex posix (SEscape c) (SQuote q) true tok input'
          else lex posix (SQuote q) esc true (snoc tok c) input'
      | SEscape e =>
          let tok1 :=
            if state_in_quotes esc && negb (Ascii.eqb c e) && differs c esc
            then snoc tok e else tok in
          lex posix esc esc quoted (snoc tok1 c) input'
      | SWord =>
          if is_member c whitespace then
            if nonempty tok || (posix && quoted)
            then emit posix quoted tok (lex posix SSpace SSpace false "" input')
            else lex posix SSpace esc quoted tok input'
          else if posix && is_member c quotes then
            lex posix (SQuote c) esc quoted tok input'
          else if posix && is_member c escape then
            lex posix (SEscape c) SWord quoted tok input'
          else lex posix SWord esc quoted (snoc tok c) input'
      end
  end.

(** [shlex.split(s, posix=posix)] *)
Definition split (s : string) (posix : bool) : result (list string) :=
  lex posix SSpace SSpace false "" s.

End Shlex.

(* ================================================================= *)
(** ** [posixpath] *)

Definition SEP : ascii := "/"%char.

(** [os.path.join(a, b)] *)
Definition os_path_join (a b : string) : string :=
  if startswith b "/" then b
  else if negb (Shlex.nonempty a) || endswith_char a SEP then a ++ b
  else a ++ "/" ++ b.

(** [os.path.join] applied to a whole non-empty argument list. *)
Definition os_path_join_all (parts : list string) : string :=
  match parts with
  | [] => ""
  | a :: ps => fold_left os_path_join ps a
  end.

Definition str_eqb (a b : string) : bool := String.eqb a b.

(** The loop of [os.path.normpath] over the components. *)
Fixpoint normpath_comps (initial_slashes : nat) (comps new_comps : list string)
  : list string :=
  match comps with
  | [] => new_comps
  | comp :: rest =>
      if str_eqb comp "" || str_eqb comp "." then
        normpath_comps initial_slashes rest new_comps
      else if negb (str_eqb comp "..")
              || (Nat.eqb initial_slashes 0 && Nat.eqb (length new_comps) 0)
              || (negb (Nat.eqb (length new_comps) 0)
                  && str_eqb (last new_comps "") "..")
      then normpath_comps initial_slashes rest (new_comps ++ [comp])%list
      else normpath_comps initial_slashes rest (removelast new_comps)
  end.

(** [os.path.normpath(path)] *)
Definition os_path_normpath (path : string) : string :=
  if str_eqb path "" then "."
  else
    let initial_slashes :=
      if startswith path "/" then
        if startswith path "//" && negb (startswith path "///") then 2 else 1
      else 0 in
    let comps := normpath_comps initial_slashes (str_split SEP path) [] in
    let body := str_join "/" comps in
    let res := str_join "" (repeat "/" initial_slashes) ++ body in
    if str_eqb res "" then "." else res.

(** [os.path.abspath(path)] with [os.getcwd()] passed in. *)
Definition os_path_abspath (getcwd path : string) : string :=
  os_path_normpath (if startswith path "/" then path else os_path_join getcwd path).

(** [len(os.path.commonprefix([xs, ys]))] on two component lists. *)
Fixpoint common_prefix_len (xs ys : list string) : nat :=
  match xs, ys with
  | x :: xs', y :: ys' => if str_eqb x y then S (common_prefix_len xs' ys') else 0
  | _, _ => 0
  end.

(** [os.path.relpath(path, start)] *)
Definition os_path_relpath (getcwd path start : string) : result string :=
  if str_eqb path "" then Raise (ValueError "no path specified")
  else
    let start_list :=
      filter Shlex.nonempty (str_split SEP (os_path_abspath getcwd start)) in
    let path_list :=
      filter Shlex.nonempty (str_split SEP (os_path_abspath getcwd path)) in
    let i := common_prefix_len start_list path_list in
    let rel_list :=
      (repeat ".." (length start_list - i) ++ skipn i path_list)%list in
    match rel_list with
    | [] => Ok "."
    | _ => Ok (os_path_join_all rel_list)
    end.

(* ================================================================= *)
(** ** The file system

    The staged tree and the host live in one tree of directories and
    regular files.  A directory lists its entries in the order the host
    enumerates them ([os.scandir]); a regular file carries its permission
    bits and its octets.  There are no symbolic links, and every directory
    may be searched by the process. *)

#[warnings="-register-all"]
Inductive node :=
| File (mode : Z) (content : string)
| Dir (entries : list (string * node)).

(** What the process sees of its surroundings: the file tree, the working
    directory, the [PATH] variable, the file-creation mask, and the
    collaborator's [common.get_bin_paths(root=...)], whose source is not
    part of this module and which is therefore left arbitrary. *)
Record World := {
  fs_root : node;
  getcwd : string;
  environ_PATH : option string;
  umask : Z;
  get_bin_paths : string -> list string
}.

Fixpoint find_entry (name : string) (es : list (string * node)) : option node :=
  match es with
  | [] => None
  | (n, ch) :: es' => if str_eqb n name then Some ch else find_entry name es'
  end.

(** The node at a canonical list of components below [n]. *)
Fixpoint get (n : node) (comps : list string) : option node :=
  match comps with
  | [] => Some n
  | c :: cs =>
      match n with
      | Dir es =>
          match find_entry c es with
          | Some ch => get ch cs
          | None => None
          end
      | File _ _ => None
      end
  end.

(** Component-wise path resolution as the kernel does it: every step
    needs the current node to be a directory; [""] and ["."] stay, [".."]
    goes up (the root is its own parent), a name goes down.  [cur] is the
    canonical position so far, innermost component first. *)
Fixpoint canon (root : node) (cur : list string) (comps : list string)
  : option (list string) :=
  match comps with
  | [] => Some (rev cur)
  | c :: cs =>
      match get root (rev cur) with
      | Some (Dir es) =>
          if str_eqb c "" || str_eqb c "." then canon root cur cs
          else if str_eqb c ".." then canon root (tl cur) cs
          else match find_entry c es with
               | Some _ => canon root (c :: cur) cs
               | None => None
               end
      | _ => None
      end
  end.

(** The components the kernel walks for [path]: from the root for an
    absolute path, from the working directory otherwise. *)
Definition walk_comps (w : World) (path : string) : list string :=
  if startswith path "/" then str_split SEP path
  else (str_split SEP (getcwd w) ++ str_split SEP path)%list.

Definition resolve (w : World) (path : string) : option (list string) :=
  if str_eqb path "" then None else canon (fs_root w) [] (walk_comps w path).

Definition lookup (w : World) (path : string) : option node :=
  match resolve w path with
  | Some cs => get (fs_root w) cs
  | None => None
  end.

(** [os.path.exists(path)] *)
Definition os_path_exists (w : World) (path : string) : bool :=
  match lookup w path with Some _ => true | None => false end.

(** [os.path.isfile(path)] *)
Definition os_path_isfile (w : World) (path : string) : bool :=
  match lookup w path with Some (File _ _) => true | _ => false end.

(** [os.path.isdir(path)] *)
Definition os_path_isdir (w : World) (path : string) : bool :=
  match lookup w path with Some (Dir _) => true | _ => false end.

(** Some execute bit (owner, group or other) is set: [mode & 0o111]. *)
Definition has_exec_bit (mode : Z) : bool := negb (Z.land mode 73 =? 0)%Z.

Definition exec_bits_set (w : World) (path : string) : bool :=
  match lookup w path with
  | Some (File mode _) => has_exec_bit mode
  | Some (Dir _) => true
  | None => false
  end.

(** Modelled from the spec: [_executable_is_valid] of [meta/_utils.py],
    imported by the module but absent from it (ExecutableProbe: the path
    exists, is a regular file, and has at least one execute permission bit
    set for owner, group or other). *)
Definition _executable_is_valid (w : World) (path : string) : bool :=
  os_path_exists w path && os_path_isfile w path && exec_bits_set w path.

(** [open(path, "rb")] followed by reading: the octets of a regular file. *)
Definition open_rb (w : World) (path : string) : result string :=
  match lookup w path with
  | Some (File _ content) => Ok content
  | Some (Dir _) => Raise (IsADirectoryError path)
  | None => Raise (FileNotFoundError path)
  end.

(** The roots [os.walk(top)] yields, top-down: a directory, then the walk
    of each of its sub-directories in enumeration order.  The module ignores
    the other two members of each yielded triple. *)
Fixpoint walk_node (top : string) (n : node) : list string :=
  match n with
  | File _ _ => []
  | Dir es =>
      top ::
      (fix sub (es : list (string * node)) : list string :=
         match es with
         | [] => []
         | (name, ch) :: es' =>
             (match ch with
              | Dir _ => walk_node (os_path_join top name) ch
              | File _ _ => []
              end ++ sub es')%list
         end) es
  end.

Definition os_walk (w : World) (top : string) : list string :=
  match lookup w top with
  | Some n => walk_node top n
  | None => []
  end.

(** Writing: replace the node at a canonical position, adding a last
    component that is not there yet at the end of its directory. *)
Fixpoint update_entry (c : string) (f : node -> node)
         (absent : list (string * node)) (es : list (string * node))
  : list (string * node) :=
  match es with
  | [] => absent
  | (name, ch) :: es' =>
      if str_eqb name c then (name, f ch) :: es'
      else (name, ch) :: update_entry c f absent es'
  end.

Fixpoint put (n : node) (comps : list string) (new : node) : node :=
  match comps with
  | [] => new
  | c :: cs =>
      match n with
      | File _ _ => n
      | Dir es =>
          Dir (update_entry c (fun ch => put ch cs new)
                            (match cs with [] => [(c, new)] | _ => [] end) es)
      end
  end.

Definition with_root (w : World) (root : node) : World :=
  {| fs_root := root; getcwd := getcwd w; environ_PATH := environ_PATH w;
     umask := umask w; get_bin_paths := get_bin_paths w |}.

Definition is_dot_name (c : string) : bool :=
  str_eqb c "" || str_eqb c "." || str_eqb c "..".

(** [with open(path, "w+") as f: f.write(content)]: the parent must
    resolve to a directory; an existing regular file is truncated and
    keeps its mode, a missing one is created with [0o666 & ~umask]. *)
Definition write_text (w : World) (path content : string) : result World :=
  if str_eqb path "" then Raise (FileNotFoundError path)
  else
    let comps := walk_comps w path in
    let name := last comps "" in
    if is_dot_name name then Raise (IsADirectoryError path)
    else
      match canon (fs_root w) [] (removelast comps) with
      | None => Raise (FileNotFoundError path)
      | Some parent =>
          match get (fs_root w) parent with
          | Some (Dir es) =>
              match find_entry name es with
              | Some (Dir _) => Raise (IsADirectoryError path)
              | Some (File mode _) =>
                  Ok (with_root w (put (fs_root w) (parent ++ [name])
                                       (File mode content)))
              | None =>
                  Ok (with_root w (put (fs_root w) (parent ++ [name])
                                       (File (Z.ldiff 438 (umask w)) content)))
              end
          | _ => Raise (NotADirectoryError path)
          end
      end.

(** [os.chmod(path, mode)]; directories carry no mode in this model. *)
Definition os_chmod (w : World) (path : string) (mode : Z) : result World :=
  match resolve w path with
  | None => Raise (FileNotFoundError path)
  | Some cs =>
      match get (fs_root w) cs with
      | Some (File _ content) =>
          Ok (with_root w (put (fs_root w) cs (File mode content)))
      | _ => Ok w
      end
  end.

(* ================================================================= *)
(** ** [shutil.which] *)

Fixpoint contains_char (c : ascii) (s : string) : bool :=
  match s with
  | EmptyString => false
  | String a s' => Ascii.eqb a c || contains_char c s'
  end.

(** [shutil._access_check(fn, os.F_OK | os.X_OK)]; [os.access] is taken
    for a process that may execute whatever carries an execute bit. *)
Definition _access_check (w : World) (fn : string) : bool :=
  os_path_exists w fn && exec_bits_set w fn && negb (os_path_isdir w fn).

(** [os.defpath] *)
Definition os_defpath : string := "/bin:/usr/bin".

(** [shutil.which(cmd)]: a command with a directory part is checked as it
    is ([os.path.dirname(cmd)] is non-empty exactly when [cmd] contains a
    separator); otherwise the directories of [PATH] are tried in order. *)
Definition shutil_which (w : World) (cmd : string) : option string :=
  if contains_char SEP cmd then
    if _access_check w cmd then Some cmd else None
  else
    let path :=
      match environ_PATH w with Some p => p | None => os_defpath end in
    if negb (Shlex.nonempty path) then None
    else
      find (_access_check w)
           (map (fun dir => os_path_join dir cmd) (str_split ":" path)).

(* ================================================================= *)
(** ** Octets to text *)

Definition between (lo hi n : nat) : bool := (lo <=? n)%nat && (n <=? hi)%nat.

(** Well-formed UTF-8, as [bytes.decode("utf-8")] demands: [pending]
    lists the ranges the next continuation octets must fall in. *)
Fixpoint utf8_valid (pending : list (nat * nat)) (s : string) : bool :=
  match s with
  | EmptyString => match pending with [] => true | _ => false end
  | String c s' =>
      let n := nat_of_ascii c in
      let cont := (128, 191) in
      match pending with
      | (lo, hi) :: p' => between lo hi n && utf8_valid p' s'
      | [] =>
          if (n <? 128)%nat then utf8_valid [] s'
          else if between 194 223 n then utf8_valid [cont] s'
          else if Nat.eqb n 224 then utf8_valid [(160, 191); cont] s'
          else if between 225 236 n || between 238 239 n
               then utf8_valid [cont; cont] s'
          else if Nat.eqb n 237 then utf8_valid [(128, 159); cont] s'
          else if Nat.eqb n 240 then utf8_valid [(144, 191); cont; cont] s'
          else if between 241 243 n then utf8_valid [cont; cont; cont] s'
          else if Nat.eqb n 244 then utf8_valid [(128, 143); cont; cont] s'
          else false
      end
  end.

Definition decode_utf8 (s : string) : result string :=
  if utf8_valid [] s then Ok s else Raise UnicodeDecodeError.

(** The octets [bytes.strip()] removes. *)
Definition is_space (c : ascii) : bool :=
  is_member c
    (String " " (String TAB (String LF (String CR (String VT (String FF "")))))).

Fixpoint lstrip (s : string) : string :=
  match s with
  | String c s' => if is_space c then lstrip s' else s
  | EmptyString => s
  end.

Fixpoint rstrip (s : string) : string :=
  match s with
  | EmptyString => ""
  | String c s' =>
      match rstrip s' with
      | EmptyString => if is_space c then "" else String c ""
      | r => String c r
      end
  end.

Definition strip (s : string) : string := rstrip (lstrip s).

(** [f.readline()]: up to and including the first line feed. *)
Fixpoint readline (s : string) : string :=
  match s with
  | EmptyString => ""
  | String c s' => if Ascii.eqb c LF then String c "" else String c (readline s')
  end.

(** [f.read(2)] and what is left after it. *)
Definition read2 (s : string) : string * string :=
  match s with
  | String a (String b s') => (String a (String b ""), s')
  | _ => (s, "")
  end.

(* ================================================================= *)
(** ** Logging and the computation type *)

(** One constructor per [logger.warning] call of the module, carrying the
    values its message is formatted with. *)
Inductive warning :=
| W_interpreter_not_found
    (* "Unable to find interpreter in any paths: {resolved_parts[0]!r}": the
       literal is not an f-string, so nothing is substituted *)
| W_interpreter_resolved (interpreter command resolved : string)
    (* "The interpreter ... for ... was resolved to ..." *)
| W_command_resolved (command resolved : string)
    (* "The command ... was not found in the prime directory, but found ..." *)
| W_unneeded_snap (command : string)
    (* "Found unneeded '$SNAP/' in command ..." *)
| W_changed_for_interpreter (command massaged : string)
    (* "The command ... has been changed to ... to safely account for the
       interpreter." *)
| W_changed (command massaged : string)
    (* "The command ... has been changed to ..." *)
| W_snapd_wrapper (command : string).
    (* _FMT_SNAPD_WRAPPER *)

(** A computation reads the log so far and returns a value or raises,
    together with the extended log. *)
Definition M (A : Type) : Type := list warning -> result A * list warning.

Definition ret {A} (a : A) : M A := fun log => (Ok a, log).
Definition raise {A} (e : exn) : M A := fun log => (Raise e, log).
Definition bind {A B} (m : M A) (k : A -> M B) : M B :=
  fun log =>
    match m log with
    | (Ok a, log') => k a log'
    | (Raise e, log') => (Raise e, log')
    end.
Definition logger_warning (msg : warning) : M unit :=
  fun log => (Ok tt, (log ++ [msg])%list).
Definition lift {A} (r : result A) : M A := fun log => (r, log).

Notation "x <- m ;; k" := (bind m (fun x => k))
  (at level 61, m at next level, right associativity).
Notation "m ;;; k" := (bind m (fun _ => k))
  (at level 61, right associativity).

(* ================================================================= *)
(** ** [command.py] *)

(** [re.sub("^" + literal, "", s)]: the anchored literal can match at
    position 0 only, so at most one occurrence is removed. *)
Definition re_sub_leading (literal s : string) : string :=
  if startswith s literal
  then String.substring (String.length literal)
                        (String.length s - String.length literal) s
  else s.

Definition _get_shebang_from_file (w : World) (file_path : string)
  : result (option string) :=
  match open_rb w file_path with
  | Raise e => Raise e
  | Ok content =>
      let (head, rest) := read2 content in
      if negb (str_eqb head "#!") then Ok None
      else match decode_utf8 (strip (readline rest)) with
           | Ok shebang_line => Ok (Some shebang_line)
           | Raise e => Raise e
           end
  end.

Definition _find_executable (w : World) (command prime_dir : string)
  : option string :=
  let binary_paths :=
    map (fun p => os_path_join p command) (get_bin_paths w prime_dir) in
  match find (_executable_is_valid w) binary_paths with
  | Some binary_path => Some binary_path
  | None =>
      match find (_executable_is_valid w)
                 (map (fun root => os_path_join root command)
                      (os_walk w prime_dir)) with
      | Some found => Some found
      | None => shutil_which w command
      end
  end.

Definition _strip_command_leaders (command : string) : string :=
  let command := re_sub_leading "/" command in
  let command := re_sub_leading "$SNAP/" command in
  command.

Definition _resolve_snap_command_path (w : World) (command prime_dir : string)
  : result (option string * bool) :=
  let command := _strip_command_leaders command in
  if negb (os_path_exists w (os_path_join prime_dir command)) then
    match _find_executable w command prime_dir with
    | None => Ok (None, true)
    | Some found_command =>
        if startswith found_command prime_dir then
          match os_path_relpath (getcwd w) found_command prime_dir with
          | Ok command => Ok (Some command, true)
          | Raise e => Raise e
          end
        else Ok (Some found_command, true)
    end
  else Ok (Some command, false).

Definition _split_command (w : World) (command prime_dir : string)
  : result (list string * list string) :=
  match Shlex.split command false with
  | Raise e => Raise e
  | Ok command_parts =>
      match index0 command_parts with
      | Raise e => Raise e
      | Ok first =>
          let command_path :=
            os_path_join prime_dir (_strip_command_leaders first) in
          if os_path_exists w command_path then
            match _get_shebang_from_file w command_path with
            | Raise e => Raise e
            | Ok (Some shebang) =>
                if Shlex.nonempty shebang then
                  match Shlex.split shebang false with
                  | Ok shebang_parts => Ok (shebang_parts, command_parts)
                  | Raise e => Raise e
                  end
                else Ok ([], command_parts)
            | Ok None => Ok ([], command_parts)
            end
          else Ok ([], command_parts)
      end
  end.

(** [parts[0] = value] on a non-empty list. *)
Definition set0 (parts : list string) (value : string) : list string :=
  match parts with
  | [] => []
  | _ :: rest => value :: rest
  end.

Definition _resolve_interpreter_parts (w : World)
           (shebang_parts command_parts : list string) (prime_dir : string)
  : M (list string) :=
  first <- lift (index0 shebang_parts) ;;
  let resolved_parts :=
    if str_eqb first "/usr/bin/env" then tl shebang_parts else shebang_parts in
  interpreter <- lift (index0 resolved_parts) ;;
  r <- lift (_resolve_snap_command_path w interpreter prime_dir) ;;
  let (resolved_interpreter, search_required) := r in
  match resolved_interpreter with
  | None =>
      logger_warning W_interpreter_not_found ;;;
      ret resolved_parts
  | Some resolved =>
      (if search_required then
         command0 <- lift (index0 command_parts) ;;
         logger_warning (W_interpreter_resolved interpreter command0 resolved)
       else ret tt) ;;;
      ret (set0 resolved_parts resolved)
  end.

Definition _resolve_command_parts (w : World) (command_parts : list string)
           (interpreted_command : bool) (prime_dir : string)
  : M (list string) :=
  let resolved_parts := command_parts in
  first <- lift (index0 resolved_parts) ;;
  r <- lift (_resolve_snap_command_path w first prime_dir) ;;
  let (resolved_command, search_required) := r in
  match resolved_command with
  | None => raise (PrimedCommandNotFoundError first)
  | Some resolved =>
      (if search_required
       then logger_warning (W_command_resolved first resolved)
       else ret tt) ;;;
      let resolved :=
        if interpreted_command && Shlex.nonempty resolved
           && negb (startswith resolved "/")
        then os_path_join "$SNAP" resolved else resolved in
      ret (set0 resolved_parts resolved)
  end.

Definition _massage_command (w : World) (command prime_dir : string) : M string :=
  if startswith command "/" then ret command
  else
    let massaged_command := re_sub_leading "$SNAP/" command in
    parts <- lift (_split_command w massaged_command prime_dir) ;;
    let (shebang_parts, command_parts) := parts in
    let interpreted_command :=
      match shebang_parts with [] => false | _ => true end in
    shebang_parts <-
      (if interpreted_command
       then _resolve_interpreter_parts w shebang_parts command_parts prime_dir
       else ret shebang_parts) ;;
    command_parts <-
      _resolve_command_parts w command_parts interpreted_command prime_dir ;;
    let massaged_command := str_join " " (shebang_parts ++ command_parts) in
    (if negb (str_eqb massaged_command command) then
       (if startswith command "$SNAP/"
        then logger_warning (W_unneeded_snap command) else ret tt) ;;;
       (if interpreted_command
        then logger_warning (W_changed_for_interpreter command massaged_command)
        else logger_warning (W_changed command massaged_command))
     else ret tt) ;;;
    ret massaged_command.

(** The attributes of a [Command] object. *)
Record Command := {
  _app_name : string;
  _command_name : string;
  command : string;
  wrapped_command : option string;
  massaged_command : option string
}.

(** [Command(app_name=..., command_name=..., command=...)] *)
Definition Command_init (app_name command_name command : string) : Command :=
  {| _app_name := app_name; _command_name := command_name; command := command;
     wrapped_command := None; massaged_command := None |}.

Definition set_command (self : Command) (c : string) : Command :=
  {| _app_name := _app_name self; _command_name := _command_name self;
     command := c; wrapped_command := wrapped_command self;
     massaged_command := massaged_command self |}.

Definition set_wrapped_command (self : Command) (c : string) : Command :=
  {| _app_name := _app_name self; _command_name := _command_name self;
     command := command self; wrapped_command := Some c;
     massaged_command := massaged_command self |}.

Definition command_name (self : Command) : string := _command_name self.

Definition requires_wrapper (self : Command) : bool :=
  let command :=
    match wrapped_command self with
    | Some wrapped => wrapped
    | None => command self
    end in
  startswith command "/" || negb (Re.matches _COMMAND_PATTERN command).

Definition wrapped_command_name (self : Command) : string :=
  command_name self ++ "-" ++ _app_name self ++ ".wrapper".

(** A method leaves the object in some state whether it returns or
    raises, so the methods yield the object next to their outcome. *)
Definition outcome (A : Type) : Type := ((Command * result A) * list warning)%type.

(** [prime_command] from its second statement on: the wrapper decision
    and the executable check. *)
Definition prime_checks (w : World) (can_use_wrapper : bool)
           (prime_dir : string) (self : Command) (log : list warning)
  : outcome string :=
  if requires_wrapper self then
    if negb can_use_wrapper then
      (self, Raise (InvalidAppCommandFormatError (command self) (_app_name self)),
       log)
    else
      let self := set_wrapped_command self (command self) in
      let log :=
        if negb (Re.matches _COMMAND_PATTERN (command self))
        then (log ++ [W_snapd_wrapper (command self)])%list else log in
      let self := set_command self (wrapped_command_name self) in
      (self, Ok (command self), log)
  else
    match Shlex.split (command self) true with
    | Raise e => (self, Raise e, log)
    | Ok command_parts =>
        match index0 command_parts with
        | Raise e => (self, Raise e, log)
        | Ok first =>
            let command_path := os_path_join prime_dir first in
            if negb (_executable_is_valid w command_path) then
              (self,
               Raise (InvalidAppCommandNotExecutable (command self)
                                                     (_app_name self)),
               log)
            else (self, Ok (command self), log)
        end
    end.

Definition prime_command (w : World) (can_use_wrapper massage_command : bool)
           (prime_dir : string) (self : Command) (log : list warning)
  : outcome string :=
  if massage_command then
    match _massage_command w (command self) prime_dir log with
    | (Raise e, log) => (self, Raise e, log)
    | (Ok massaged, log) =>
        prime_checks w can_use_wrapper prime_dir (set_command self massaged) log
    end
  else prime_checks w can_use_wrapper prime_dir self log.

(** The two [print] calls of [write_wrapper]. *)
Definition wrapper_content (command : string) : string :=
  "#!/bin/sh" ++ String LF "" ++
  "exec " ++ command ++ " " ++ String DQUOTE "$@" ++ String DQUOTE "" ++
  String LF "".

(** [write_wrapper] changes the file system and not the object. *)
Definition write_wrapper (w : World) (prime_dir : string) (self : Command)
  : World * result (option string) :=
  match wrapped_command self with
  | None => (w, Ok None)
  | Some wrapped =>
      let command_wrapper := os_path_join prime_dir (wrapped_command_name self) in
      let command :=
        if startswith wrapped "/" then wrapped
        else os_path_join "$SNAP" wrapped in
      match write_text w command_wrapper (wrapper_content command) with
      | Raise e => (w, Raise e)
      | Ok w1 =>
          match os_chmod w1 command_wrapper 493 with
          | Raise e => (w1, Raise e)
          | Ok w2 => (w2, Ok (Some command_wrapper))
          end
      end
  end.

(* ================================================================= *)
(** ** The grammar in the words of the specification

    A second definition, to be compared with [_COMMAND_PATTERN]: a
    command string is grammar-valid iff its first character is one of
    [[A-Za-z0-9. _#:$-]] and every subsequent character is one of
    [[A-Za-z0-9/. _#:$-]]. *)

Definition is_alnum (c : ascii) : bool :=
  in_range "A" "Z" c || in_range "a" "z" c || in_range "0" "9" c.

Definition grammar_first (c : ascii) : bool :=
  is_alnum c || is_member c ". _#:$-".

Definition grammar_rest (c : ascii) : bool :=
  is_alnum c || is_member c "/. _#:$-".

Fixpoint all_chars (p : ascii -> bool) (s : string) : bool :=
  match s with
  | EmptyString => true
  | String c s' => p c && all_chars p s'
  end.

Definition grammar_valid (s : string) : bool :=
  match s with
  | EmptyString => false
  | String c s' => grammar_first c && all_chars grammar_rest s'
  end.

(* ================================================================= *)
(** ** Vocabulary of the properties *)

(** [r] is the first element of [candidates] that passes [ok]. *)
Definition first_match {A} (ok : A -> bool) (candidates : list A) (r : A) : Prop :=
  exists before after,
    candidates = (before ++ r :: after)%list /\
    ok r = true /\
    forall x, In x before -> ok x = false.

Definition none_match {A} (ok : A -> bool) (candidates : list A) : Prop :=
  forall x, In x candidates -> ok x = false.

(** The candidates of the first two search strategies of the locator. *)
Definition bin_candidates (w : World) (command prime_dir : string) : list string :=
  map (fun p => os_path_join p command) (get_bin_paths w prime_dir).

Definition walk_candidates (w : World) (command prime_dir : string) : list string :=
  map (fun root => os_path_join root command) (os_walk w prime_dir).

(** What the locator may answer: the first valid candidate below a known
    binary directory; failing that, the first valid candidate of the walk;
    failing that, whatever the host search says. *)
Inductive located (w : World) (command prime_dir : string) : option string -> Prop :=
| located_bin (found : string) :
    first_match (_executable_is_valid w) (bin_candidates w command prime_dir) found ->
    located w command prime_dir (Some found)
| located_walk (found : string) :
    none_match (_executable_is_valid w) (bin_candidates w command prime_dir) ->
    first_match (_executable_is_valid w) (walk_candidates w command prime_dir) found ->
    located w command prime_dir (Some found)
| located_host :
    none_match (_executable_is_valid w) (bin_candidates w command prime_dir) ->
    none_match (_executable_is_valid w) (walk_candidates w command prime_dir) ->
    located w command prime_dir (shutil_which w command).

(** What the resolver may answer for a command name whose leaders have
    been stripped to [name]. *)
Inductive resolved (w : World) (name prime_dir : string)
  : result (option string * bool) -> Prop :=
| resolved_literal :
    os_path_exists w (os_path_join prime_dir name) = true ->
    resolved w name prime_dir (Ok (Some name, false))
| resolved_absent :
    os_path_exists w (os_path_join prime_dir name) = false ->
    _find_executable w name prime_dir = None ->
    resolved w name prime_dir (Ok (None, true))
| resolved_staged (found relative : string) :
    os_path_exists w (os_path_join prime_dir name) = false ->
    _find_executable w name prime_dir = Some found ->
    startswith found prime_dir = true ->
    os_path_relpath (getcwd w) found prime_dir = Ok relative ->
    resolved w name prime_dir (Ok (Some relative, true))
| resolved_host (found : string) :
    os_path_exists w (os_path_join prime_dir name) = false ->
    _find_executable w name prime_dir = Some found ->
    startswith found prime_dir = false ->
    resolved w name prime_dir (Ok (Some found, true)).

(** A small installation used in the examples: a staged tree under
    [/prime] and a host with one interpreter on its search path. *)
Definition sample_root : node :=
  Dir [("prime",
        Dir [("bin",
              Dir [("run", File 493 ("#!/usr/bin/env widget-lang"
                                       ++ String LF "main()" ++ String LF ""));
                   ("foo", File 493 "ELF");
                   ("script", File 493 ("#!/usr/bin/env nolang"
                                          ++ String LF "main()" ++ String LF ""))]);
             ("opt", Dir [("x", Dir [("tool", File 493 "ELF")])]);
             ("README", File 420 "text")]);
       ("bin", Dir [("sh", File 493 "ELF")]);
       ("usr", Dir [("bin", Dir [("widget-lang", File 493 "ELF")])]);
       ("home", Dir [("builder", Dir [])])].

Definition sample_world : World :=
  {| fs_root := sample_root;
     getcwd := "/home/builder";
     environ_PATH := Some "/usr/local/bin:/usr/bin";
     umask := 18;
     get_bin_paths := fun root =>
       [os_path_join root "usr/bin"; os_path_join root "bin"] |}.

(** White space as [shlex] sees it. *)
Definition is_shlex_space (c : ascii) : bool := is_member c Shlex.whitespace.

(** A regular file that does not begin with the two octets [#!]. *)
Definition without_directive (w : World) (path : string) : Prop :=
  exists mode content,
    lookup w path = Some (File mode content) /\ fst (read2 content) <> "#!".

(** An already-canonical command text: relative (it carries neither a
    leading [/] nor the [$SNAP/] prefix), its tokens separated by single
    spaces, and its first token a file below the staged root that has no
    interpreter directive. *)
Definition canonical (w : World) (prime_dir text : string) : Prop :=
  startswith text "/" = false /\
  startswith text "$SNAP/" = false /\
  exists first rest,
    Shlex.split text false = Ok (first :: rest) /\
    str_join " " (first :: rest) = text /\
    without_directive w (os_path_join prime_dir first).

(** The shebang tokens once a leading [/usr/bin/env] is dropped. *)
Definition drop_env (shebang_parts : list string) : list string :=
  match shebang_parts with
  | first :: rest =>
      if str_eqb first "/usr/bin/env" then rest else shebang_parts
  | [] => []
  end.

(** The interpreter step of [_massage_command], taken only for a
    non-empty shebang. *)
Definition interpreter_stage (w : World) (shebang_parts command_parts : list string)
           (prime_dir : string) : M (list string) :=
  if match shebang_parts with [] => false | _ => true end
  then _resolve_interpreter_parts w shebang_parts command_parts prime_dir
  else ret shebang_parts.

(** The command token as [_resolve_command_parts] leaves it. *)
Definition with_snap (interpreted_command : bool) (resolved : string) : string :=
  if interpreted_command && Shlex.nonempty resolved
     && negb (startswith resolved "/")
  then os_path_join "$SNAP" resolved else resolved.

(** The first statement of [prime_command] went through: it left the
    object [self1] and the log [log1]. *)
Definition after_massage (w : World) (massage_command : bool)
           (prime_dir : string) (self : Command) (log : list warning)
           (self1 : Command) (log1 : list warning) : Prop :=
  if massage_command then
    exists text,
      _massage_command w (command self) prime_dir log = (Ok text, log1)
      /\ self1 = set_command self text
  else self1 = self /\ log1 = log.

(** The outcome of a method call, without the object and the log. *)
Definition outcome_of {A} (out : outcome A) : result A := snd (fst out).
Definition object_of {A} (out : outcome A) : Command := fst (fst out).




(** The test of [requires_wrapper] on a text. *)
Definition text_requires_wrapper (text : string) : bool :=
  startswith text "/" || negb (Re.matches _COMMAND_PATTERN text).

(** The text most recently normalised: what [_massage_command] returned if
    this call normalised, what it was before otherwise. *)
Definition normalized_text (w : World) (massage_command : bool)
           (prime_dir : string) (self : Command) (log : list warning)
           (last : string) : string :=
  if massage_command then
    match fst (_massage_command w (command self) prime_dir log) with
    | Ok massaged => massaged
    | Raise _ => last
    end
  else last.

(** The states of a [Command] built from [raw] after any number of
    completed [prime_command] calls, each in its own surroundings and with
    its own flags, paired with the text most recently normalised (the raw
    text while none has been). *)
Inductive reachable (app_name command_name raw : string)
  : Command -> string -> Prop :=
| reach_init :
    reachable app_name command_name raw
              (Command_init app_name command_name raw) raw
| reach_prime (self : Command) (last : string) (w : World)
              (can_use_wrapper massage_command : bool) (prime_dir : string)
              (log : list warning) (self' : Command) (text : string)
              (log' : list warning) :
    reachable app_name command_name raw self last ->
    prime_command w can_use_wrapper massage_command prime_dir self log
    = (self', Ok text, log') ->
    reachable app_name command_name raw self'
              (normalized_text w massage_command prime_dir self log last).

(** The command [command] of [app] once [prime_command] has recorded
    [/opt/tool/bin/run-it] as its wrapped command. *)
Definition wrapped_sample : Command :=
  {| _app_name := "app"; _command_name := "command";
     command := "command-app.wrapper";
     wrapped_command := Some "/opt/tool/bin/run-it";
     massaged_command := None |}.

(** [n'] keeps every directory of [n], with at least its entries. *)
Definition extends (n n' : node) : Prop :=
  forall q es,
    get n q = Some (Dir es) ->
    exists es',
      get n' q = Some (Dir es')
      /\ forall c, find_entry c es <> None -> find_entry c es' <> None.

(** The node at a position is a regular file, or nothing. *)
Definition file_or_absent (n : node) (q : list string) : Prop :=
  get n q = None \/ exists mode content, get n q = Some (File mode content).

Definition is_ok {A : Type} (r : result A) : bool :=
  match r with Ok _ => true | Raise _ => false end.

(** [open(path, "w+")] succeeds. *)
Definition can_open_for_writing (w : World) (path : string) : bool :=
  is_ok (write_text w path "").

(** A text made of the two lines [l1] and [l2], each ended by a line
    feed. *)
Definition two_lines (l1 l2 : string) : string :=
  l1 ++ String LF "" ++ l2 ++ String LF "".

Definition double_quoted (s : string) : string :=
  String DQUOTE "" ++ s ++ String DQUOTE "".

(** The command a wrapper invokes, in the words of the specification. *)
Definition invoked_command (wrapped : string) : string :=
  if startswith wrapped "/" then wrapped else "$SNAP/" ++ wrapped.

(** Read and execute permission for owner, group and other:
    [mode & 0o555 == 0o555]. *)
Definition all_may_read_and_execute (mode : Z) : bool :=
  (Z.land mode 365 =? 365)%Z.

(** The pattern accepts the strings of the grammar and, because of how
    [$] is read, those strings followed by one line feed. *)
Definition accepted (s : string) : Prop :=
  grammar_valid s = true \/
  exists s', s = s' ++ String LF "" /\ grammar_valid s' = true.

Definition tail_accepted (t : string) : Prop :=
  all_chars grammar_rest t = true \/
  exists t', t = t' ++ String LF "" /\ all_chars grammar_rest t' = true.

(* ----------------------------------------------------------------- *)
(** Vocabulary of the further properties *)

Definition first_char (s : string) : option ascii :=
  match s with String c _ => Some c | EmptyString => None end.

Fixpoint last_char (s : string) : option ascii :=
  match s with
  | EmptyString => None
  | String c EmptyString => Some c
  | String _ s' => last_char s'
  end.

(** [s] is empty, or neither begins nor ends with an octet that
    [bytes.strip()] removes. *)
Definition no_outer_space (s : string) : bool :=
  match first_char s, last_char s with
  | Some a, Some b => negb (is_space a) && negb (is_space b)
  | _, _ => true
  end.

(** What may follow the first line of a file: nothing, or a line feed and
    the other lines. *)
Definition line_end (tail : string) : Prop :=
  tail = "" \/ exists more, tail = String LF more.

(** The file content begins with [#!], and the rest of its first line is
    [core] with white space, but no line feed, around it. *)
Definition shebang_line_is (content core : string) : Prop :=
  exists ws1 ws2 tail,
    content = "#!" ++ ws1 ++ core ++ ws2 ++ tail
    /\ all_chars is_space ws1 = true
    /\ all_chars is_space ws2 = true
    /\ contains_char LF (ws1 ++ core ++ ws2) = false
    /\ line_end tail.

(** A second installation for the examples: scripts with unusual first
    lines and a directory where a command could be expected. *)
Definition edge_root : node :=
  Dir [("prime",
        Dir [("bin",
              Dir [("blank", File 493 ("#!" ++ String LF "exit 0" ++ String LF ""));
                   ("envonly", File 493 ("#!/usr/bin/env" ++ String LF ""));
                   ("crlf", File 493 ("#! /bin/sh -e " ++ String CR (String LF "")
                                        ++ "exit 0" ++ String CR (String LF "")));
                   ("latin", File 493 ("#!/opt/caf" ++ String "233" (String LF "")));
                   ("sh", File 493 "ELF");
                   ("tool", File 493 "ELF")]);
             ("lib", Dir [("tool.d", Dir [])])]);
       ("bin", Dir [("sh", File 493 "ELF")]);
       ("home", Dir [("builder", Dir [])])].

Definition edge_world : World :=
  {| fs_root := edge_root;
     getcwd := "/home/builder";
     environ_PATH := Some "/usr/bin:/bin";
     umask := 18;
     get_bin_paths := fun root =>
       [os_path_join root "usr/bin"; os_path_join root "bin"] |}.

(** A character that [shlex] reads as itself in POSIX mode outside
    quotes: neither a quote nor the escape character. *)
Definition plain_char (c : ascii) : bool :=
  negb (is_member c Shlex.quotes) && negb (is_member c Shlex.escape).

Fixpoint skip_spaces (s : string) : string :=
  match s with
  | String c s' => if is_shlex_space c then skip_spaces s' else s
  | EmptyString => s
  end.

Fixpoint take_word (s : string) : string :=
  match s with
  | String c s' => if is_shlex_space c then "" else String c (take_word s')
  | EmptyString => ""
  end.

(** The first word of a text: what stands between the leading white
    space and the next white space. *)
Definition first_word (s : string) : string := take_word (skip_spaces s).

(** [path] names, in [w], the entry [name] of the directory at the
    canonical position [parent]: the walk of all its components but the
    last ends there, and the entry is a regular file or missing. *)
Definition file_slot (w : World) (path : string) (parent : list string)
           (name : string) : Prop :=
  str_eqb path "" = false
  /\ last (walk_comps w path) "" = name
  /\ is_dot_name name = false
  /\ canon (fs_root w) [] (removelast (walk_comps w path)) = Some parent
  /\ exists es,
      get (fs_root w) parent = Some (Dir es)
      /\ (find_entry name es = None
          \/ exists m c, find_entry name es = Some (File m c)).

(** The text of the wrapper script for a wrapped command. *)
Definition wrapper_script (wrapped : string) : string :=
  two_lines "#!/bin/sh"
            ("exec " ++ invoked_command wrapped ++ " " ++ double_quoted "$@").

Definition no_space (s : string) : bool :=
  all_chars (fun c => negb (is_shlex_space c)) s.

(** The tokens [shlex] makes in non-POSIX mode with [whitespace_split]:
    a word, which has no white space and does not begin with a quote, or a
    quoted string, which keeps its quotes. *)
Definition is_word (s : string) : bool :=
  match s with
  | String c s' =>
      negb (is_shlex_space c) && negb (is_member c Shlex.quotes) && no_space s'
  | EmptyString => false
  end.

Definition is_quoted (s : string) : Prop :=
  exists q body,
    s = String q (body ++ String q "")
    /\ is_member q Shlex.quotes = true
    /\ contains_char q body = false.

Definition is_token (s : string) : Prop := is_word s = true \/ is_quoted s.

(** Induction on a tree, with the property at hand for every entry of a
    directory. *)
Fixpoint node_induction (P : node -> Prop)
         (HF : forall mode content, P (File mode content))
         (HD : forall es, Forall (fun e => P (snd e)) es -> P (Dir es))
         (n : node) {struct n} : P n :=
  match n with
  | File mode content => HF mode content
  | Dir es =>
      HD es
         ((fix entries (es : list (string * node))
             : Forall (fun e => P (snd e)) es :=
             match es with
             | [] => Forall_nil _
             | e :: es' =>
                 Forall_cons e (node_induction P HF HD (snd e)) (entries es')
             end) es)
  end.

(** [sub] is a chain of directory entries leading from the directory [n]
    down to a directory: the empty chain for [n] itself, and a chain through
    an entry of [n] that is a directory. *)
Inductive dir_below : node -> list string -> Prop :=
| below_here (es : list (string * node)) : dir_below (Dir es) []
| below_entry (es : list (string * node)) (name : string) (ch : node)
              (sub : list string) :
    In (name, ch) es ->
    dir_below ch sub ->
    dir_below (Dir es) (name :: sub).

(** [os.path.join(top, d1, ..., dk)]: the path of the directory reached
    from [top] through the chain [d1 ... dk]. *)
Definition subdir_path (top : string) (sub : list string) : string :=
  fold_left os_path_join sub top.

(** The search path [shutil.which] uses. *)
Definition search_path (w : World) : string :=
  match environ_PATH w with Some p => p | None => os_defpath end.

(** An installation whose host has a directory, on the search path, whose
    name begins with the name of the staged root. *)
Definition prefix_root : node :=
  Dir [("prime", Dir [("bin", Dir [("foo", File 493 "ELF")])]);
       ("prime-tools", Dir [("bin", Dir [("hosttool", File 493 "ELF")])]);
       ("bin", Dir [("sh", File 493 "ELF")]);
       ("home", Dir [("builder", Dir [])])].

Definition prefix_world : World :=
  {| fs_root := prefix_root;
     getcwd := "/home/builder";
     environ_PATH := Some "/prime-tools/bin:/usr/bin:/bin";
     umask := 18;
     get_bin_paths := fun root =>
       [os_path_join root "usr/bin"; os_path_join root "bin"] |}.

(** The shebang tokens [_split_command] reads for a command token: those
    of the non-POSIX split of the shebang of the file at
    [os.path.join(prime_dir, token)], the leaders of the token stripped,
    and none when there is no such file, no shebang in it, or an empty
    one. *)
Inductive shebang_tokens (w : World) (prime_dir token : string)
  : list string -> Prop :=
| tokens_no_file :
    os_path_exists w (os_path_join prime_dir (_strip_command_leaders token))
    = false ->
    shebang_tokens w prime_dir token []
| tokens_no_shebang :
    os_path_exists w (os_path_join prime_dir (_strip_command_leaders token))
    = true ->
    _get_shebang_from_file
      w (os_path_join prime_dir (_strip_command_leaders token)) = Ok None ->
    shebang_tokens w prime_dir token []
| tokens_empty_shebang :
    os_path_exists w (os_path_join prime_dir (_strip_command_leaders token))
    = true ->
    _get_shebang_from_file
      w (os_path_join prime_dir (_strip_command_leaders token)) = Ok (Some "") ->
    shebang_tokens w prime_dir token []
| tokens_of_shebang (shebang : string) (parts : list string) :
    os_path_exists w (os_path_join prime_dir (_strip_command_leaders token))
    = true ->
    _get_shebang_from_file
      w (os_path_join prime_dir (_strip_command_leaders token))
    = Ok (Some shebang) ->
    shebang <> "" ->
    Shlex.split shebang false = Ok parts ->
    shebang_tokens w prime_dir token parts.

(** What [_resolve_interpreter_parts] makes of the shebang tokens: a
    leading [/usr/bin/env] is dropped, and the token then in front is
    replaced by what the resolver answers for it, or kept when the resolver
    finds nothing. *)
Inductive interpreter_tokens (w : World) (prime_dir : string)
  : list string -> list string -> Prop :=
| interpreter_none : interpreter_tokens w prime_dir [] []
| interpreter_resolved (parts : list string) (interpreter : string)
                       (others : list string) (resolved : string)
                       (search_required : bool) :
    parts <> [] ->
    drop_env parts = interpreter :: others ->
    _resolve_snap_command_path w interpreter prime_dir
    = Ok (Some resolved, search_required) ->
    interpreter_tokens w prime_dir parts (resolved :: others)
| interpreter_kept (parts : list string) (interpreter : string)
                   (others : list string) (search_required : bool) :
    parts <> [] ->
    drop_env parts = interpreter :: others ->
    _resolve_snap_command_path w interpreter prime_dir
    = Ok (None, search_required) ->
    interpreter_tokens w prime_dir parts (interpreter :: others).

(* ================================================================= *)
(** * Properties *)

(** ** The command grammar *)

Lemma first_class_spec (c : ascii) : Re.cls_mem first_class c = grammar_first c.
Proof. destruct c as [[] [] [] [] [] [] [] []]; reflexivity. Qed.

Lemma rest_class_spec (c : ascii) : Re.cls_mem rest_class c = grammar_rest c.
Proof. destruct c as [[] [] [] [] [] [] [] []]; reflexivity. Qed.

Lemma grammar_rest_not_LF (c : ascii) : grammar_rest c = true -> c <> LF.
Proof. intros H ->. discriminate H. Qed.

Lemma tail_accepted_cons_in (a : ascii) (t : string) :
  grammar_rest a = true -> (tail_accepted (String a t) <-> tail_accepted t).
Proof.
  intros Ha. unfold tail_accepted. simpl. rewrite Ha. simpl. split.
  - intros [H | [t' [E H]]]; [now left|right].
    destruct t' as [|b t'']; simpl in E.
    + injection E as -> _. discriminate Ha.
    + injection E as -> ->. simpl in H. rewrite Ha in H. now exists t''.
  - intros [H | [t' [-> H]]]; [now left|right].
    exists (String a t'). simpl. now rewrite Ha.
Qed.

Lemma tail_accepted_cons_out (a : ascii) (t : string) :
  grammar_rest a = false ->
  (tail_accepted (String a t) <-> a = LF /\ t = "").
Proof.
  intros Ha. unfold tail_accepted. simpl. rewrite Ha. simpl. split.
  - intros [H | [t' [E H]]]; [discriminate|].
    destruct t' as [|b t'']; simpl in E.
    + now injection E as -> <-.
    + injection E as -> ->. simpl in H. now rewrite Ha in H.
  - intros [-> ->]. right. now exists "".
Qed.

Lemma star_eol_spec (t : string) (b : bool) :
  Re.match_here [Re.Many rest_class; Re.Eol] b t <> None <-> tail_accepted t.
Proof.
  revert b. induction t as [|a t IH]; intros b.
  - simpl. split; [intros _; now left | discriminate].
  - change (Re.match_here [Re.Many rest_class; Re.Eol] b (String a t))
      with (if Re.cls_mem rest_class a
            then match Re.match_here [Re.Many rest_class; Re.Eol] false t with
                 | Some r => Some r
                 | None => Re.match_here [Re.Eol] b (String a t)
                 end
            else Re.match_here [Re.Eol] b (String a t)).
    rewrite rest_class_spec.
    assert (Heol : Re.match_here [Re.Eol] b (String a t) <> None
                   <-> a = LF /\ t = "").
    { simpl. destruct t; simpl.
      - destruct (Ascii.eqb_spec a LF) as [->|Hn].
        + split; [intros _; split; reflexivity | discriminate].
        + split; [intros H; now elim H | intros [H _]; contradiction].
      - split; [intros H; now elim H | intros [_ H]; discriminate H]. }
    destruct (grammar_rest a) eqn:Ha.
    + rewrite (tail_accepted_cons_in a t Ha), <- (IH false).
      destruct (Re.match_here [Re.Many rest_class; Re.Eol] false t).
      * split; discriminate.
      * rewrite Heol. split; [|tauto].
        intros [-> _]. discriminate Ha.
    + now rewrite Heol, (tail_accepted_cons_out a t Ha).
Qed.

Lemma command_pattern_accepts (s : string) :
  Re.matches _COMMAND_PATTERN s = true <-> accepted s.
Proof.
  unfold Re.matches, accepted. destruct s as [|c t].
  - simpl. split; [discriminate|].
    intros [H | [[|] [E _]]]; discriminate.
  - change (Re.match_here _COMMAND_PATTERN true (String c t))
      with (if Re.cls_mem first_class c
            then Re.match_here [Re.Many rest_class; Re.Eol] false t
            else None).
    rewrite first_class_spec.
    pose proof (star_eol_spec t false) as Hs. unfold tail_accepted in Hs.
    remember (Re.match_here [Re.Many rest_class; Re.Eol] false t) as r eqn:Er.
    clear Er. cbn [grammar_valid].
    destruct (grammar_first c) eqn:Hc; cbn [andb].
    + destruct r as [r|].
      * split; [intros _|reflexivity].
        destruct (proj1 Hs ltac:(discriminate)) as [H | [t' [-> H]]];
          [now left|right].
        exists (String c t'). simpl. now rewrite Hc.
      * split; [discriminate|]. intros H. exfalso. apply (proj2 Hs); [|reflexivity].
        destruct H as [H | [s' [E H]]]; [now left|right].
        destruct s' as [|c' t']; simpl in E.
        -- discriminate H.
        -- injection E as <- ->. simpl in H. rewrite Hc in H. now exists t'.
    + split; [discriminate|].
      intros [H | [s' [E H]]]; [discriminate|].
      destruct s' as [|c' t']; simpl in E; [discriminate H|].
      injection E as <- ->. simpl in H. now rewrite Hc in H.
Qed.

(** The grammar accepts ["foo.bar_1:2$-3"]. *)
Example grammar_accepts_sample :
  Re.matches _COMMAND_PATTERN "foo.bar_1:2$-3" = true
  /\ grammar_valid "foo.bar_1:2$-3" = true.
Proof. split; reflexivity. Qed.

Lemma all_chars_app (p : ascii -> bool) (s t : string) :
  all_chars p (s ++ t) = all_chars p s && all_chars p t.
Proof.
  induction s as [|c s IH]; simpl; [reflexivity|].
  now rewrite IH, andb_assoc.
Qed.

Lemma grammar_valid_all_rest (s : string) :
  grammar_valid s = true -> all_chars grammar_rest s = true.
Proof.
  destruct s as [|c s]; [discriminate|]. simpl.
  intros H. apply andb_true_iff in H as [Hc Hs]. rewrite Hs, andb_true_r.
  unfold grammar_first in Hc. unfold grammar_rest.
  apply orb_true_iff in Hc as [Hc|Hc]; [now rewrite Hc|].
  destruct c as [[] [] [] [] [] [] [] []]; try discriminate Hc;
    apply orb_true_r.
Qed.

(** No accepted string contains a character outside the grammar other
    than the final line feed; in particular none contains [&] or [*]. *)
Lemma accepted_chars (s : string) (c : ascii) :
  accepted s -> contains_char c s = true -> grammar_rest c = true \/ c = LF.
Proof.
  assert (Hin : forall t, all_chars grammar_rest t = true ->
                          contains_char c t = true -> grammar_rest c = true).
  { induction t as [|a t IH]; cbn [all_chars contains_char]; [discriminate|].
    intros H Hc. apply andb_true_iff in H as [Ha Ht].
    apply orb_true_iff in Hc as [Hc|Hc]; [|now apply IH].
    apply Ascii.eqb_eq in Hc. now subst. }
  intros [H | [s' [-> H]]] Hc.
  - left. apply (Hin s); [now apply grammar_valid_all_rest|assumption].
  - assert (Hs : contains_char c s' = true \/ c = LF).
    { clear H. induction s' as [|a s' IH];
        cbn [contains_char append] in Hc |- *.
      - rewrite orb_false_r in Hc. apply Ascii.eqb_eq in Hc.
        right. now symmetry.
      - apply orb_true_iff in Hc as [Hc|Hc]; [left; now rewrite Hc|].
        destruct (IH Hc) as [IH'|IH']; [left|now right].
        rewrite IH'. apply orb_true_r. }
    destruct Hs as [Hs|Hs]; [left|now right].
    apply (Hin s'); [now apply grammar_valid_all_rest|assumption].
Qed.

Lemma ampersand_or_star_rejected (s : string) :
  contains_char "&" s = true \/ contains_char "*" s = true ->
  Re.matches _COMMAND_PATTERN s = false.
Proof.
  intros H. destruct (Re.matches _COMMAND_PATTERN s) eqn:E; [|reflexivity].
  apply command_pattern_accepts in E.
  destruct H as [H|H]; destruct (accepted_chars s _ E H) as [F|F]; discriminate F.
Qed.

(** Whatever begins with [/] requires a wrapper. *)
Lemma absolute_requires_wrapper (self : Command) :
  wrapped_command self = None ->
  startswith (command self) "/" = true ->
  requires_wrapper self = true.
Proof. intros Hw H. unfold requires_wrapper. now rewrite Hw, H. Qed.

(** With no wrapped command recorded, a wrapper is required exactly for
    the absolute strings and those the pattern rejects; the pattern accepts
    the grammar and the grammar followed by a line feed. *)
Lemma requires_wrapper_spec (self : Command) :
  wrapped_command self = None ->
  (requires_wrapper self = false <->
   startswith (command self) "/" = false /\ accepted (command self)).
Proof.
  intros Hw. unfold requires_wrapper. rewrite Hw.
  rewrite orb_false_iff, negb_false_iff. now rewrite command_pattern_accepts.
Qed.

(** C1, at the input where the code departs from the grammar: the command
    ["a\n"] has a character outside the grammar, so the claim asks for a
    wrapper, but [_COMMAND_PATTERN] closes with [$], which also matches
    before a final line feed, and [requires_wrapper] answers [False]. *)
Theorem C1_trailing_newline_not_wrapped :
  let self := Command_init "app" "command" (String "a" (String LF "")) in
  wrapped_command self = None
  /\ startswith (command self) "/" = false
  /\ grammar_valid (command self) = false
  /\ requires_wrapper self = false.
Proof. repeat split. Qed.

(* ================================================================= *)
(** ** The executable locator *)

Lemma find_first_match {A} (ok : A -> bool) (l : list A) (r : A) :
  find ok l = Some r -> first_match ok l r.
Proof.
  induction l as [|x l IH]; simpl; [discriminate|].
  destruct (ok x) eqn:Hx.
  - intros [= ->]. exists [], l. repeat split; [assumption | intros ? []].
  - intros H. destruct (IH H) as (before & after & -> & Hr & Hb).
    exists (x :: before), after. repeat split; [assumption|].
    intros y [<- | Hy]; [assumption | now apply Hb].
Qed.

Lemma find_none_match {A} (ok : A -> bool) (l : list A) :
  find ok l = None <-> none_match ok l.
Proof.
  split.
  - intros H x Hx. exact (find_none ok l H x Hx).
  - intros H. induction l as [|x l IH]; simpl; [reflexivity|].
    rewrite (H x (or_introl eq_refl)). apply IH.
    intros y Hy. apply H. now right.
Qed.

Lemma first_match_find {A} (ok : A -> bool) (l : list A) (r : A) :
  first_match ok l r -> find ok l = Some r.
Proof.
  intros (before & after & -> & Hr & Hb).
  induction before as [|x before IH]; simpl.
  - now rewrite Hr.
  - rewrite (Hb x (or_introl eq_refl)). apply IH.
    intros y Hy. apply Hb. now right.
Qed.

(** The locator answers as [located] says, and nothing else does. *)
Lemma located_sound (w : World) (command prime_dir : string) :
  located w command prime_dir (_find_executable w command prime_dir).
Proof.
  unfold _find_executable.
  fold (bin_candidates w command prime_dir).
  fold (walk_candidates w command prime_dir).
  destruct (find _ (bin_candidates w command prime_dir)) as [b|] eqn:Hb.
  - apply located_bin. now apply find_first_match.
  - apply find_none_match in Hb.
    destruct (find _ (walk_candidates w command prime_dir)) as [f|] eqn:Hf.
    + apply located_walk; [assumption | now apply find_first_match].
    + apply located_host; [assumption | now apply find_none_match].
Qed.

Lemma located_unique (w : World) (command prime_dir : string) (r : option string) :
  located w command prime_dir r -> r = _find_executable w command prime_dir.
Proof.
  unfold _find_executable.
  fold (bin_candidates w command prime_dir).
  fold (walk_candidates w command prime_dir).
  intros [found H | found Hn H | Hn Hm].
  - now rewrite (first_match_find _ _ _ H).
  - apply find_none_match in Hn. rewrite Hn.
    now rewrite (first_match_find _ _ _ H).
  - apply find_none_match in Hn. apply find_none_match in Hm.
    now rewrite Hn, Hm.
Qed.

(** The walk of a directory: the directory, then the walks of its entries
    in their order. *)
Lemma walk_node_dir (top : string) (es : list (string * node)) :
  walk_node top (Dir es)
  = top :: flat_map (fun e => walk_node (os_path_join top (fst e)) (snd e)) es.
Proof.
  cbn [walk_node]. f_equal.
  induction es as [|[name ch] es IH]; [reflexivity|].
  cbn [flat_map fst snd]. rewrite <- IH. now destruct ch.
Qed.

(** The walk is full: it yields the path of every directory a chain of
    entries leads to, at any depth. *)
Lemma walk_complete (n : node) (sub : list string) :
  dir_below n sub ->
  forall top, In (subdir_path top sub) (walk_node top n).
Proof.
  induction 1 as [es | es name ch sub Hin Hb IH]; intros top.
  - rewrite walk_node_dir. now left.
  - rewrite walk_node_dir. right. apply in_flat_map.
    exists (name, ch). split; [assumption|]. apply (IH (os_path_join top name)).
Qed.

(** And it yields nothing else. *)
Lemma walk_sound (n : node) :
  forall top p,
    In p (walk_node top n) ->
    exists sub, dir_below n sub /\ p = subdir_path top sub.
Proof.
  induction n as [mode content | es IH] using node_induction; intros top p Hp.
  - destruct Hp.
  - rewrite walk_node_dir in Hp. destruct Hp as [<- | Hp].
    + exists []. split; [constructor | reflexivity].
    + apply in_flat_map in Hp. destruct Hp as ([name ch] & Hin & Hp).
      rewrite Forall_forall in IH.
      destruct (IH (name, ch) Hin _ _ Hp) as (sub & Hb & ->).
      exists (name :: sub). split; [|reflexivity].
      now apply (below_entry es name ch sub).
Qed.

Lemma find_entry_in (name : string) (es : list (string * node)) (ch : node) :
  find_entry name es = Some ch -> In (name, ch) es.
Proof.
  induction es as [|[n x] es IH]; cbn [find_entry]; [discriminate|].
  destruct (String.eqb_spec n name) as [-> | Hne].
  - unfold str_eqb. rewrite String.eqb_refl. intros [= ->]. now left.
  - unfold str_eqb. rewrite (proj2 (String.eqb_neq n name) Hne).
    intros H. right. now apply IH.
Qed.

(** A directory that a path of names leads to is at the end of a chain. *)
Lemma get_dir_below (sub : list string) :
  forall n es, get n sub = Some (Dir es) -> dir_below n sub.
Proof.
  induction sub as [|d sub IH]; intros n es H.
  - cbn [get] in H. injection H as ->. constructor.
  - destruct n as [|es0]; [discriminate|]. cbn [get] in H.
    destruct (find_entry d es0) as [ch|] eqn:Hd; [|discriminate].
    apply (below_entry es0 d ch sub); [now apply find_entry_in|].
    now apply (IH ch es).
Qed.

Lemma os_walk_spec (w : World) (top p : string) :
  In p (os_walk w top) <->
  exists n sub, lookup w top = Some n /\ dir_below n sub /\ p = subdir_path top sub.
Proof.
  unfold os_walk. destruct (lookup w top) as [n|]; split.
  - intros H. destruct (walk_sound n top p H) as (sub & Hb & ->).
    now exists n, sub.
  - intros (n' & sub & [= <-] & Hb & ->). now apply walk_complete.
  - intros [].
  - intros (n & sub & H & _). discriminate.
Qed.

Lemma which_bare_name (w : World) (command : string) :
  contains_char SEP command = false ->
  search_path w <> "" ->
  shutil_which w command
  = find (_access_check w)
         (map (fun dir => os_path_join dir command)
              (str_split ":" (search_path w))).
Proof.
  intros Hc Hp. unfold shutil_which. rewrite Hc. fold (search_path w).
  destruct (search_path w); [now elim Hp | reflexivity].
Qed.

(** C3.  The locator searches, in this order and with the first match
    winning, the known binary directories in the order given, then the
    directories of a recursive walk of the staged root, then the host's
    search path; it answers with absence exactly when all three fail.
    The walk is full: its candidates are [<subdir>/<name>] for exactly the
    directories a chain of entries leads to from the staged root, the root
    itself included and at any depth, so every directory that a path of
    names below the root resolves to is tested.  It goes top-down: a
    directory comes first, then the walks of its entries in their order.
    A candidate is valid when it names a regular file with an execute
    bit.  For a bare name the host search goes through the directories of
    the search path in order. *)
Theorem C3_find_executable_order (w : World) (command prime_dir : string) :
  located w command prime_dir (_find_executable w command prime_dir)
  /\ (forall r, located w command prime_dir r ->
                r = _find_executable w command prime_dir)
  /\ (_find_executable w command prime_dir = None <->
      none_match (_executable_is_valid w) (bin_candidates w command prime_dir)
      /\ none_match (_executable_is_valid w) (walk_candidates w command prime_dir)
      /\ shutil_which w command = None)
  /\ (forall candidate,
         In candidate (walk_candidates w command prime_dir) <->
         exists n sub,
           lookup w prime_dir = Some n
           /\ dir_below n sub
           /\ candidate = os_path_join (subdir_path prime_dir sub) command)
  /\ (forall n sub es,
         lookup w prime_dir = Some n ->
         get n sub = Some (Dir es) ->
         In (os_path_join (subdir_path prime_dir sub) command)
            (walk_candidates w command prime_dir))
  /\ (_find_executable w command prime_dir = None ->
      forall n sub es,
        lookup w prime_dir = Some n ->
        get n sub = Some (Dir es) ->
        _executable_is_valid
          w (os_path_join (subdir_path prime_dir sub) command) = false)
  /\ (forall path,
         _executable_is_valid w path = true <->
         exists mode content,
           lookup w path = Some (File mode content)
           /\ has_exec_bit mode = true)
  /\ (forall es,
         lookup w prime_dir = Some (Dir es) ->
         os_walk w prime_dir
         = prime_dir
             :: flat_map (fun e => walk_node (os_path_join prime_dir (fst e))
                                             (snd e)) es)
  /\ (forall top es,
         walk_node top (Dir es)
         = top :: flat_map (fun e => walk_node (os_path_join top (fst e))
                                               (snd e)) es)
  /\ (contains_char SEP command = false ->
      search_path w <> "" ->
      (forall found,
          shutil_which w command = Some found <->
          first_match (_access_check w)
                      (map (fun dir => os_path_join dir command)
                           (str_split ":" (search_path w)))
                      found)
      /\ (shutil_which w command = None <->
          none_match (_access_check w)
                     (map (fun dir => os_path_join dir command)
                          (str_split ":" (search_path w))))).
Proof.
  assert (Hiff : _find_executable w command prime_dir = None <->
                 none_match (_executable_is_valid w)
                            (bin_candidates w command prime_dir)
                 /\ none_match (_executable_is_valid w)
                               (walk_candidates w command prime_dir)
                 /\ shutil_which w command = None).
  { unfold _find_executable.
    fold (bin_candidates w command prime_dir).
    fold (walk_candidates w command prime_dir).
    rewrite <- !find_none_match.
    destruct (find _ (bin_candidates w command prime_dir)) as [b|].
    - split; [discriminate | intros [H _]; discriminate].
    - destruct (find _ (walk_candidates w command prime_dir)) as [f|].
      + split; [discriminate | intros (_ & H & _); discriminate].
      + tauto. }
  assert (Hwalk : forall candidate,
             In candidate (walk_candidates w command prime_dir) <->
             exists n sub,
               lookup w prime_dir = Some n
               /\ dir_below n sub
               /\ candidate = os_path_join (subdir_path prime_dir sub) command).
  { intros candidate. unfold walk_candidates. rewrite in_map_iff. split.
    - intros (root & <- & Hin). apply os_walk_spec in Hin.
      destruct Hin as (n & sub & Hl & Hb & ->). now exists n, sub.
    - intros (n & sub & Hl & Hb & ->). exists (subdir_path prime_dir sub).
      split; [reflexivity|]. apply os_walk_spec. now exists n, sub. }
  assert (Hget : forall n sub es,
             lookup w prime_dir = Some n ->
             get n sub = Some (Dir es) ->
             In (os_path_join (subdir_path prime_dir sub) command)
                (walk_candidates w command prime_dir)).
  { intros n sub es Hl Hg. apply Hwalk. exists n, sub.
    split; [assumption|]. split; [|reflexivity].
    now apply (get_dir_below sub n es). }
  split; [apply located_sound|]. split; [apply located_unique|].
  split; [exact Hiff|]. split; [exact Hwalk|]. split; [exact Hget|].
  split; [|split; [|split; [|split; [exact walk_node_dir|]]]].
  - intros Hnone n sub es Hl Hg. apply Hiff in Hnone.
    destruct Hnone as (_ & Hw & _). apply Hw. now apply (Hget n sub es).
  - intros path.
    unfold _executable_is_valid, os_path_exists, os_path_isfile, exec_bits_set.
    destruct (lookup w path) as [[mode content|es]|]; cbn [andb]; split;
      try discriminate.
    + intros H. now exists mode, content.
    + now intros (m & c & [= <- <-] & H).
    + intros (m & c & H & _). discriminate.
    + intros (m & c & H & _). discriminate.
  - intros es Hl. unfold os_walk. rewrite Hl. apply walk_node_dir.
  - intros Hc Hp. rewrite (which_bare_name w command Hc Hp). split.
    + intros found. split; [apply find_first_match | apply first_match_find].
    + apply find_none_match.
Qed.

Lemma C3_find_executable_order_witness :
  In "/prime/opt/x/tool" (walk_candidates sample_world "tool" "/prime")
  /\ _find_executable sample_world "tool" "/prime" = Some "/prime/opt/x/tool".
Proof.
  split; [|reflexivity].
  destruct (C3_find_executable_order sample_world "tool" "/prime")
    as (_ & _ & _ & _ & Hget & _).
  exact (Hget _ ["opt"; "x"] [("tool", File 493 "ELF")] eq_refl eq_refl).
Defined.

(** The three strategies on the sample installation. *)
Example locate_in_bin :
  _find_executable sample_world "foo" "/prime" = Some "/prime/bin/foo".
Proof. reflexivity. Qed.

Example locate_by_walk :
  _find_executable sample_world "tool" "/prime" = Some "/prime/opt/x/tool".
Proof. reflexivity. Qed.

Example locate_on_host :
  _find_executable sample_world "widget-lang" "/prime"
  = Some "/usr/bin/widget-lang".
Proof. reflexivity. Qed.

Example locate_nothing :
  _find_executable sample_world "nope" "/prime" = None.
Proof. reflexivity. Qed.

(* ================================================================= *)
(** ** The path resolver *)

Lemma prefix_app (p s : string) : String.prefix p (p ++ s) = true.
Proof.
  induction p as [|a p IH]; simpl; [now destruct s|].
  destruct (ascii_dec a a) as [_|N]; [assumption | now elim N].
Qed.

Lemma substring_all (s : string) : String.substring 0 (String.length s) s = s.
Proof. induction s as [|a s IH]; simpl; [reflexivity | now rewrite IH]. Qed.

Lemma substring_skip (p s : string) (n : nat) :
  String.substring (String.length p) n (p ++ s) = String.substring 0 n s.
Proof. induction p as [|a p IH]; simpl; [reflexivity | apply IH]. Qed.

Lemma length_app (p s : string) :
  String.length (p ++ s) = String.length p + String.length s.
Proof. induction p as [|a p IH]; simpl; [reflexivity | now rewrite IH]. Qed.

Lemma re_sub_leading_prefix (p s : string) : re_sub_leading p (p ++ s) = s.
Proof.
  unfold re_sub_leading, startswith. rewrite prefix_app, substring_skip.
  rewrite length_app. replace (_ + _ - _) with (String.length s) by lia.
  apply substring_all.
Qed.

Lemma re_sub_leading_other (p s : string) :
  startswith s p = false -> re_sub_leading p s = s.
Proof. intros H. unfold re_sub_leading. now rewrite H. Qed.

(** What [_strip_command_leaders] removes: one leading [/], then one
    leading [$SNAP/], and nothing else. *)
Lemma strip_command_leaders_spec :
  (forall x, _strip_command_leaders ("/" ++ "$SNAP/" ++ x) = x)
  /\ (forall x, _strip_command_leaders ("$SNAP/" ++ x) = x)
  /\ (forall x, startswith x "$SNAP/" = false ->
                _strip_command_leaders ("/" ++ x) = x)
  /\ (forall x, startswith x "/" = false -> startswith x "$SNAP/" = false ->
                _strip_command_leaders x = x).
Proof.
  unfold _strip_command_leaders. repeat split; intros x.
  - now rewrite (re_sub_leading_prefix "/"), re_sub_leading_prefix.
  - rewrite (re_sub_leading_other "/") by reflexivity.
    apply re_sub_leading_prefix.
  - intros H. rewrite (re_sub_leading_prefix "/").
    now apply re_sub_leading_other.
  - intros H1 H2. rewrite (re_sub_leading_other "/") by assumption.
    now apply re_sub_leading_other.
Qed.

(** Nothing lives at the empty path. *)
Lemma lookup_empty (w : World) : lookup w "" = None.
Proof. reflexivity. Qed.

Lemma valid_nonempty (w : World) (path : string) :
  _executable_is_valid w path = true -> path <> "".
Proof. intros H ->. discriminate H. Qed.

Lemma access_check_nonempty (w : World) (path : string) :
  _access_check w path = true -> path <> "".
Proof. intros H ->. discriminate H. Qed.

Lemma which_nonempty (w : World) (cmd found : string) :
  shutil_which w cmd = Some found -> found <> "".
Proof.
  unfold shutil_which. destruct (contains_char SEP cmd).
  - destruct (_access_check w cmd) eqn:H; [|discriminate].
    intros [= <-]. now apply (access_check_nonempty w).
  - destruct (negb _); [discriminate|]. intros H.
    apply find_some in H as [_ H]. now apply (access_check_nonempty w).
Qed.

Lemma find_executable_nonempty (w : World) (command prime_dir found : string) :
  _find_executable w command prime_dir = Some found -> found <> "".
Proof.
  unfold _find_executable.
  destruct (find _ (map _ (get_bin_paths w prime_dir))) as [b|] eqn:Hb.
  - intros [= <-]. apply find_some in Hb as [_ Hb].
    now apply (valid_nonempty w).
  - destruct (find _ (map _ (os_walk w prime_dir))) as [f|] eqn:Hf.
    + intros [= <-]. apply find_some in Hf as [_ Hf].
      now apply (valid_nonempty w).
    + apply which_nonempty.
Qed.

Lemma str_eqb_empty (s : string) : s <> "" -> str_eqb s "" = false.
Proof. intros H. unfold str_eqb. now apply String.eqb_neq. Qed.

(** [os.path.relpath] raises for the empty path only. *)
Lemma relpath_total (cwd path start : string) :
  path <> "" -> exists relative, os_path_relpath cwd path start = Ok relative.
Proof.
  intros H. unfold os_path_relpath. rewrite (str_eqb_empty _ H).
  cbv zeta. destruct (_ ++ _)%list; eauto.
Qed.

Lemma resolved_sound (w : World) (command prime_dir : string) :
  resolved w (_strip_command_leaders command) prime_dir
           (_resolve_snap_command_path w command prime_dir).
Proof.
  unfold _resolve_snap_command_path. cbv zeta.
  set (name := _strip_command_leaders command).
  destruct (os_path_exists w (os_path_join prime_dir name)) eqn:He; simpl.
  - now apply resolved_literal.
  - destruct (_find_executable w name prime_dir) as [found|] eqn:Hf.
    + destruct (startswith found prime_dir) eqn:Hs.
      * destruct (relpath_total (getcwd w) found prime_dir
                    (find_executable_nonempty _ _ _ _ Hf)) as [rel Hr].
        rewrite Hr. now apply (resolved_staged w name prime_dir found).
      * now apply resolved_host.
    + now apply resolved_absent.
Qed.

Lemma resolved_unique (w : World) (command prime_dir : string)
      (r : result (option string * bool)) :
  resolved w (_strip_command_leaders command) prime_dir r ->
  r = _resolve_snap_command_path w command prime_dir.
Proof.
  unfold _resolve_snap_command_path. cbv zeta.
  intros [He | He Hf | found rel He Hf Hs Hr | found He Hf Hs];
    rewrite He; simpl; [reflexivity | | | ]; rewrite Hf;
    [reflexivity | | ]; rewrite Hs; [now rewrite Hr | reflexivity].
Qed.

(** The resolver in the terms of its own tests: it strips one leading
    [/] and one leading [$SNAP/]; a stripped name for which
    [os.path.join(prime_dir, name)] exists is returned as it is, with no
    search; otherwise the locator is asked, and the answer is absence, the
    result of [os.path.relpath] when the text of the match begins with the
    text of the root, or the match itself, each with the search flag
    set. *)
Lemma resolve_snap_command_path_cases (w : World) (command prime_dir : string) :
  resolved w (_strip_command_leaders command) prime_dir
           (_resolve_snap_command_path w command prime_dir)
  /\ (forall r, resolved w (_strip_command_leaders command) prime_dir r ->
                r = _resolve_snap_command_path w command prime_dir)
  /\ (forall x, _strip_command_leaders ("/" ++ "$SNAP/" ++ x) = x)
  /\ (forall x, _strip_command_leaders ("$SNAP/" ++ x) = x)
  /\ (forall x, startswith x "$SNAP/" = false ->
                _strip_command_leaders ("/" ++ x) = x)
  /\ (forall x, startswith x "/" = false -> startswith x "$SNAP/" = false ->
                _strip_command_leaders x = x).
Proof.
  split; [apply resolved_sound|]. split; [apply resolved_unique|].
  apply strip_command_leaders_spec.
Qed.

(** C2, at an input where the code departs from the claim.  The host
    has the directory [/prime-tools/bin] on its search path and the staged
    root is [/prime].  The locator finds [hosttool] on the host, outside
    the staged root; the resolver tests whether the text of the match
    begins with the text of the root, takes the match for one below the
    root and answers with a path relative to the root that climbs out of
    it, where the claim asks for the absolute host path.  [prime_command]
    accepts the text and returns it as the command. *)
Theorem C2_match_outside_root_made_relative :
  let w := prefix_world in
  let found := "/prime-tools/bin/hosttool" in
  let answer := "../prime-tools/bin/hosttool" in
  os_path_exists w "/prime/hosttool" = false
  /\ _find_executable w "hosttool" "/prime" = Some found
  /\ resolve w "/prime" = Some ["prime"]
  /\ resolve w found = Some ["prime-tools"; "bin"; "hosttool"]
  /\ (forall below,
         ["prime-tools"; "bin"; "hosttool"] <> (["prime"] ++ below)%list)
  /\ startswith found "/prime" = true
  /\ _resolve_snap_command_path w "hosttool" "/prime" = Ok (Some answer, true)
  /\ _resolve_snap_command_path w "hosttool" "/prime" <> Ok (Some found, true)
  /\ prime_command w false true "/prime"
                   (Command_init "app" "command" "hosttool") []
     = (Command_init "app" "command" answer,
        Ok answer,
        [W_command_resolved "hosttool" answer; W_changed "hosttool" answer]).
Proof.
  cbv zeta. repeat split; try reflexivity; try discriminate.
Qed.

Example resolve_literal :
  _resolve_snap_command_path sample_world "/$SNAP/bin/foo" "/prime"
  = Ok (Some "bin/foo", false).
Proof. reflexivity. Qed.

Example resolve_staged :
  _resolve_snap_command_path sample_world "tool" "/prime"
  = Ok (Some "opt/x/tool", true).
Proof. reflexivity. Qed.

Example resolve_host :
  _resolve_snap_command_path sample_world "widget-lang" "/prime"
  = Ok (Some "/usr/bin/widget-lang", true).
Proof. reflexivity. Qed.

Example resolve_absent :
  _resolve_snap_command_path sample_world "nope" "/prime" = Ok (None, true).
Proof. reflexivity. Qed.

(* ================================================================= *)
(** ** Commands without a first token *)

Lemma shlex_space_cases (c : ascii) :
  is_shlex_space c = true -> c = " "%char \/ c = TAB \/ c = CR \/ c = LF.
Proof.
  unfold is_shlex_space, is_member, Shlex.whitespace.
  cbn [list_ascii_of_string existsb]. rewrite !orb_true_iff.
  intros [H | [H | [H | [H | H]]]]; try discriminate H;
    apply Ascii.eqb_eq in H; tauto.
Qed.

Lemma lex_blank (posix : bool) (s : string) :
  all_chars is_shlex_space s = true ->
  Shlex.lex posix Shlex.SSpace Shlex.SSpace false "" s = Ok [].
Proof.
  induction s as [|c s IH]; cbn [all_chars Shlex.lex].
  - intros _. unfold Shlex.emit. cbn. now destruct posix.
  - intros H. apply andb_true_iff in H as [Hc Hs].
    unfold is_shlex_space in Hc. rewrite Hc. cbn [Shlex.nonempty orb].
    rewrite andb_false_r. now apply IH.
Qed.

Lemma split_blank (posix : bool) (s : string) :
  all_chars is_shlex_space s = true -> Shlex.split s posix = Ok [].
Proof. apply lex_blank. Qed.

Lemma blank_not_prefixed (s : string) :
  all_chars is_shlex_space s = true ->
  startswith s "/" = false /\ startswith s "$SNAP/" = false.
Proof.
  destruct s as [|c s]; [now split|]. cbn [all_chars].
  intros H. apply andb_true_iff in H as [Hc _].
  destruct (shlex_space_cases c Hc) as [-> | [-> | [-> | ->]]]; now split.
Qed.

Lemma massage_no_token (w : World) (command prime_dir : string)
      (log : list warning) :
  startswith command "/" = false ->
  Shlex.split (re_sub_leading "$SNAP/" command) false = Ok [] ->
  _massage_command w command prime_dir log = (Raise IndexError, log).
Proof.
  intros Ha Hs. unfold _massage_command. rewrite Ha.
  unfold bind, lift, _split_command. now rewrite Hs.
Qed.

Lemma massage_blank (w : World) (command prime_dir : string)
      (log : list warning) :
  all_chars is_shlex_space command = true ->
  _massage_command w command prime_dir log = (Raise IndexError, log).
Proof.
  intros H. destruct (blank_not_prefixed command H) as [Ha Hp].
  apply massage_no_token; [assumption|].
  rewrite re_sub_leading_other by assumption. now apply split_blank.
Qed.

Lemma massage_ok_has_token (w : World) (command prime_dir text : string)
      (log log' : list warning) :
  _massage_command w command prime_dir log = (Ok text, log') ->
  startswith command "/" = true \/
  exists first rest,
    Shlex.split (re_sub_leading "$SNAP/" command) false = Ok (first :: rest).
Proof.
  unfold _massage_command. destruct (startswith command "/"); [now left|].
  intros H. right. unfold bind, lift, _split_command in H.
  destruct (Shlex.split _ false) as [[|first rest]|e];
    [discriminate H | eauto | discriminate H].
Qed.

Lemma prime_checks_ok_has_token (w : World) (can_use_wrapper : bool)
      (prime_dir : string) (self self' : Command) (text : string)
      (log log' : list warning) :
  prime_checks w can_use_wrapper prime_dir self log = (self', Ok text, log') ->
  requires_wrapper self = true \/
  exists first rest, Shlex.split (command self) true = Ok (first :: rest).
Proof.
  unfold prime_checks. destruct (requires_wrapper self); [now left|].
  intros H. right.
  destruct (Shlex.split _ true) as [[|first rest]|e];
    [discriminate H | eauto | discriminate H].
Qed.

(** C10.  The normaliser, for every input that is not absolute, and the
    branch of [prime_command] taken when no wrapper is required, index the
    first token of the split text unguarded: with no token the outcome is
    an [IndexError], neither of the module's own failures, and a result is
    only ever returned for a text with a first token.  The empty string and
    every string of white space have no token. *)
Theorem C10_unguarded_first_token (w : World) (prime_dir : string)
        (log : list warning) :
  (forall command,
      startswith command "/" = false ->
      Shlex.split (re_sub_leading "$SNAP/" command) false = Ok [] ->
      _massage_command w command prime_dir log = (Raise IndexError, log))
  /\ (forall raw,
         all_chars is_shlex_space raw = true ->
         _massage_command w raw prime_dir log = (Raise IndexError, log)
         /\ forall self can_use_wrapper,
             command self = raw ->
             prime_command w can_use_wrapper true prime_dir self log
             = (self, Raise IndexError, log))
  /\ (forall self can_use_wrapper,
         requires_wrapper self = false ->
         Shlex.split (command self) true = Ok [] ->
         prime_command w can_use_wrapper false prime_dir self log
         = (self, Raise IndexError, log))
  /\ (forall command text log',
         _massage_command w command prime_dir log = (Ok text, log') ->
         startswith command "/" = true \/
         exists first rest,
           Shlex.split (re_sub_leading "$SNAP/" command) false
           = Ok (first :: rest))
  /\ (forall self can_use_wrapper self' text log',
         prime_command w can_use_wrapper false prime_dir self log
         = (self', Ok text, log') ->
         requires_wrapper self = true \/
         exists first rest,
           Shlex.split (command self) true = Ok (first :: rest)).
Proof.
  split; [intros; now apply massage_no_token|].
  split.
  { intros raw H. split; [now apply massage_blank|].
    intros self cuw <-. unfold prime_command.
    now rewrite massage_blank. }
  split.
  { intros self cuw Hr Hs. unfold prime_command, prime_checks.
    now rewrite Hr, Hs. }
  split; [intros; eapply massage_ok_has_token; eassumption|].
  intros self cuw self' text log' H.
  eapply prime_checks_ok_has_token. exact H.
Qed.

(* ================================================================= *)
(** ** Normalisation as the identity *)

Lemma prefix_app_left (p a b : string) :
  String.prefix p a = true -> String.prefix p (a ++ b) = true.
Proof.
  revert a. induction p as [|c p IH]; intros a; [now destruct a, b|].
  destruct a as [|d a]; simpl; [discriminate|].
  destruct (ascii_dec c d); [apply IH | discriminate].
Qed.

Lemma startswith_first_token (p first : string) (rest : list string) :
  startswith (str_join " " (first :: rest)) p = false ->
  startswith first p = false.
Proof.
  unfold startswith. intros H.
  destruct (String.prefix p first) eqn:E; [|reflexivity].
  rewrite <- H. destruct rest as [|r rest]; [now symmetry|].
  cbn [str_join]. symmetry. now apply prefix_app_left.
Qed.

Lemma shebang_absent (w : World) (path : string) :
  without_directive w path ->
  os_path_exists w path = true /\ _get_shebang_from_file w path = Ok None.
Proof.
  intros (mode & content & Hl & Hd).
  unfold os_path_exists, _get_shebang_from_file, open_rb. rewrite Hl.
  split; [reflexivity|].
  destruct (read2 content) as [head rest]. cbn [fst] in Hd.
  unfold str_eqb. apply String.eqb_neq in Hd. now rewrite Hd.
Qed.

Lemma str_eqb_refl (s : string) : str_eqb s s = true.
Proof. apply String.eqb_refl. Qed.

Lemma massage_absolute (w : World) (text prime_dir : string)
      (log : list warning) :
  startswith text "/" = true ->
  _massage_command w text prime_dir log = (Ok text, log).
Proof. intros H. unfold _massage_command. now rewrite H. Qed.

Lemma massage_canonical (w : World) (text prime_dir : string)
      (log : list warning) :
  canonical w prime_dir text ->
  _massage_command w text prime_dir log = (Ok text, log).
Proof.
  intros (Ha & Hp & first & rest & Hs & Hj & Hd).
  assert (Hfa : startswith first "/" = false).
  { apply (startswith_first_token _ first rest). now rewrite Hj. }
  assert (Hfp : startswith first "$SNAP/" = false).
  { apply (startswith_first_token _ first rest). now rewrite Hj. }
  assert (Hstrip : _strip_command_leaders first = first).
  { now apply strip_command_leaders_spec. }
  destruct (shebang_absent w _ Hd) as [He Hg].
  unfold _massage_command. rewrite Ha.
  rewrite (re_sub_leading_other "$SNAP/") by assumption.
  unfold bind, lift, ret, _split_command. rewrite Hs.
  cbn [index0]. rewrite Hstrip, He, Hg.
  unfold _resolve_command_parts, bind, lift, ret. cbn [index0].
  unfold _resolve_snap_command_path. rewrite Hstrip, He.
  cbn [negb andb set0 app]. rewrite Hj, str_eqb_refl. reflexivity.
Qed.

(** C9.  Normalisation is the identity on every text that begins with [/]
    and on every already-canonical text; nothing is logged either. *)
Theorem C9_massage_identity (w : World) (text prime_dir : string)
        (log : list warning) :
  startswith text "/" = true \/ canonical w prime_dir text ->
  _massage_command w text prime_dir log = (Ok text, log).
Proof.
  intros [H | H]; [now apply massage_absolute | now apply massage_canonical].
Qed.

Lemma sample_canonical : canonical sample_world "/prime" "bin/foo --fast".
Proof.
  split; [reflexivity|]. split; [reflexivity|].
  exists "bin/foo", ["--fast"]. split; [reflexivity|]. split; [reflexivity|].
  exists 493%Z, "ELF". split; [reflexivity | discriminate].
Defined.

Lemma C9_massage_identity_witness :
  (startswith "bin/foo --fast" "/" = true
   \/ canonical sample_world "/prime" "bin/foo --fast")
  /\ _massage_command sample_world "bin/foo --fast" "/prime" []
     = (Ok "bin/foo --fast", []).
Proof.
  split; [right; exact sample_canonical|].
  apply (C9_massage_identity sample_world "bin/foo --fast" "/prime" []).
  right. exact sample_canonical.
Defined.

Lemma C10_unguarded_first_token_witness :
  let self := Command_init "app" "command" "  " in
  all_chars is_shlex_space "  " = true
  /\ requires_wrapper self = false
  /\ Shlex.split (command self) true = Ok []
  /\ _massage_command sample_world "  " "/prime" [] = (Raise IndexError, [])
  /\ prime_command sample_world true false "/prime" self []
     = (self, Raise IndexError, []).
Proof.
  intros self.
  pose proof (C10_unguarded_first_token sample_world "/prime" [])
    as (_ & Hblank & Hchecks & _).
  split; [reflexivity|]. split; [reflexivity|]. split; [reflexivity|].
  split.
  - apply (Hblank "  "). reflexivity.
  - apply (Hchecks self true); reflexivity.
Defined.

(* ================================================================= *)
(** ** Unresolved tokens *)

Lemma interpreter_unresolved (w : World) (shebang_parts command_parts : list string)
      (prime_dir interpreter : string) (others : list string)
      (search_required : bool) (log : list warning) :
  shebang_parts <> [] ->
  drop_env shebang_parts = interpreter :: others ->
  _resolve_snap_command_path w interpreter prime_dir
  = Ok (None, search_required) ->
  _resolve_interpreter_parts w shebang_parts command_parts prime_dir log
  = (Ok (interpreter :: others), (log ++ [W_interpreter_not_found])%list).
Proof.
  intros Hne Hd Hr. destruct shebang_parts as [|first rest]; [now elim Hne|].
  unfold _resolve_interpreter_parts, bind, lift, ret, logger_warning.
  cbn [index0 tl]. cbn [drop_env] in Hd.
  destruct (str_eqb first "/usr/bin/env"); rewrite Hd; cbn [index0];
    now rewrite Hr.
Qed.

Lemma command_unresolved (w : World) (first : string) (rest : list string)
      (interpreted_command : bool) (prime_dir : string)
      (search_required : bool) (log : list warning) :
  _resolve_snap_command_path w first prime_dir = Ok (None, search_required) ->
  _resolve_command_parts w (first :: rest) interpreted_command prime_dir log
  = (Raise (PrimedCommandNotFoundError first), log).
Proof.
  intros Hr. unfold _resolve_command_parts, bind, lift, raise.
  cbn [index0]. now rewrite Hr.
Qed.

Lemma command_resolved (w : World) (first resolved : string)
      (rest : list string) (interpreted_command : bool) (prime_dir : string)
      (search_required : bool) (log : list warning) :
  _resolve_snap_command_path w first prime_dir
  = Ok (Some resolved, search_required) ->
  _resolve_command_parts w (first :: rest) interpreted_command prime_dir log
  = (Ok (with_snap interpreted_command resolved :: rest),
     if search_required
     then (log ++ [W_command_resolved first resolved])%list else log).
Proof.
  intros Hr. unfold _resolve_command_parts, bind, lift, ret, logger_warning.
  cbn [index0]. rewrite Hr. now destruct search_required.
Qed.

(** [_massage_command] on a relative text, one stage at a time. *)
Lemma massage_stages (w : World) (text prime_dir : string)
      (shebang_parts command_parts : list string) (log : list warning) :
  startswith text "/" = false ->
  _split_command w (re_sub_leading "$SNAP/" text) prime_dir
  = Ok (shebang_parts, command_parts) ->
  _massage_command w text prime_dir log
  = (let interpreted_command :=
       match shebang_parts with [] => false | _ => true end in
     shebang_parts' <-
       interpreter_stage w shebang_parts command_parts prime_dir ;;
     command_parts' <-
       _resolve_command_parts w command_parts interpreted_command prime_dir ;;
     let massaged := str_join " " (shebang_parts' ++ command_parts') in
     (if negb (str_eqb massaged text) then
        (if startswith text "$SNAP/"
         then logger_warning (W_unneeded_snap text) else ret tt) ;;;
        (if interpreted_command
         then logger_warning (W_changed_for_interpreter text massaged)
         else logger_warning (W_changed text massaged))
      else ret tt) ;;;
     ret massaged) log.
Proof.
  intros Ha Hs. unfold _massage_command. rewrite Ha.
  unfold bind at 1. unfold lift at 1. rewrite Hs. reflexivity.
Qed.

Lemma massage_command_unresolved (w : World) (text prime_dir : string)
      (shebang_parts shebang_parts' : list string) (first : string)
      (rest : list string) (search_required : bool)
      (log log1 : list warning) :
  startswith text "/" = false ->
  _split_command w (re_sub_leading "$SNAP/" text) prime_dir
  = Ok (shebang_parts, first :: rest) ->
  interpreter_stage w shebang_parts (first :: rest) prime_dir log
  = (Ok shebang_parts', log1) ->
  _resolve_snap_command_path w first prime_dir = Ok (None, search_required) ->
  _massage_command w text prime_dir log
  = (Raise (PrimedCommandNotFoundError first), log1).
Proof.
  intros Ha Hs Hi Hr. rewrite (massage_stages _ _ _ _ _ _ Ha Hs).
  cbv zeta. unfold bind at 1. rewrite Hi.
  unfold bind at 1. now rewrite (command_unresolved _ _ _ _ _ _ _ Hr).
Qed.

Lemma massage_interpreter_unresolved (w : World) (text prime_dir : string)
      (shebang_parts : list string) (interpreter : string)
      (others : list string) (first : string) (rest : list string)
      (resolved : string) (flag flag' : bool) (log : list warning) :
  startswith text "/" = false ->
  _split_command w (re_sub_leading "$SNAP/" text) prime_dir
  = Ok (shebang_parts, first :: rest) ->
  shebang_parts <> [] ->
  drop_env shebang_parts = interpreter :: others ->
  _resolve_snap_command_path w interpreter prime_dir = Ok (None, flag) ->
  _resolve_snap_command_path w first prime_dir = Ok (Some resolved, flag') ->
  exists log',
    _massage_command w text prime_dir log
    = (Ok (str_join " " ((interpreter :: others)
                           ++ with_snap true resolved :: rest)), log')
    /\ In W_interpreter_not_found log'.
Proof.
  intros Ha Hs Hne Hd Hi Hr. rewrite (massage_stages _ _ _ _ _ _ Ha Hs).
  cbv zeta. unfold bind at 1.
  assert (Hstage : interpreter_stage w shebang_parts (first :: rest) prime_dir log
                   = (Ok (interpreter :: others),
                      (log ++ [W_interpreter_not_found])%list)).
  { unfold interpreter_stage. destruct shebang_parts; [now elim Hne|].
    now apply (interpreter_unresolved _ _ _ _ _ _ flag). }
  rewrite Hstage. destruct shebang_parts as [|s0 sh]; [now elim Hne|].
  unfold bind at 1. rewrite (command_resolved _ _ _ _ _ _ _ _ Hr).
  set (log1 := if flag' then _ else _).
  assert (Hin : In W_interpreter_not_found log1).
  { subst log1. destruct flag'; rewrite ?in_app_iff; simpl; tauto. }
  clearbody log1.
  set (text' := str_join " " _).
  unfold bind, ret, logger_warning.
  destruct (negb (str_eqb text' text)).
  - destruct (startswith text "$SNAP/"); eexists; split; try reflexivity;
      rewrite ?in_app_iff; tauto.
  - eexists; split; [reflexivity | assumption].
Qed.

(** C6.  Within normalisation of a relative text that splits into a
    shebang and a command: when the command token resolves to nothing, a
    [PrimedCommandNotFoundError] naming that token is raised and
    [prime_command] stops with it, leaving the object as it was; when the
    interpreter token resolves to nothing, a warning is logged, the token
    stays in place, and normalisation goes on to completion. *)
Theorem C6_unresolved_tokens (w : World) (text prime_dir : string)
        (shebang_parts : list string) (first : string) (rest : list string)
        (log : list warning) :
  startswith text "/" = false ->
  _split_command w (re_sub_leading "$SNAP/" text) prime_dir
  = Ok (shebang_parts, first :: rest) ->
  (forall shebang_parts' log1 flag,
      interpreter_stage w shebang_parts (first :: rest) prime_dir log
      = (Ok shebang_parts', log1) ->
      _resolve_snap_command_path w first prime_dir = Ok (None, flag) ->
      _massage_command w text prime_dir log
      = (Raise (PrimedCommandNotFoundError first), log1)
      /\ forall self can_use_wrapper,
          command self = text ->
          prime_command w can_use_wrapper true prime_dir self log
          = (self, Raise (PrimedCommandNotFoundError first), log1))
  /\ (forall interpreter others flag,
         shebang_parts <> [] ->
         drop_env shebang_parts = interpreter :: others ->
         _resolve_snap_command_path w interpreter prime_dir = Ok (None, flag) ->
         _resolve_interpreter_parts w shebang_parts (first :: rest) prime_dir log
         = (Ok (interpreter :: others), (log ++ [W_interpreter_not_found])%list)
         /\ forall resolved flag',
             _resolve_snap_command_path w first prime_dir
             = Ok (Some resolved, flag') ->
             exists log',
               _massage_command w text prime_dir log
               = (Ok (str_join " " ((interpreter :: others)
                                      ++ with_snap true resolved :: rest)),
                  log')
               /\ In W_interpreter_not_found log').
Proof.
  intros Ha Hs. split.
  - intros sh' log1 flag Hi Hr.
    pose proof (massage_command_unresolved _ _ _ _ _ _ _ _ _ _ Ha Hs Hi Hr)
      as Hm.
    split; [exact Hm|]. intros self cuw Hc. unfold prime_command.
    now rewrite Hc, Hm.
  - intros interpreter others flag Hne Hd Hi. split.
    + now apply (interpreter_unresolved _ _ _ _ _ _ flag).
    + intros resolved flag' Hr.
      now apply (massage_interpreter_unresolved
                   _ _ _ shebang_parts _ _ first _ _ flag flag').
Qed.

Lemma C6_unresolved_tokens_witness :
  (* an unknown interpreter: normalisation completes *)
  (startswith "bin/script" "/" = false
   /\ _split_command sample_world (re_sub_leading "$SNAP/" "bin/script") "/prime"
      = Ok (["/usr/bin/env"; "nolang"], ["bin/script"])
   /\ _resolve_snap_command_path sample_world "nolang" "/prime" = Ok (None, true)
   /\ exists log',
       _massage_command sample_world "bin/script" "/prime" []
       = (Ok "nolang $SNAP/bin/script", log')
       /\ In W_interpreter_not_found log')
  (* an unknown command: normalisation fails *)
  /\ (startswith "nope" "/" = false
      /\ _split_command sample_world (re_sub_leading "$SNAP/" "nope") "/prime"
         = Ok ([], ["nope"])
      /\ _resolve_snap_command_path sample_world "nope" "/prime" = Ok (None, true)
      /\ _massage_command sample_world "nope" "/prime" []
         = (Raise (PrimedCommandNotFoundError "nope"), [])).
Proof.
  split.
  - split; [reflexivity|]. split; [reflexivity|]. split; [reflexivity|].
    destruct (C6_unresolved_tokens sample_world "bin/script" "/prime"
                ["/usr/bin/env"; "nolang"] "bin/script" [] []
                eq_refl eq_refl) as [_ H].
    destruct (H "nolang" [] true ltac:(discriminate) eq_refl eq_refl)
      as [_ H'].
    exact (H' "bin/script" false eq_refl).
  - split; [reflexivity|]. split; [reflexivity|]. split; [reflexivity|].
    destruct (C6_unresolved_tokens sample_world "nope" "/prime"
                [] "nope" [] [] eq_refl eq_refl) as [H _].
    exact (proj1 (H [] [] true eq_refl eq_refl)).
Defined.

Example massage_unknown_interpreter :
  _massage_command sample_world "bin/script" "/prime" []
  = (Ok "nolang $SNAP/bin/script",
     [W_interpreter_not_found;
      W_changed_for_interpreter "bin/script" "nolang $SNAP/bin/script"]).
Proof. reflexivity. Qed.

(* ================================================================= *)
(** ** Finalisation *)

Lemma prime_command_after_massage (w : World)
      (can_use_wrapper massage_command : bool) (prime_dir : string)
      (self self1 : Command) (log log1 : list warning) :
  after_massage w massage_command prime_dir self log self1 log1 ->
  prime_command w can_use_wrapper massage_command prime_dir self log
  = prime_checks w can_use_wrapper prime_dir self1 log1.
Proof.
  unfold after_massage, prime_command. destruct massage_command.
  - intros (text & Hm & ->). now rewrite Hm.
  - now intros [-> ->].
Qed.







(* ================================================================= *)
(** ** An interpreter found on the host *)








(* ================================================================= *)
(** ** The command text across calls *)

Lemma requires_wrapper_text (self : Command) :
  requires_wrapper self
  = text_requires_wrapper match wrapped_command self with
                          | Some wrapped => wrapped
                          | None => command self
                          end.
Proof. reflexivity. Qed.

(** One completed call, seen from the object the first statement left. *)
Lemma prime_checks_ok (w : World) (can_use_wrapper : bool) (prime_dir : string)
      (self1 self' : Command) (text : string) (log1 log' : list warning) :
  prime_checks w can_use_wrapper prime_dir self1 log1 = (self', Ok text, log') ->
  (requires_wrapper self1 = true
   /\ self' = set_command (set_wrapped_command self1 (command self1))
                          (wrapped_command_name self1))
  \/ (requires_wrapper self1 = false /\ self' = self1).
Proof.
  unfold prime_checks. destruct (requires_wrapper self1).
  - destruct (negb can_use_wrapper); [discriminate|].
    intros [= <- _ _]. left. now split.
  - destruct (Shlex.split _ true) as [[|first rest]|e]; cbn [index0];
      try discriminate.
    destruct (negb _); [discriminate|]. intros [= <- _ _]. right. now split.
Qed.

Lemma prime_command_ok (w : World) (can_use_wrapper massage_command : bool)
      (prime_dir : string) (self self' : Command) (text : string)
      (log log' : list warning) :
  prime_command w can_use_wrapper massage_command prime_dir self log
  = (self', Ok text, log') ->
  exists self1,
    _app_name self1 = _app_name self
    /\ _command_name self1 = _command_name self
    /\ wrapped_command self1 = wrapped_command self
    /\ command self1
       = normalized_text w massage_command prime_dir self log (command self)
    /\ ((requires_wrapper self1 = true
         /\ self' = set_command (set_wrapped_command self1 (command self1))
                                (wrapped_command_name self1))
        \/ (requires_wrapper self1 = false /\ self' = self1)).
Proof.
  unfold prime_command, normalized_text. destruct massage_command.
  - destruct (_massage_command w (command self) prime_dir log)
      as [[massaged|e] log1]; [|discriminate].
    intros H. exists (set_command self massaged).
    repeat split; try reflexivity. now apply (prime_checks_ok _ _ _ _ _ _ _ _ H).
  - intros H. exists self.
    repeat split; try reflexivity. now apply (prime_checks_ok _ _ _ _ _ _ _ _ H).
Qed.

Lemma normalized_text_last (w : World) (can_use_wrapper massage_command : bool)
      (prime_dir : string) (self : Command) (log : list warning)
      (last : string) (self' : Command) (text : string) (log' : list warning) :
  prime_command w can_use_wrapper massage_command prime_dir self log
  = (self', Ok text, log') ->
  (massage_command = false -> command self = last) ->
  normalized_text w massage_command prime_dir self log (command self)
  = normalized_text w massage_command prime_dir self log last.
Proof.
  unfold normalized_text, prime_command. destruct massage_command.
  - destruct (_massage_command w (command self) prime_dir log)
      as [[massaged|e] log1]; [reflexivity | discriminate].
  - intros _ H. now apply H.
Qed.

(** C8, as the claim has it, fails, in two ways.  Finalise
    [/opt/tool/bin/run-it], write its wrapper, finalise again without
    normalising and once more with normalising: the second call records the
    wrapper name itself as the wrapped command, so the third finds no
    wrapper required and leaves the normalised text of the wrapper script
    in place.  And a call that fails counts: finalise
    [/opt/tool/bin/run-it], write its wrapper, finalise again with
    normalising and no wrapper allowed: the call raises
    [InvalidAppCommandFormatError] after it has stored the normalised text
    of the wrapper script, with the wrapped command still the one first
    recorded. *)
Lemma C8_counterexample :
  (let self0 := Command_init "app" "command" "/opt/tool/bin/run-it" in
   let self1 := object_of (prime_command sample_world true true "/prime" self0 []) in
   let w := fst (write_wrapper sample_world "/prime" self1) in
   let self2 := object_of (prime_command w true false "/prime" self1 []) in
   let out := prime_command w true true "/prime" self2 [] in
   reachable "app" "command" "/opt/tool/bin/run-it" (object_of out)
             "/bin/sh $SNAP/command-app.wrapper"
   /\ outcome_of out = Ok "/bin/sh $SNAP/command-app.wrapper"
   /\ wrapped_command (object_of out) = Some "command-app.wrapper"
   /\ wrapped_command_name (object_of out) = "command-app.wrapper"
   /\ command (object_of out) = "/bin/sh $SNAP/command-app.wrapper"
   /\ command (object_of out) <> wrapped_command_name (object_of out))
  /\ (let self0 := Command_init "app" "command" "/opt/tool/bin/run-it" in
      let out1 := prime_command sample_world true true "/prime" self0 [] in
      let self1 := object_of out1 in
      let w := fst (write_wrapper sample_world "/prime" self1) in
      let out := prime_command w false true "/prime" self1 [] in
      outcome_of out1 = Ok "command-app.wrapper"
      /\ wrapped_command self1 = Some "/opt/tool/bin/run-it"
      /\ command self1 = wrapped_command_name self1
      /\ outcome_of out
         = Raise (InvalidAppCommandFormatError
                    "/bin/sh $SNAP/command-app.wrapper" "app")
      /\ wrapped_command (object_of out) = Some "/opt/tool/bin/run-it"
      /\ text_requires_wrapper "/opt/tool/bin/run-it" = true
      /\ wrapped_command_name (object_of out) = "command-app.wrapper"
      /\ command (object_of out) = "/bin/sh $SNAP/command-app.wrapper"
      /\ command (object_of out) <> wrapped_command_name (object_of out)).
Proof.
  split.
  - intros self0 self1 w self2 out.
    split; [|repeat split; discriminate].
    assert (R1 : reachable "app" "command" "/opt/tool/bin/run-it" self1
                           "/opt/tool/bin/run-it").
    { exact (reach_prime "app" "command" "/opt/tool/bin/run-it" self0 _
               sample_world true true "/prime" [] self1 "command-app.wrapper"
               [W_snapd_wrapper "/opt/tool/bin/run-it"]
               (reach_init _ _ _) eq_refl). }
    assert (R2 : reachable "app" "command" "/opt/tool/bin/run-it" self2
                           "/opt/tool/bin/run-it").
    { exact (reach_prime "app" "command" "/opt/tool/bin/run-it" self1 _
               w true false "/prime" [] self2 "command-app.wrapper" []
               R1 eq_refl). }
    exact (reach_prime "app" "command" "/opt/tool/bin/run-it" self2 _
             w true true "/prime" [] (object_of out)
             "/bin/sh $SNAP/command-app.wrapper"
             [W_interpreter_not_found;
              W_changed_for_interpreter "command-app.wrapper"
                                        "/bin/sh $SNAP/command-app.wrapper"]
             R2 eq_refl).
  - cbv zeta. repeat split; discriminate.
Qed.

(** C8, amended.  After any number of completed [prime_command] calls:
    the names are those the object was built with; once [wrapped_command]
    holds a text that itself requires a wrapper, the command text is the
    wrapper file name; while [wrapped_command] is unset, the command text
    is the text most recently normalised.  A call that sets
    [wrapped_command] for the first time records a text that requires a
    wrapper. *)
Theorem C8_command_text_invariant (app_name command_name raw : string)
        (self : Command) (last : string) :
  reachable app_name command_name raw self last ->
  (_app_name self = app_name /\ _command_name self = command_name)
  /\ (forall wrapped,
         wrapped_command self = Some wrapped ->
         text_requires_wrapper wrapped = true ->
         command self = wrapped_command_name self)
  /\ (wrapped_command self = None -> command self = last)
  /\ (forall w can_use_wrapper massage_command prime_dir log self' text log'
             wrapped,
         wrapped_command self = None ->
         prime_command w can_use_wrapper massage_command prime_dir self log
         = (self', Ok text, log') ->
         wrapped_command self' = Some wrapped ->
         text_requires_wrapper wrapped = true
         /\ command self' = wrapped_command_name self').
Proof.
  intros R.
  assert (Hinv : (_app_name self = app_name /\ _command_name self = command_name)
                 /\ (forall wrapped,
                        wrapped_command self = Some wrapped ->
                        text_requires_wrapper wrapped = true ->
                        command self = wrapped_command_name self)
                 /\ (wrapped_command self = None -> command self = last)).
  { induction R as [|self last w cuw mc prime_dir log self' text log' R IH H].
    - repeat split; intros; discriminate.
    - destruct IH as ([Ha Hc] & Hw & Hn).
      destruct (prime_command_ok _ _ _ _ _ _ _ _ _ H)
        as (self1 & Ea & Ec & Ew & Et & [[Hr ->] | [Hr ->]]).
      + split; [split; cbn; congruence|]. split; [reflexivity|].
        cbn. discriminate.
      + split; [split; congruence|]. split.
        * intros wrapped Hsome Hreq. rewrite requires_wrapper_text in Hr.
          rewrite Hsome in Hr. congruence.
        * intros Hnone. rewrite Et.
          apply (normalized_text_last _ _ _ _ _ _ _ _ _ _ H).
          intros _. apply Hn. congruence. }
  destruct Hinv as (Hnames & Hw & Hn).
  split; [assumption|]. split; [assumption|]. split; [assumption|].
  intros w cuw mc prime_dir log self' text log' wrapped Hnone H Hsome.
  destruct (prime_command_ok _ _ _ _ _ _ _ _ _ H)
    as (self1 & Ea & Ec & Ew & Et & [[Hr ->] | [Hr ->]]).
  - cbn in Hsome. injection Hsome as <-.
    rewrite requires_wrapper_text in Hr. rewrite Ew, Hnone in Hr.
    split; [assumption | reflexivity].
  - congruence.
Qed.

Lemma C8_command_text_invariant_witness :
  let self0 := Command_init "app" "command" "/opt/tool/bin/run-it" in
  let self1 := object_of (prime_command sample_world true true "/prime" self0 []) in
  reachable "app" "command" "/opt/tool/bin/run-it" self1 "/opt/tool/bin/run-it"
  /\ wrapped_command self1 = Some "/opt/tool/bin/run-it"
  /\ command self1 = wrapped_command_name self1.
Proof.
  intros self0 self1.
  assert (R1 : reachable "app" "command" "/opt/tool/bin/run-it" self1
                         "/opt/tool/bin/run-it").
  { exact (reach_prime "app" "command" "/opt/tool/bin/run-it" self0 _
             sample_world true true "/prime" [] self1 "command-app.wrapper"
             [W_snapd_wrapper "/opt/tool/bin/run-it"]
             (reach_init _ _ _) eq_refl). }
  split; [exact R1|]. split; [reflexivity|].
  destruct (C8_command_text_invariant _ _ _ _ _ R1) as (_ & H & _).
  exact (H "/opt/tool/bin/run-it" eq_refl eq_refl).
Defined.

(* ================================================================= *)
(** ** Writing into the file tree *)

Lemma str_eqb_eq (a b : string) : str_eqb a b = true <-> a = b.
Proof. apply String.eqb_eq. Qed.

Lemma str_eqb_sym (a b : string) : str_eqb a b = str_eqb b a.
Proof. apply String.eqb_sym. Qed.

Lemma find_update_same (c : string) (f : node -> node)
      (absent es : list (string * node)) :
  find_entry c (update_entry c f absent es)
  = match find_entry c es with
    | Some ch => Some (f ch)
    | None => find_entry c absent
    end.
Proof.
  induction es as [|[name ch] es IH]; cbn [update_entry find_entry];
    [reflexivity|].
  destruct (str_eqb name c) eqn:E; cbn [find_entry]; rewrite E;
    [reflexivity | apply IH].
Qed.

Lemma find_update_other (c c' : string) (f : node -> node)
      (absent es : list (string * node)) (x : node) :
  c' <> c ->
  find_entry c' es = Some x ->
  find_entry c' (update_entry c f absent es) = Some x.
Proof.
  intros Hne. induction es as [|[name ch] es IH];
    cbn [update_entry find_entry]; [discriminate|].
  destruct (str_eqb name c) eqn:E; cbn [find_entry].
  - apply str_eqb_eq in E. subst name.
    destruct (str_eqb c c') eqn:E'; [|exact (fun H => H)].
    apply str_eqb_eq in E'. now elim Hne.
  - destruct (str_eqb name c'); [exact (fun H => H) | apply IH].
Qed.

Lemma get_app (n : node) (xs ys : list string) :
  get n (xs ++ ys)
  = match get n xs with Some m => get m ys | None => None end.
Proof.
  revert n. induction xs as [|x xs IH]; intros n; cbn [app get];
    [reflexivity|].
  destruct n as [|es]; [reflexivity|].
  destruct (find_entry x es); [apply IH | reflexivity].
Qed.

Lemma put_cons (es : list (string * node)) (c : string) (cs : list string)
      (new : node) :
  put (Dir es) (c :: cs) new
  = Dir (update_entry c (fun ch => put ch cs new)
                      (match cs with [] => [(c, new)] | _ => [] end) es).
Proof. reflexivity. Qed.

(** What was written is there. *)
Lemma get_put_same (n : node) (parent : list string) (name : string)
      (es : list (string * node)) (new : node) :
  get n parent = Some (Dir es) ->
  get (put n (parent ++ [name]) new) (parent ++ [name]) = Some new.
Proof.
  revert n. induction parent as [|c cs IH]; intros n.
  - cbn [get app]. intros [= ->]. rewrite put_cons. cbn [get].
    rewrite find_update_same.
    destruct (find_entry name es) as [[|]|]; [reflexivity..|].
    cbn [find_entry]. now rewrite (proj2 (str_eqb_eq name name) eq_refl).
  - cbn [get app]. destruct n as [|es0]; [discriminate|].
    destruct (find_entry c es0) as [ch|] eqn:Hc; [|discriminate].
    intros H. rewrite put_cons. cbn [get]. rewrite find_update_same, Hc.
    now apply IH.
Qed.

Lemma extends_refl (n : node) : extends n n.
Proof. intros q es H. exists es. now split. Qed.

(** Writing a regular file where there was one, or nothing, keeps every
    directory and every entry. *)
Lemma put_extends (target : list string) (mode : Z) (content : string) :
  forall n, file_or_absent n target ->
            extends n (put n target (File mode content)).
Proof.
  induction target as [|c cs IH]; intros n Hfa.
  - destruct Hfa as [H | (m & ct & H)]; [discriminate|].
    cbn [get] in H. injection H as ->.
    intros [|x q] es H; discriminate H.
  - destruct n as [|es0]; [apply extends_refl|].
    rewrite put_cons. intros q es Hq.
    destruct q as [|c' q].
    + cbn [get] in Hq |- *. injection Hq as <-.
      eexists. split; [reflexivity|]. intros c' Hc'.
      destruct (String.eqb_spec c' c) as [-> | Hne].
      * rewrite find_update_same.
        destruct (find_entry c es0); [discriminate | now elim Hc'].
      * destruct (find_entry c' es0) as [x|] eqn:Hx; [|now elim Hc'].
        now rewrite (find_update_other c c' _ _ _ x Hne Hx).
    + cbn [get] in Hq |- *.
      destruct (find_entry c' es0) as [ch'|] eqn:Hc'; [|discriminate].
      destruct (String.eqb_spec c' c) as [-> | Hne].
      * rewrite find_update_same, Hc'. apply IH; [|assumption].
        unfold file_or_absent in Hfa |- *. cbn [get] in Hfa.
        now rewrite Hc' in Hfa.
      * rewrite (find_update_other c c' _ _ _ ch' Hne Hc').
        exists es. now split.
Qed.

Lemma canon_extends (root root' : node) :
  extends root root' ->
  forall comps cur r,
    canon root cur comps = Some r -> canon root' cur comps = Some r.
Proof.
  intros Hx. induction comps as [|c cs IH]; intros cur r;
    cbn [canon]; [exact (fun H => H)|].
  destruct (get root (rev cur)) as [[|es]|] eqn:Hg; try discriminate.
  destruct (Hx _ _ Hg) as (es' & Hg' & Hes). rewrite Hg'.
  destruct (str_eqb c "" || str_eqb c "."); [apply IH|].
  destruct (str_eqb c ".."); [apply IH|].
  destruct (find_entry c es) eqn:Hf; [|discriminate].
  destruct (find_entry c es') eqn:Hf'; [apply IH|].
  elim (Hes c); [now rewrite Hf | assumption].
Qed.

Lemma canon_app (root : node) (xs ys : list string) :
  forall cur,
    canon root cur (xs ++ ys)
    = match canon root cur xs with
      | Some r => canon root (rev r) ys
      | None => None
      end.
Proof.
  induction xs as [|x xs IH]; intros cur; cbn [app canon].
  - now rewrite rev_involutive.
  - destruct (get root (rev cur)) as [[|es]|]; try reflexivity.
    destruct (str_eqb x "" || str_eqb x "."); [apply IH|].
    destruct (str_eqb x ".."); [apply IH|].
    destruct (find_entry x es); [apply IH | reflexivity].
Qed.

Lemma str_split_nonempty (sep : ascii) (s : string) : str_split sep s <> [].
Proof.
  destruct s as [|a s]; cbn [str_split]; [discriminate|].
  destruct (Ascii.eqb a sep); [discriminate|].
  destruct (str_split sep s); discriminate.
Qed.

Lemma walk_comps_nonempty (w : World) (path : string) : walk_comps w path <> [].
Proof.
  unfold walk_comps. destruct (startswith path "/").
  - apply str_split_nonempty.
  - intros H. apply app_eq_nil in H. now apply (str_split_nonempty SEP path).
Qed.

Lemma walk_comps_with_root (w : World) (root : node) (path : string) :
  walk_comps (with_root w root) path = walk_comps w path.
Proof. reflexivity. Qed.

(** A regular file put below a resolved directory is found again by the
    same walk. *)
Lemma put_file_resolves (root : node) (init parent : list string)
      (es : list (string * node)) (name : string) (mode : Z)
      (content : string) :
  canon root [] init = Some parent ->
  get root parent = Some (Dir es) ->
  (find_entry name es = None
   \/ exists m c, find_entry name es = Some (File m c)) ->
  is_dot_name name = false ->
  let root' := put root (parent ++ [name])%list (File mode content) in
  canon root' [] init = Some parent
  /\ canon root' [] (init ++ [name])%list = Some (parent ++ [name])%list
  /\ get root' (parent ++ [name])%list = Some (File mode content)
  /\ exists es',
      get root' parent = Some (Dir es')
      /\ find_entry name es' = Some (File mode content).
Proof.
  intros Hc Hg Hf Hdot root'.
  assert (Hx : extends root root').
  { apply put_extends. unfold file_or_absent. rewrite get_app, Hg.
    cbn [get]. destruct Hf as [-> | (m & c & ->)]; [now left|right].
    now exists m, c. }
  assert (Hsame : get root' (parent ++ [name])%list = Some (File mode content))
    by exact (get_put_same root parent name es _ Hg).
  assert (Hc' : canon root' [] init = Some parent)
    by exact (canon_extends root root' Hx init [] parent Hc).
  destruct (Hx _ _ Hg) as (es' & Hg' & _).
  assert (Hf' : find_entry name es' = Some (File mode content)).
  { rewrite get_app, Hg' in Hsame. cbn [get] in Hsame.
    now destruct (find_entry name es'). }
  repeat split; try assumption.
  - rewrite canon_app, Hc'. cbn [canon]. rewrite rev_involutive, Hg'.
    unfold is_dot_name in Hdot.
    destruct (str_eqb name ""); [discriminate|].
    destruct (str_eqb name "."); [discriminate|].
    destruct (str_eqb name ".."); [discriminate|].
    cbn [orb]. rewrite Hf'. cbn [rev]. now rewrite rev_involutive.
  - now exists es'.
Qed.

(** After a successful [write_text], [os.chmod] on the same path
    succeeds, and the path then names a regular file with the written
    content and the given mode. *)
Lemma write_text_then_chmod (w w1 : World) (path content : string) (mode : Z) :
  write_text w path content = Ok w1 ->
  exists w2,
    os_chmod w1 path mode = Ok w2
    /\ lookup w2 path = Some (File mode content).
Proof.
  unfold write_text.
  destruct (str_eqb path "") eqn:Hp; [discriminate|].
  cbv zeta.
  pose proof (walk_comps_nonempty w path) as Hne.
  pose proof (app_removelast_last "" Hne) as Hsplit.
  set (comps := walk_comps w path) in *.
  set (name := last comps "") in *.
  set (init := removelast comps) in *.
  destruct (is_dot_name name) eqn:Hdot; [discriminate|].
  destruct (canon (fs_root w) [] init) as [parent|] eqn:Hc; [|discriminate].
  destruct (get (fs_root w) parent) as [[|es]|] eqn:Hg; try discriminate.
  assert (Hgen : forall m0,
             (find_entry name es = None
              \/ exists m c, find_entry name es = Some (File m c)) ->
             let w1' := with_root w (put (fs_root w) (parent ++ [name])%list
                                         (File m0 content)) in
             exists w2,
               os_chmod w1' path mode = Ok w2
               /\ lookup w2 path = Some (File mode content)).
  { intros m0 Hf w1'.
    destruct (put_file_resolves (fs_root w) init parent es name m0 content
                                Hc Hg Hf Hdot)
      as (Hc1 & Hfull1 & Hget1 & es1 & Hg1 & Hf1).
    destruct (put_file_resolves _ init parent es1 name mode content
                                Hc1 Hg1
                                (or_intror (ex_intro _ m0
                                   (ex_intro _ content Hf1))) Hdot)
      as (Hc2 & Hfull2 & Hget2 & _).
    assert (Hr1 : resolve w1' path = Some (parent ++ [name])%list).
    { unfold resolve. rewrite Hp. unfold w1'.
      rewrite walk_comps_with_root. fold comps. rewrite Hsplit.
      exact Hfull1. }
    eexists. split.
    - unfold os_chmod. rewrite Hr1. unfold w1' at 1. cbn [fs_root with_root].
      rewrite Hget1. reflexivity.
    - unfold lookup, resolve. rewrite Hp.
      change (walk_comps _ path) with comps.
      rewrite Hsplit. unfold w1'. cbn [fs_root with_root].
      rewrite Hfull2. exact Hget2. }
  destruct (find_entry name es) as [[m c|]|] eqn:Hf; try discriminate.
  - intros [= <-]. apply Hgen. right. now exists m, c.
  - intros [= <-]. apply Hgen. now left.
Qed.

(* ================================================================= *)
(** ** [Command.write_wrapper] *)

Lemma write_text_content_irrelevant (w : World) (path c c' : string) :
  is_ok (write_text w path c) = is_ok (write_text w path c').
Proof.
  unfold write_text.
  destruct (str_eqb path ""); [reflexivity|]. cbv zeta.
  destruct (is_dot_name _); [reflexivity|].
  destruct (canon _ _ _); [|reflexivity].
  destruct (get _ _) as [[|es]|]; try reflexivity.
  now destruct (find_entry _ es) as [[|]|].
Qed.

Lemma append_assoc (a b c : string) : (a ++ b) ++ c = a ++ (b ++ c).
Proof. induction a as [|x a IH]; cbn [append]; [|rewrite IH]; reflexivity. Qed.

Lemma wrapper_content_lines (command : string) :
  wrapper_content command
  = two_lines "#!/bin/sh" ("exec " ++ command ++ " " ++ double_quoted "$@").
Proof.
  unfold wrapper_content, two_lines, double_quoted.
  now rewrite !append_assoc.
Qed.

Lemma join_snap (wrapped : string) :
  startswith wrapped "/" = false ->
  os_path_join "$SNAP" wrapped = "$SNAP/" ++ wrapped.
Proof. intros H. unfold os_path_join. now rewrite H. Qed.

(** C7.  [write_wrapper] returns [None] and leaves the file system as it
    was when no wrapped command was recorded.  Otherwise, when the
    wrapper file can be opened for writing, it returns the path
    [os.path.join(prime_dir, wrapped_command_name)], and that path then
    names a regular file whose content is exactly the two lines
    [#!/bin/sh] and [exec <cmd> "$@"], with [<cmd>] the wrapped command
    itself if it starts with [/] and [$SNAP/] followed by it otherwise,
    and whose mode is [0o755]: read and execute permission for owner,
    group and other. *)
Theorem C7_write_wrapper (w : World) (prime_dir : string) (self : Command) :
  (wrapped_command self = None ->
   write_wrapper w prime_dir self = (w, Ok None))
  /\ (forall wrapped,
         wrapped_command self = Some wrapped ->
         let path := os_path_join prime_dir (wrapped_command_name self) in
         can_open_for_writing w path = true ->
         exists w' mode,
           write_wrapper w prime_dir self = (w', Ok (Some path))
           /\ lookup w' path
              = Some (File mode
                        (two_lines "#!/bin/sh"
                           ("exec " ++ invoked_command wrapped ++ " "
                            ++ double_quoted "$@")))
           /\ mode = 493%Z
           /\ all_may_read_and_execute mode = true).
Proof.
  split.
  - intros H. unfold write_wrapper. now rewrite H.
  - intros wrapped H path Hopen.
    assert (Hcmd : (if startswith wrapped "/" then wrapped
                    else os_path_join "$SNAP" wrapped)
                   = invoked_command wrapped).
    { unfold invoked_command.
      destruct (startswith wrapped "/") eqn:E; [reflexivity|].
      now apply join_snap. }
    unfold can_open_for_writing in Hopen.
    rewrite (write_text_content_irrelevant w path ""
               (wrapper_content (invoked_command wrapped))) in Hopen.
    destruct (write_text w path (wrapper_content (invoked_command wrapped)))
      as [w1|e] eqn:Hw; [|discriminate].
    destruct (write_text_then_chmod w w1 path _ 493%Z Hw) as (w2 & Hch & Hl).
    exists w2, 493%Z. repeat split.
    + unfold write_wrapper. rewrite H. cbv zeta. rewrite Hcmd.
      fold path. now rewrite Hw, Hch.
    + now rewrite <- wrapper_content_lines.
Qed.

Lemma C7_write_wrapper_witness :
  exists w' mode,
    write_wrapper sample_world "/prime" wrapped_sample
    = (w', Ok (Some "/prime/command-app.wrapper"))
    /\ lookup w' "/prime/command-app.wrapper"
       = Some (File mode
                 (two_lines "#!/bin/sh"
                    ("exec /opt/tool/bin/run-it " ++ double_quoted "$@")))
    /\ mode = 493%Z
    /\ all_may_read_and_execute mode = true.
Proof.
  exact (proj2 (C7_write_wrapper sample_world "/prime" wrapped_sample)
               "/opt/tool/bin/run-it" eq_refl eq_refl).
Defined.

(** A relative wrapped command is invoked below [$SNAP]; the file is
    created with [0o666 & ~umask] and then made executable. *)
Example wrapper_for_relative_command :
  let self := {| _app_name := "app"; _command_name := "command";
                 command := "command-app.wrapper";
                 wrapped_command := Some "bin/foo --opt=1";
                 massaged_command := None |} in
  let w' := fst (write_wrapper sample_world "/prime" self) in
  snd (write_wrapper sample_world "/prime" self)
  = Ok (Some "/prime/command-app.wrapper")
  /\ lookup w' "/prime/command-app.wrapper"
     = Some (File 493
               (two_lines "#!/bin/sh"
                  ("exec $SNAP/bin/foo --opt=1 " ++ double_quoted "$@")))
  /\ lookup sample_world "/prime/command-app.wrapper" = None.
Proof. vm_compute. repeat split. Qed.

(** A staged root that does not exist: [open] raises, nothing is
    written. *)
Example wrapper_without_staged_root :
  write_wrapper sample_world "/nowhere" wrapped_sample
  = (sample_world, Raise (FileNotFoundError "/nowhere/command-app.wrapper")).
Proof. reflexivity. Qed.

(* ================================================================= *)
(** * Further properties of the module *)

(** ** Reading the interpreter directive *)

Lemma lstrip_spaces (ws s : string) :
  all_chars is_space ws = true -> lstrip (ws ++ s) = lstrip s.
Proof.
  induction ws as [|c ws IH]; cbn [append all_chars]; [reflexivity|].
  intros H. apply andb_prop in H. destruct H as [Hc Hws].
  cbn [lstrip]. rewrite Hc. now apply IH.
Qed.

Lemma lstrip_all_spaces (ws : string) :
  all_chars is_space ws = true -> lstrip ws = "".
Proof.
  induction ws as [|c ws IH]; cbn [all_chars lstrip]; [reflexivity|].
  intros H. apply andb_prop in H. destruct H as [Hc Hws].
  rewrite Hc. now apply IH.
Qed.

Lemma rstrip_spaces (ws : string) :
  all_chars is_space ws = true -> rstrip ws = "".
Proof.
  induction ws as [|c ws IH]; cbn [all_chars rstrip]; [reflexivity|].
  intros H. apply andb_prop in H. destruct H as [Hc Hws].
  now rewrite (IH Hws), Hc.
Qed.

Lemma rstrip_app_spaces (s ws : string) :
  all_chars is_space ws = true -> rstrip (s ++ ws) = rstrip s.
Proof.
  intros Hws. induction s as [|c s IH]; cbn [append rstrip].
  - now apply rstrip_spaces.
  - now rewrite IH.
Qed.

Lemma rstrip_fixed (s : string) :
  match last_char s with Some b => is_space b = false | None => True end ->
  rstrip s = s.
Proof.
  induction s as [|c s IH]; [reflexivity|].
  destruct s as [|d s].
  - cbn. now intros ->.
  - intros H. change (last_char (String c (String d s)))
      with (last_char (String d s)) in H.
    specialize (IH H). cbn [rstrip] in IH |- *. now rewrite IH.
Qed.

Lemma last_char_cons (a : ascii) (s : string) :
  last_char (String a s) <> None.
Proof.
  revert a. induction s as [|b s IH]; intros a; [discriminate|].
  change (last_char (String a (String b s))) with (last_char (String b s)).
  apply IH.
Qed.

Lemma strip_core (ws1 core ws2 : string) :
  all_chars is_space ws1 = true ->
  all_chars is_space ws2 = true ->
  no_outer_space core = true ->
  strip (ws1 ++ core ++ ws2) = core.
Proof.
  intros H1 H2 Hc. unfold strip. rewrite (lstrip_spaces _ _ H1).
  destruct core as [|a core].
  - cbn [append]. now rewrite (lstrip_all_spaces ws2 H2).
  - unfold no_outer_space in Hc. cbn [first_char] in Hc.
    destruct (last_char (String a core)) as [b|] eqn:Hl.
    + apply andb_prop in Hc. destruct Hc as [Ha Hb].
      apply negb_true_iff in Ha. apply negb_true_iff in Hb.
      cbn [append lstrip]. rewrite Ha.
      change (String a (core ++ ws2)) with (String a core ++ ws2).
      rewrite (rstrip_app_spaces _ _ H2). apply rstrip_fixed.
      now rewrite Hl.
    + now elim (last_char_cons a core).
Qed.

Lemma contains_char_app (c : ascii) (s t : string) :
  contains_char c (s ++ t) = contains_char c s || contains_char c t.
Proof.
  induction s as [|a s IH]; cbn [append contains_char]; [reflexivity|].
  now rewrite IH, orb_assoc.
Qed.

Lemma readline_first_line (line tail : string) :
  contains_char LF line = false ->
  line_end tail ->
  exists ws, readline (line ++ tail) = line ++ ws
             /\ all_chars is_space ws = true.
Proof.
  intros Hl Ht. induction line as [|c line IH]; cbn [append].
  - destruct Ht as [-> | [more ->]].
    + now exists "".
    + exists (String LF ""). cbn [readline].
      now rewrite (proj2 (Ascii.eqb_eq LF LF) eq_refl).
  - cbn [contains_char] in Hl. apply orb_false_iff in Hl.
    destruct Hl as [Hc Hl]. destruct (IH Hl) as (ws & E & Hws).
    exists ws. cbn [readline]. rewrite Hc. now rewrite E.
Qed.

Lemma shebang_of_line (w : World) (path : string) (mode : Z)
      (content core : string) :
  lookup w path = Some (File mode content) ->
  shebang_line_is content core ->
  no_outer_space core = true ->
  os_path_exists w path = true
  /\ _get_shebang_from_file w path
     = match decode_utf8 core with
       | Ok shebang_line => Ok (Some shebang_line)
       | Raise e => Raise e
       end.
Proof.
  intros Hl (ws1 & ws2 & tail & -> & H1 & H2 & Hn & Ht) Hc.
  split; [unfold os_path_exists; now rewrite Hl|].
  unfold _get_shebang_from_file, open_rb. rewrite Hl.
  cbn [append read2 str_eqb String.eqb Ascii.eqb Bool.eqb negb andb].
  change (if String.eqb "" "" then false else true) with false. cbv iota.
  replace (ws1 ++ core ++ ws2 ++ tail) with ((ws1 ++ core ++ ws2) ++ tail)
    by now rewrite !append_assoc.
  destruct (readline_first_line _ _ Hn Ht) as (ws & -> & Hws).
  replace ((ws1 ++ core ++ ws2) ++ ws) with (ws1 ++ core ++ (ws2 ++ ws))
    by now rewrite !append_assoc.
  rewrite strip_core; [reflexivity | assumption | | assumption].
  now rewrite all_chars_app, H2, Hws.
Qed.

Lemma prefix_cons (a b : ascii) (p s : string) :
  String.prefix (String a p) (String b s) = Ascii.eqb a b && String.prefix p s.
Proof.
  cbn [String.prefix].
  destruct (ascii_dec a b) as [E|N], (Ascii.eqb_spec a b) as [E'|N'];
    try reflexivity; contradiction.
Qed.

Lemma read2_head (content : string) :
  str_eqb (fst (read2 content)) "#!" = startswith content "#!".
Proof.
  unfold startswith, str_eqb.
  destruct content as [|a [|b s]]; [reflexivity| |].
  - rewrite prefix_cons. cbn [read2 fst String.eqb String.prefix].
    rewrite Ascii.eqb_sym. now destruct (Ascii.eqb "#" a).
  - rewrite !prefix_cons. cbn [read2 fst String.eqb String.prefix].
    rewrite (Ascii.eqb_sym a), (Ascii.eqb_sym b).
    destruct (Ascii.eqb "#" a), (Ascii.eqb "!" b); try reflexivity.
    now destruct s.
Qed.

(** [_get_shebang_from_file]: a directory cannot be read; a regular file
    that does not begin with [#!] (also one of fewer than two octets) has
    no shebang; otherwise the shebang is the rest of the first line without
    the white space around it (so without the carriage return of a CRLF
    line end), decoded, and octets that are not UTF-8 raise
    [UnicodeDecodeError]. *)
Theorem get_shebang_from_file_cases (w : World) (path : string) :
  (forall es, lookup w path = Some (Dir es) ->
              _get_shebang_from_file w path = Raise (IsADirectoryError path))
  /\ (forall mode content,
         lookup w path = Some (File mode content) ->
         startswith content "#!" = false ->
         _get_shebang_from_file w path = Ok None)
  /\ (forall mode content core,
         lookup w path = Some (File mode content) ->
         shebang_line_is content core ->
         no_outer_space core = true ->
         (utf8_valid [] core = true ->
          _get_shebang_from_file w path = Ok (Some core))
         /\ (utf8_valid [] core = false ->
             _get_shebang_from_file w path = Raise UnicodeDecodeError)).
Proof.
  split; [|split].
  - intros es H. unfold _get_shebang_from_file, open_rb. now rewrite H.
  - intros mode content H Hs.
    unfold _get_shebang_from_file, open_rb. rewrite H.
    destruct (read2 content) as [head rest] eqn:E.
    assert (Hh : str_eqb head "#!" = false).
    { pose proof (read2_head content) as R. rewrite E in R.
      cbn [fst] in R. congruence. }
    now rewrite Hh.
  - intros mode content core H Hl Hc.
    destruct (shebang_of_line w path mode content core H Hl Hc) as [_ ->].
    unfold decode_utf8. split; intros ->; reflexivity.
Qed.

Lemma get_shebang_from_file_cases_witness :
  _get_shebang_from_file edge_world "/prime/lib"
  = Raise (IsADirectoryError "/prime/lib")
  /\ _get_shebang_from_file edge_world "/prime/bin/tool" = Ok None
  /\ _get_shebang_from_file edge_world "/prime/bin/crlf" = Ok (Some "/bin/sh -e")
  /\ _get_shebang_from_file edge_world "/prime/bin/latin"
     = Raise UnicodeDecodeError.
Proof.
  pose proof (get_shebang_from_file_cases edge_world "/prime/lib") as (Hd & _).
  pose proof (get_shebang_from_file_cases edge_world "/prime/bin/tool")
    as (_ & Hn & _).
  pose proof (get_shebang_from_file_cases edge_world "/prime/bin/crlf")
    as (_ & _ & Hc).
  pose proof (get_shebang_from_file_cases edge_world "/prime/bin/latin")
    as (_ & _ & Hl).
  split; [exact (Hd _ eq_refl)|].
  split; [exact (Hn _ _ eq_refl eq_refl)|].
  split.
  - refine (proj1 (Hc _ _ "/bin/sh -e" eq_refl _ eq_refl) eq_refl).
    exists " ", (" " ++ String CR ""),
      (String LF ("exit 0" ++ String CR (String LF ""))).
    repeat split; try reflexivity. right. now eexists.
  - refine (proj2 (Hl _ _ ("/opt/caf" ++ String "233" "") eq_refl _ eq_refl)
                  eq_refl).
    exists "", "", (String LF "").
    repeat split; try reflexivity. right. now eexists.
Defined.

(** ** A command that names a directory *)

(** When the first token of the text names a directory below the staged
    root, [_split_command] opens it to look for a shebang, and the
    [IsADirectoryError] of [open] leaves [_massage_command] and
    [prime_command]; the object is as it was. *)
Theorem massage_command_on_directory (w : World) (text prime_dir first : string)
        (rest : list string) (log : list warning) :
  startswith text "/" = false ->
  Shlex.split (re_sub_leading "$SNAP/" text) false = Ok (first :: rest) ->
  os_path_isdir w (os_path_join prime_dir (_strip_command_leaders first)) = true ->
  let path := os_path_join prime_dir (_strip_command_leaders first) in
  _massage_command w text prime_dir log = (Raise (IsADirectoryError path), log)
  /\ forall self can_use_wrapper,
      command self = text ->
      prime_command w can_use_wrapper true prime_dir self log
      = (self, Raise (IsADirectoryError path), log).
Proof.
  intros Ha Hs Hd path.
  assert (Hm : _massage_command w text prime_dir log
               = (Raise (IsADirectoryError path), log)).
  { unfold os_path_isdir in Hd. fold path in Hd.
    destruct (lookup w path) as [[|es]|] eqn:Hl; try discriminate.
    unfold _massage_command. rewrite Ha.
    unfold bind, lift, _split_command. rewrite Hs. cbn [index0].
    fold path. unfold os_path_exists, _get_shebang_from_file, open_rb.
    now rewrite Hl. }
  split; [exact Hm|].
  intros self cuw E. unfold prime_command. now rewrite E, Hm.
Qed.

Lemma massage_command_on_directory_witness :
  _massage_command edge_world "$SNAP/lib/tool.d --verbose" "/prime" []
  = (Raise (IsADirectoryError "/prime/lib/tool.d"), []).
Proof.
  exact (proj1 (massage_command_on_directory edge_world
                  "$SNAP/lib/tool.d --verbose" "/prime" "lib/tool.d"
                  ["--verbose"] [] eq_refl eq_refl eq_refl)).
Defined.

(** ** Shebangs without an interpreter *)

(** A script whose shebang is [/usr/bin/env] and nothing else: the token
    is dropped, and the unguarded index into what is left raises
    [IndexError], which leaves [_massage_command] and [prime_command]. *)
Theorem massage_command_env_without_program
        (w : World) (text prime_dir first : string) (rest : list string)
        (mode : Z) (content : string) (log : list warning) :
  startswith text "/" = false ->
  Shlex.split (re_sub_leading "$SNAP/" text) false = Ok (first :: rest) ->
  lookup w (os_path_join prime_dir (_strip_command_leaders first))
  = Some (File mode content) ->
  shebang_line_is content "/usr/bin/env" ->
  _massage_command w text prime_dir log = (Raise IndexError, log)
  /\ forall self can_use_wrapper,
      command self = text ->
      prime_command w can_use_wrapper true prime_dir self log
      = (self, Raise IndexError, log).
Proof.
  intros Ha Hs Hl Hc.
  destruct (shebang_of_line w _ mode content "/usr/bin/env" Hl Hc eq_refl)
    as [He Hg].
  assert (Hsp : _split_command w (re_sub_leading "$SNAP/" text) prime_dir
                = Ok (["/usr/bin/env"], first :: rest)).
  { unfold _split_command. rewrite Hs. cbn [index0]. now rewrite He, Hg. }
  assert (Hm : _massage_command w text prime_dir log = (Raise IndexError, log)).
  { rewrite (massage_stages w text prime_dir _ _ log Ha Hsp). reflexivity. }
  split; [exact Hm|].
  intros self cuw E. unfold prime_command. now rewrite E, Hm.
Qed.

Lemma massage_command_env_without_program_witness :
  _massage_command edge_world "bin/envonly start" "/prime" []
  = (Raise IndexError, []).
Proof.
  refine (proj1 (massage_command_env_without_program edge_world
                   "bin/envonly start" "/prime" "bin/envonly" ["start"]
                   493 ("#!/usr/bin/env" ++ String LF "") []
                   eq_refl eq_refl eq_refl _)).
  exists "", "", (String LF "").
  repeat split; try reflexivity. right. now eexists.
Defined.

(** A script whose first line is [#!] and white space only has an empty
    shebang, which [_split_command] takes for none: the command is
    normalised like a binary, and a text already in canonical form comes
    back as it is, with nothing logged. *)
Theorem massage_command_blank_shebang
        (w : World) (text prime_dir first : string) (rest : list string)
        (mode : Z) (content : string) (log : list warning) :
  startswith text "/" = false ->
  startswith text "$SNAP/" = false ->
  Shlex.split text false = Ok (first :: rest) ->
  str_join " " (first :: rest) = text ->
  lookup w (os_path_join prime_dir first) = Some (File mode content) ->
  shebang_line_is content "" ->
  _split_command w text prime_dir = Ok ([], first :: rest)
  /\ _massage_command w text prime_dir log = (Ok text, log).
Proof.
  intros Ha Hp Hs Hj Hl Hc.
  assert (Hfa : startswith first "/" = false).
  { apply (startswith_first_token _ first rest). now rewrite Hj. }
  assert (Hfp : startswith first "$SNAP/" = false).
  { apply (startswith_first_token _ first rest). now rewrite Hj. }
  assert (Hstrip : _strip_command_leaders first = first).
  { now apply strip_command_leaders_spec. }
  destruct (shebang_of_line w _ mode content "" Hl Hc eq_refl) as [He Hg].
  assert (Hsp : _split_command w text prime_dir = Ok ([], first :: rest)).
  { unfold _split_command. rewrite Hs. cbn [index0].
    now rewrite Hstrip, He, Hg. }
  split; [exact Hsp|].
  rewrite (massage_stages w text prime_dir [] (first :: rest) log Ha).
  - unfold interpreter_stage, bind, ret.
    unfold _resolve_command_parts, bind, lift, ret. cbn [index0].
    unfold _resolve_snap_command_path. rewrite Hstrip, He.
    cbn [negb andb set0 app]. rewrite Hj, str_eqb_refl. reflexivity.
  - now rewrite (re_sub_leading_other "$SNAP/") by assumption.
Qed.

Lemma massage_command_blank_shebang_witness :
  _split_command edge_world "bin/blank --once" "/prime"
  = Ok ([], ["bin/blank"; "--once"])
  /\ _massage_command edge_world "bin/blank --once" "/prime" []
     = (Ok "bin/blank --once", []).
Proof.
  refine (massage_command_blank_shebang edge_world "bin/blank --once" "/prime"
            "bin/blank" ["--once"] 493
            ("#!" ++ String LF "exit 0" ++ String LF "") []
            eq_refl eq_refl eq_refl eq_refl eq_refl _).
  exists "", "", (String LF ("exit 0" ++ String LF "")).
  repeat split; try reflexivity. right. now eexists.
Defined.

(* ================================================================= *)
(** ** The object across [prime_command] *)

Lemma accepted_first (s : string) :
  accepted s -> exists c t, s = String c t /\ grammar_first c = true.
Proof.
  intros [H | (s' & -> & H)].
  - destruct s as [|c t]; [discriminate|]. cbn [grammar_valid] in H.
    apply andb_prop in H. now exists c, t.
  - destruct s' as [|c t]; [discriminate|]. cbn [grammar_valid] in H.
    apply andb_prop in H. now exists c, (t ++ String LF "").
Qed.

Lemma first_not_slash (c : ascii) :
  grammar_first c = true -> Ascii.eqb "/" c = false.
Proof.
  intros H. destruct (Ascii.eqb_spec "/" c) as [<-|]; [discriminate H|reflexivity].
Qed.

Lemma accepted_relative (s : string) : accepted s -> startswith s "/" = false.
Proof.
  intros H. destruct (accepted_first s H) as (c & t & -> & Hc).
  unfold startswith. rewrite prefix_cons. now rewrite (first_not_slash c Hc).
Qed.

(** A string that begins with [/] is never matched by the pattern. *)
Lemma absolute_not_matched (s : string) :
  startswith s "/" = true -> Re.matches _COMMAND_PATTERN s = false.
Proof.
  intros H. destruct (Re.matches _COMMAND_PATTERN s) eqn:E; [|reflexivity].
  apply command_pattern_accepts in E. apply accepted_relative in E. congruence.
Qed.

Lemma after_massage_attributes (w : World) (massage_command : bool)
      (prime_dir : string) (self self1 : Command) (log log1 : list warning) :
  after_massage w massage_command prime_dir self log self1 log1 ->
  _app_name self1 = _app_name self
  /\ _command_name self1 = _command_name self
  /\ wrapped_command self1 = wrapped_command self
  /\ massaged_command self1 = massaged_command self.
Proof.
  unfold after_massage. destruct massage_command.
  - intros (text & _ & ->). now repeat split.
  - intros [-> _]. now repeat split.
Qed.

(** The first time [prime_command] decides on a wrapper, the wrapper
    warning is always logged: with no wrapped command recorded yet, a
    wrapper is required only for a text the pattern does not match (an
    absolute path is not matched either), so the guard in front of the
    warning cannot fail.  The text given to the warning and recorded as
    wrapped command is the one normalisation left. *)
Theorem prime_command_first_wrapper_warns (w : World) (massage_command : bool)
        (prime_dir : string) (self self1 : Command) (log log1 : list warning) :
  after_massage w massage_command prime_dir self log self1 log1 ->
  wrapped_command self = None ->
  requires_wrapper self1 = true ->
  prime_command w true massage_command prime_dir self log
  = (set_command (set_wrapped_command self1 (command self1))
                 (wrapped_command_name self),
     Ok (wrapped_command_name self),
     (log1 ++ [W_snapd_wrapper (command self1)])%list).
Proof.
  intros Ham Hw Hr.
  destruct (after_massage_attributes _ _ _ _ _ _ _ Ham) as (Ea & Ec & Ew & _).
  rewrite (prime_command_after_massage _ _ _ _ _ _ _ _ Ham).
  assert (Hm : Re.matches _COMMAND_PATTERN (command self1) = false).
  { unfold requires_wrapper in Hr. rewrite Ew, Hw in Hr.
    destruct (startswith (command self1) "/") eqn:Hs.
    - now apply absolute_not_matched.
    - cbn [orb] in Hr. now apply negb_true_iff in Hr. }
  unfold prime_checks. rewrite Hr. cbn [negb].
  cbn [set_wrapped_command set_command command].
  rewrite Hm. cbn [negb].
  unfold wrapped_command_name, command_name.
  cbn [set_wrapped_command _app_name _command_name]. now rewrite Ea, Ec.
Qed.

Lemma prime_command_first_wrapper_warns_witness :
  prime_command sample_world true true "/prime"
                (Command_init "app" "command" "/opt/x/tool --all") []
  = ({| _app_name := "app"; _command_name := "command";
        command := "command-app.wrapper";
        wrapped_command := Some "/opt/x/tool --all";
        massaged_command := None |},
     Ok "command-app.wrapper",
     [W_snapd_wrapper "/opt/x/tool --all"]).
Proof.
  refine (prime_command_first_wrapper_warns sample_world true "/prime"
            (Command_init "app" "command" "/opt/x/tool --all")
            (Command_init "app" "command" "/opt/x/tool --all") [] []
            _ eq_refl eq_refl).
  exists "/opt/x/tool --all". split; reflexivity.
Defined.

(** Whatever a call of [prime_command] does, returning or raising, it
    leaves the two names of the object alone, never assigns
    [massaged_command], and never takes a recorded wrapped command away;
    a call that raises has not recorded one either. *)
Theorem prime_command_keeps_attributes (w : World)
        (can_use_wrapper massage_command : bool) (prime_dir : string)
        (self : Command) (log : list warning) :
  let out := prime_command w can_use_wrapper massage_command prime_dir self log in
  _app_name (object_of out) = _app_name self
  /\ _command_name (object_of out) = _command_name self
  /\ massaged_command (object_of out) = massaged_command self
  /\ (wrapped_command self <> None -> wrapped_command (object_of out) <> None)
  /\ (forall e, outcome_of out = Raise e ->
                wrapped_command (object_of out) = wrapped_command self).
Proof.
  assert (Hc : forall self1 log1,
             let out := prime_checks w can_use_wrapper prime_dir self1 log1 in
             _app_name (object_of out) = _app_name self1
             /\ _command_name (object_of out) = _command_name self1
             /\ massaged_command (object_of out) = massaged_command self1
             /\ (wrapped_command self1 <> None ->
                 wrapped_command (object_of out) <> None)
             /\ (forall e, outcome_of out = Raise e ->
                           wrapped_command (object_of out)
                           = wrapped_command self1)).
  { intros self1 log1. unfold prime_checks, object_of, outcome_of.
    destruct (requires_wrapper self1).
    - destruct can_use_wrapper; cbn; repeat split; try discriminate; auto.
    - destruct (Shlex.split (command self1) true) as [[|first rest]|e];
        cbn [index0]; try (cbn; repeat split; auto; fail).
      destruct (_executable_is_valid w _); cbn; repeat split; auto. }
  unfold prime_command. destruct massage_command; [|apply Hc].
  destruct (_massage_command w (command self) prime_dir log)
    as [[massaged|e] log1].
  - apply (Hc (set_command self massaged) log1).
  - cbn. repeat split; auto.
Qed.

Lemma grammar_valid_app (s t : string) :
  grammar_valid s = true -> all_chars grammar_rest t = true ->
  grammar_valid (s ++ t) = true.
Proof.
  destruct s as [|c s]; [discriminate|]. cbn [grammar_valid append].
  intros H Ht. apply andb_prop in H. destruct H as [Hc Hs].
  now rewrite Hc, all_chars_app, Hs, Ht.
Qed.

Lemma wrapper_name_conforms (self : Command) :
  grammar_valid (command_name self) = true ->
  all_chars grammar_rest (_app_name self) = true ->
  text_requires_wrapper (wrapped_command_name self) = false.
Proof.
  intros Hc Ha.
  assert (Hg : grammar_valid (wrapped_command_name self) = true).
  { unfold wrapped_command_name. apply grammar_valid_app; [assumption|].
    now rewrite !all_chars_app, Ha. }
  assert (Hacc : accepted (wrapped_command_name self)) by now left.
  unfold text_requires_wrapper.
  rewrite (accepted_relative _ Hacc).
  now rewrite (proj2 (command_pattern_accepts _) Hacc).
Qed.

(** On an object that has no wrapped command yet and whose names are made
    of the characters of the command grammar, every text [prime_command]
    returns is relative and matched by [_COMMAND_PATTERN]: the text itself
    when no wrapper is needed, the wrapper name otherwise.  The returned
    text is also what the object then holds as its command. *)
Theorem prime_command_returns_conforming_text
        (w : World) (can_use_wrapper massage_command : bool)
        (prime_dir : string) (self self' : Command) (text : string)
        (log log' : list warning) :
  wrapped_command self = None ->
  grammar_valid (command_name self) = true ->
  all_chars grammar_rest (_app_name self) = true ->
  prime_command w can_use_wrapper massage_command prime_dir self log
  = (self', Ok text, log') ->
  command self' = text
  /\ startswith text "/" = false
  /\ Re.matches _COMMAND_PATTERN text = true.
Proof.
  intros Hw Hc Ha H.
  assert (Hout : exists self1 log1,
             wrapped_command self1 = None
             /\ _app_name self1 = _app_name self
             /\ _command_name self1 = _command_name self
             /\ prime_checks w can_use_wrapper prime_dir self1 log1
                = (self', Ok text, log')).
  { unfold prime_command in H. destruct massage_command.
    - destruct (_massage_command w (command self) prime_dir log)
        as [[massaged|e] log1]; [|discriminate].
      exists (set_command self massaged), log1. now repeat split.
    - exists self, log. now repeat split. }
  destruct Hout as (self1 & log1 & Hw1 & Ea & Ecn & Hp).
  unfold prime_checks in Hp.
  destruct (requires_wrapper self1) eqn:Hr.
  - destruct can_use_wrapper; cbn [negb] in Hp; [|discriminate].
    injection Hp as <- <- _.
    cbn [command set_command set_wrapped_command].
    assert (E : wrapped_command_name
                  (set_wrapped_command self1 (command self1))
                = wrapped_command_name self).
    { unfold wrapped_command_name, command_name.
      cbn [set_wrapped_command _app_name _command_name]. now rewrite Ea, Ecn. }
    rewrite E. pose proof (wrapper_name_conforms self Hc Ha) as Hn.
    unfold text_requires_wrapper in Hn. apply orb_false_iff in Hn.
    destruct Hn as [Hs Hm]. apply negb_false_iff in Hm. now repeat split.
  - assert (Ht : self' = self1 /\ text = command self1).
    { destruct (Shlex.split (command self1) true) as [[|first rest]|e];
        cbn [index0] in Hp; try discriminate.
      destruct (_executable_is_valid w _); cbn [negb] in Hp; [|discriminate].
      injection Hp as <- <- _. now split. }
    destruct Ht as [-> ->].
    unfold requires_wrapper in Hr. rewrite Hw1 in Hr.
    apply orb_false_iff in Hr. destruct Hr as [Hs Hm].
    apply negb_false_iff in Hm. now repeat split.
Qed.

Lemma prime_command_returns_conforming_text_witness :
  command (object_of (prime_command sample_world true true "/prime"
                        (Command_init "app" "command" "foo --fast") []))
  = "bin/foo --fast"
  /\ startswith "bin/foo --fast" "/" = false
  /\ Re.matches _COMMAND_PATTERN "bin/foo --fast" = true.
Proof.
  exact (prime_command_returns_conforming_text sample_world true true "/prime"
           (Command_init "app" "command" "foo --fast") _ "bin/foo --fast"
           [] _ eq_refl eq_refl eq_refl eq_refl).
Defined.

Lemma prime_command_keeps_attributes_witness :
  let out := prime_command sample_world false false "/prime" wrapped_sample [] in
  outcome_of out
  = Raise (InvalidAppCommandFormatError "command-app.wrapper" "app")
  /\ wrapped_command (object_of out) <> None
  /\ wrapped_command (object_of out) = wrapped_command wrapped_sample.
Proof.
  intros out. split; [reflexivity|].
  destruct (prime_command_keeps_attributes sample_world false false "/prime"
              wrapped_sample []) as (_ & _ & _ & Hkeep & Hraise).
  split.
  - apply Hkeep. discriminate.
  - exact (Hraise _ eq_refl).
Defined.

(* ================================================================= *)
(** ** What normalisation does to a text *)

Lemma shorter_differs (p t : string) :
  p <> "" -> str_eqb t (p ++ t) = false.
Proof.
  intros Hp. unfold str_eqb. apply String.eqb_neq. intros H.
  apply (f_equal String.length) in H. rewrite length_app in H.
  destruct p; [now elim Hp | cbn in H; lia].
Qed.

(** A text that is canonical but for a leading [$SNAP/] loses that
    prefix, and two warnings tell so: the one about the unneeded prefix,
    then the one about the change. *)
Theorem massage_command_unneeded_snap (w : World) (text prime_dir : string)
        (log : list warning) :
  canonical w prime_dir text ->
  _massage_command w ("$SNAP/" ++ text) prime_dir log
  = (Ok text,
     (log ++ [W_unneeded_snap ("$SNAP/" ++ text);
              W_changed ("$SNAP/" ++ text) text])%list).
Proof.
  intros (Ha & Hp & first & rest & Hs & Hj & Hd).
  assert (Hfa : startswith first "/" = false).
  { apply (startswith_first_token _ first rest). now rewrite Hj. }
  assert (Hfp : startswith first "$SNAP/" = false).
  { apply (startswith_first_token _ first rest). now rewrite Hj. }
  assert (Hstrip : _strip_command_leaders first = first).
  { now apply strip_command_leaders_spec. }
  destruct (shebang_absent w _ Hd) as [He Hg].
  rewrite (massage_stages w ("$SNAP/" ++ text) prime_dir [] (first :: rest) log
             eq_refl).
  - unfold interpreter_stage, bind, ret.
    unfold _resolve_command_parts, bind, lift, ret. cbn [index0].
    unfold _resolve_snap_command_path. rewrite Hstrip, He.
    cbn [negb andb set0 app]. rewrite Hj.
    rewrite (shorter_differs "$SNAP/" text) by discriminate. cbn [negb].
    unfold startswith. rewrite (prefix_app "$SNAP/" text).
    unfold logger_warning. now rewrite <- app_assoc.
  - rewrite re_sub_leading_prefix. unfold _split_command. rewrite Hs.
    cbn [index0]. now rewrite Hstrip, He, Hg.
Qed.

Lemma massage_command_unneeded_snap_witness :
  _massage_command sample_world "$SNAP/bin/foo --fast" "/prime" []
  = (Ok "bin/foo --fast",
     [W_unneeded_snap "$SNAP/bin/foo --fast";
      W_changed "$SNAP/bin/foo --fast" "bin/foo --fast"]).
Proof.
  exact (massage_command_unneeded_snap sample_world "bin/foo --fast" "/prime" []
                                       sample_canonical).
Defined.

Lemma interpreter_stage_ok (w : World) (shebang_parts command_parts : list string)
      (prime_dir : string) (log : list warning) (head : list string)
      (log1 : list warning) :
  interpreter_stage w shebang_parts command_parts prime_dir log = (Ok head, log1) ->
  (shebang_parts = [] /\ head = [])
  \/ (shebang_parts <> [] /\ head <> []).
Proof.
  unfold interpreter_stage. destruct shebang_parts as [|s ss].
  - intros [= <- _]. now left.
  - intros H. right. split; [discriminate|].
    unfold _resolve_interpreter_parts, bind, lift, ret, logger_warning in H.
    cbn [index0] in H.
    destruct (if str_eqb s "/usr/bin/env" then tl (s :: ss) else s :: ss)
      as [|i others]; cbn [index0] in H; [discriminate|].
    destruct (_resolve_snap_command_path w i prime_dir)
      as [[[resolved|] flag]|e]; try discriminate.
    + destruct flag.
      * destruct command_parts; cbn [index0] in H; [discriminate|].
        injection H as <- _. discriminate.
      * injection H as <- _. discriminate.
    + injection H as <- _. discriminate.
Qed.

Lemma interpreter_stage_tokens
      (w : World) (shebang_parts command_parts : list string)
      (prime_dir : string) (log : list warning) (head : list string)
      (log1 : list warning) :
  interpreter_stage w shebang_parts command_parts prime_dir log = (Ok head, log1) ->
  interpreter_tokens w prime_dir shebang_parts head.
Proof.
  unfold interpreter_stage. destruct shebang_parts as [|s ss].
  - intros [= <- _]. constructor.
  - intros H.
    unfold _resolve_interpreter_parts, bind, lift, ret, logger_warning in H.
    cbn [index0] in H.
    assert (Hd : drop_env (s :: ss)
                 = if str_eqb s "/usr/bin/env" then tl (s :: ss) else s :: ss).
    { cbn [drop_env tl]. now destruct (str_eqb s "/usr/bin/env"). }
    destruct (if str_eqb s "/usr/bin/env" then tl (s :: ss) else s :: ss)
      as [|i others]; cbn [index0] in H; [discriminate|].
    destruct (_resolve_snap_command_path w i prime_dir)
      as [[[resolved|] flag]|e] eqn:Hr; try discriminate.
    + assert (Eh : head = resolved :: others).
      { destruct flag.
        - destruct command_parts; cbn [index0] in H; [discriminate|].
          now injection H as <- _.
        - now injection H as <- _. }
      rewrite Eh.
      now apply (interpreter_resolved w prime_dir (s :: ss) i others resolved flag).
    + injection H as <- _.
      now apply (interpreter_kept w prime_dir (s :: ss) i others flag).
Qed.

Lemma split_command_tokens (w : World) (text prime_dir first : string)
      (rest shebang_parts command_parts : list string) :
  Shlex.split text false = Ok (first :: rest) ->
  _split_command w text prime_dir = Ok (shebang_parts, command_parts) ->
  command_parts = first :: rest
  /\ shebang_tokens w prime_dir first shebang_parts.
Proof.
  intros Hs Hsp. unfold _split_command in Hsp. rewrite Hs in Hsp.
  cbn [index0] in Hsp.
  destruct (os_path_exists w _) eqn:He.
  - destruct (_get_shebang_from_file w _) as [[shebang|]|e] eqn:Hg;
      [| |discriminate].
    + destruct shebang as [|c shebang'] eqn:Esh; cbn [Shlex.nonempty] in Hsp.
      * injection Hsp as <- <-. split; [reflexivity|].
        now apply tokens_empty_shebang.
      * destruct (Shlex.split (String c shebang') false) as [parts|e] eqn:Hss;
          [|discriminate].
        injection Hsp as <- <-. split; [reflexivity|].
        now apply (tokens_of_shebang w prime_dir first (String c shebang') parts).
    + injection Hsp as <- <-. split; [reflexivity|].
      now apply tokens_no_shebang.
  - injection Hsp as <- <-. split; [reflexivity|]. now apply tokens_no_file.
Qed.

(** Normalisation of a relative text rewrites its first token and nothing
    else.  The result is made of the interpreter tokens, then the resolved
    command, then the arguments as [shlex] split them, in their order,
    joined by single spaces.  The interpreter tokens are those of the
    shebang of the file at [os.path.join(prime_dir, first token)], the
    leaders of the token stripped (none without such a file or shebang), a
    leading [/usr/bin/env] dropped and the token then in front replaced by
    what the resolver answers for it, or kept if it answers nothing.  The
    resolved command is what the
    resolver answers for the first token, behind [$SNAP/] when there are
    interpreter tokens and the answer is relative and not empty. *)
Theorem massage_command_keeps_arguments (w : World) (text prime_dir first : string)
        (rest : list string) (log : list warning) (text' : string)
        (log' : list warning) :
  startswith text "/" = false ->
  Shlex.split (re_sub_leading "$SNAP/" text) false = Ok (first :: rest) ->
  _massage_command w text prime_dir log = (Ok text', log') ->
  exists shebang_parts head resolved search_required,
    shebang_tokens w prime_dir first shebang_parts
    /\ interpreter_tokens w prime_dir shebang_parts head
    /\ _resolve_snap_command_path w first prime_dir
       = Ok (Some resolved, search_required)
    /\ text' = str_join " " (head ++ with_snap (match head with
                                                | [] => false
                                                | _ => true
                                                end) resolved :: rest).
Proof.
  intros Ha Hs H.
  destruct (_split_command w (re_sub_leading "$SNAP/" text) prime_dir)
    as [[shebang_parts command_parts]|e] eqn:Hsp.
  - destruct (split_command_tokens _ _ _ _ _ _ _ Hs Hsp) as [Ecp Htok].
    subst command_parts.
    rewrite (massage_stages w text prime_dir _ _ log Ha Hsp) in H.
    cbv zeta in H. unfold bind at 1 in H.
    destruct (interpreter_stage w shebang_parts (first :: rest) prime_dir log)
      as [[head|e] log1] eqn:Hi; [|discriminate].
    unfold bind at 1 in H.
    destruct (_resolve_snap_command_path w first prime_dir)
      as [[[resolved|] flag]|e] eqn:Hr.
    + rewrite (command_resolved _ _ _ _ _ _ _ _ Hr) in H.
      exists shebang_parts, head, resolved, flag.
      split; [exact Htok|].
      split; [exact (interpreter_stage_tokens _ _ _ _ _ _ _ Hi)|].
      split; [reflexivity|].
      assert (Et : text' = str_join " "
                     (head ++ with_snap (match shebang_parts with
                                         | [] => false
                                         | _ => true
                                         end) resolved :: rest)).
      { unfold bind, ret, logger_warning in H.
        repeat match type of H with
               | context [if ?b then _ else _] => destruct b
               end; now injection H as <- _. }
      rewrite Et.
      destruct (interpreter_stage_ok _ _ _ _ _ _ _ Hi) as [[-> ->] | [Hn Hh]].
      * reflexivity.
      * destruct shebang_parts; [now elim Hn|].
        destruct head; [now elim Hh | reflexivity].
    + rewrite (command_unresolved _ _ _ _ _ _ _ Hr) in H. discriminate.
    + unfold _resolve_command_parts, bind, lift in H. cbn [index0] in H.
      rewrite Hr in H. discriminate.
  - unfold _massage_command in H. rewrite Ha in H.
    unfold bind, lift in H. rewrite Hsp in H. discriminate.
Qed.

Lemma massage_command_keeps_arguments_witness :
  exists shebang_parts head resolved search_required,
    shebang_tokens sample_world "/prime" "bin/run" shebang_parts
    /\ interpreter_tokens sample_world "/prime" shebang_parts head
    /\ _resolve_snap_command_path sample_world "bin/run" "/prime"
       = Ok (Some resolved, search_required)
    /\ "/usr/bin/widget-lang $SNAP/bin/run --port 80"
       = str_join " " (head ++ with_snap (match head with
                                          | [] => false
                                          | _ => true
                                          end) resolved :: ["--port"; "80"]).
Proof.
  exact (massage_command_keeps_arguments sample_world "bin/run --port  80"
           "/prime" "bin/run" ["--port"; "80"] []
           "/usr/bin/widget-lang $SNAP/bin/run --port 80" _
           eq_refl eq_refl eq_refl).
Defined.

(* ================================================================= *)
(** ** The locator and the resolver *)

Lemma join_ends_with (dir name : string) :
  exists pre, os_path_join dir name = pre ++ name.
Proof.
  unfold os_path_join. destruct (startswith name "/").
  - now exists "".
  - destruct (negb (Shlex.nonempty dir) || endswith_char dir SEP).
    + now exists dir.
    + exists (dir ++ "/"). now rewrite append_assoc.
Qed.

Lemma find_map_join (ok : string -> bool) (dirs : list string)
      (name found : string) :
  find ok (map (fun dir => os_path_join dir name) dirs) = Some found ->
  ok found = true /\ exists pre, found = pre ++ name.
Proof.
  intros H. apply find_some in H. destruct H as [Hin Hok].
  split; [assumption|]. apply in_map_iff in Hin.
  destruct Hin as (dir & <- & _). apply join_ends_with.
Qed.

(** Whatever [_find_executable] finds exists, is not a directory, has
    an execute bit, and its path ends with the command searched for.  A
    path found by one of the two searches of the staged root passes
    [_executable_is_valid], so it is a regular file; a path found on the
    host is what [shutil.which] answered, after both staged searches
    failed, and nothing more is known of its kind. *)
Theorem find_executable_sound (w : World) (command prime_dir found : string) :
  _find_executable w command prime_dir = Some found ->
  os_path_exists w found = true
  /\ os_path_isdir w found = false
  /\ exec_bits_set w found = true
  /\ (exists pre, found = pre ++ command)
  /\ (_executable_is_valid w found = true
      \/ (shutil_which w command = Some found
          /\ none_match (_executable_is_valid w)
                        (bin_candidates w command prime_dir)
          /\ none_match (_executable_is_valid w)
                        (walk_candidates w command prime_dir))).
Proof.
  assert (Hv : forall p, _executable_is_valid w p = true ->
                         os_path_exists w p = true
                         /\ os_path_isdir w p = false
                         /\ exec_bits_set w p = true).
  { intros p H. unfold _executable_is_valid in H.
    apply andb_prop in H. destruct H as [H Hx].
    apply andb_prop in H. destruct H as [He Hf].
    repeat split; try assumption.
    unfold os_path_isfile in Hf. unfold os_path_isdir.
    now destruct (lookup w p) as [[|]|]. }
  assert (Ha : forall p, _access_check w p = true ->
                         os_path_exists w p = true
                         /\ os_path_isdir w p = false
                         /\ exec_bits_set w p = true).
  { intros p H. unfold _access_check in H.
    apply andb_prop in H. destruct H as [H Hd].
    apply andb_prop in H. destruct H as [He Hx].
    apply negb_true_iff in Hd. now repeat split. }
  unfold _find_executable.
  fold (bin_candidates w command prime_dir).
  fold (walk_candidates w command prime_dir).
  destruct (find _ (bin_candidates w command prime_dir)) as [p|] eqn:Hb.
  - intros [= <-]. apply find_map_join in Hb. destruct Hb as [Hok Hpre].
    destruct (Hv _ Hok) as (? & ? & ?). repeat split; try assumption. now left.
  - destruct (find _ (walk_candidates w command prime_dir)) as [p|] eqn:Hw.
    + intros [= <-]. apply find_map_join in Hw. destruct Hw as [Hok Hpre].
      destruct (Hv _ Hok) as (? & ? & ?). repeat split; try assumption.
      now left.
    + intros Hwhich.
      apply find_none_match in Hb. apply find_none_match in Hw.
      assert (Hfacts : (os_path_exists w found = true
                        /\ os_path_isdir w found = false
                        /\ exec_bits_set w found = true)
                       /\ exists pre, found = pre ++ command).
      { revert Hwhich. unfold shutil_which.
        destruct (contains_char SEP command).
        - destruct (_access_check w command) eqn:Hc; [|discriminate].
          intros [= <-]. split; [now apply Ha | now exists ""].
        - destruct (negb _); [discriminate|]. intros H.
          apply find_map_join in H. destruct H as [Hok Hpre].
          split; [now apply Ha | assumption]. }
      destruct Hfacts as [(? & ? & ?) Hpre].
      repeat split; try assumption. right. now repeat split.
Qed.

Lemma find_executable_sound_witness :
  _find_executable sample_world "widget-lang" "/prime"
  = Some "/usr/bin/widget-lang"
  /\ os_path_exists sample_world "/usr/bin/widget-lang" = true
  /\ os_path_isdir sample_world "/usr/bin/widget-lang" = false
  /\ exec_bits_set sample_world "/usr/bin/widget-lang" = true
  /\ (exists pre, "/usr/bin/widget-lang" = pre ++ "widget-lang")
  /\ (_executable_is_valid sample_world "/usr/bin/widget-lang" = true
      \/ (shutil_which sample_world "widget-lang" = Some "/usr/bin/widget-lang"
          /\ none_match (_executable_is_valid sample_world)
                        (bin_candidates sample_world "widget-lang" "/prime")
          /\ none_match (_executable_is_valid sample_world)
                        (walk_candidates sample_world "widget-lang" "/prime"))).
Proof.
  split; [reflexivity|].
  exact (find_executable_sound sample_world "widget-lang" "/prime"
                               "/usr/bin/widget-lang" eq_refl).
Defined.

Lemma absolute_not_snap (x : string) :
  startswith x "/" = true -> startswith x "$SNAP/" = false.
Proof.
  unfold startswith. destruct x as [|c x]; [discriminate|].
  rewrite !prefix_cons. destruct (Ascii.eqb_spec "/" c) as [<-|]; [|discriminate].
  reflexivity.
Qed.

Lemma join_absolute (dir x : string) :
  startswith x "/" = true -> os_path_join dir x = x.
Proof. intros H. unfold os_path_join. now rewrite H. Qed.

(** [_strip_command_leaders] removes one leading [/] only, and
    [os.path.join] gives up the staged root for an absolute second part.
    So a name that begins with two slashes is looked up on the host: when
    the rest exists there, the resolver answers with that absolute path
    and asks for no search, whatever the staged root holds. *)
Theorem resolve_double_slash_on_host (w : World) (x prime_dir : string) :
  startswith x "/" = true ->
  os_path_exists w x = true ->
  _strip_command_leaders ("/" ++ x) = x
  /\ _resolve_snap_command_path w ("/" ++ x) prime_dir = Ok (Some x, false).
Proof.
  intros Hx He.
  assert (Hs : _strip_command_leaders ("/" ++ x) = x).
  { apply strip_command_leaders_spec. now apply absolute_not_snap. }
  split; [exact Hs|].
  unfold _resolve_snap_command_path. rewrite Hs.
  now rewrite (join_absolute prime_dir x Hx), He.
Qed.

Lemma resolve_double_slash_on_host_witness :
  _strip_command_leaders "//bin/sh" = "/bin/sh"
  /\ _resolve_snap_command_path sample_world "//bin/sh" "/prime"
     = Ok (Some "/bin/sh", false).
Proof.
  exact (resolve_double_slash_on_host sample_world "/bin/sh" "/prime"
                                      eq_refl eq_refl).
Defined.

(* ================================================================= *)
(** ** The executable check of [prime_command] *)

Lemma emit_ok (posix quoted : bool) (tok : string) (toks : list string) :
  exists toks', Shlex.emit posix quoted tok (Ok toks) = Ok toks'.
Proof.
  unfold Shlex.emit. destruct (if posix then _ else _); now eexists.
Qed.

Lemma emit_nonempty (quoted : bool) (tok : string) (toks : list string) :
  tok <> "" -> Shlex.emit true quoted tok (Ok toks) = Ok (tok :: toks).
Proof.
  intros H. unfold Shlex.emit. destruct tok; [now elim H|].
  cbn [Shlex.nonempty negb andb]. now rewrite andb_false_r.
Qed.

Lemma plain_char_cases (c : ascii) :
  plain_char c = true ->
  is_member c Shlex.quotes = false /\ is_member c Shlex.escape = false.
Proof.
  unfold plain_char. intros H. apply andb_prop in H. destruct H as [Hq He].
  apply negb_true_iff in Hq. apply negb_true_iff in He. now split.
Qed.

(** In POSIX mode a text without quotes and escapes always splits. *)
Lemma lex_plain_ok (input : string) :
  all_chars plain_char input = true ->
  forall st esc quoted tok,
    st = Shlex.SSpace \/ st = Shlex.SWord ->
    exists toks, Shlex.lex true st esc quoted tok input = Ok toks.
Proof.
  induction input as [|c input IH]; intros Hp st esc quoted tok Hst.
  - destruct Hst as [-> | ->]; cbn [Shlex.lex]; apply emit_ok.
  - cbn [all_chars] in Hp. apply andb_prop in Hp. destruct Hp as [Hc Hp].
    destruct (plain_char_cases c Hc) as [Hq He].
    specialize (IH Hp).
    destruct Hst as [-> | ->]; cbn [Shlex.lex]; rewrite ?Hq, ?He;
      cbn [andb]; destruct (is_member c Shlex.whitespace).
    + destruct (Shlex.nonempty tok || quoted).
      * destruct (IH Shlex.SSpace Shlex.SSpace false "" (or_introl eq_refl))
          as [toks ->]. apply emit_ok.
      * apply IH. now left.
    + apply IH. now right.
    + destruct (Shlex.nonempty tok || quoted).
      * destruct (IH Shlex.SSpace Shlex.SSpace false "" (or_introl eq_refl))
          as [toks ->]. apply emit_ok.
      * apply IH. now left.
    + apply IH. now right.
Qed.

Lemma snoc_append (tok : string) (c : ascii) (s : string) :
  Shlex.snoc tok c ++ s = tok ++ String c s.
Proof. unfold Shlex.snoc. now rewrite append_assoc. Qed.

Lemma snoc_nonempty (tok : string) (c : ascii) : Shlex.snoc tok c <> "".
Proof. unfold Shlex.snoc. destruct tok; discriminate. Qed.

Lemma append_nil (s : string) : s ++ "" = s.
Proof. induction s as [|a s IH]; cbn [append]; [|rewrite IH]; reflexivity. Qed.

Lemma nonempty_true (tok : string) : tok <> "" -> Shlex.nonempty tok = true.
Proof. destruct tok; [intros H; now elim H | reflexivity]. Qed.

Lemma lex_plain_word (input : string) :
  all_chars plain_char input = true ->
  forall esc quoted tok,
    tok <> "" ->
    exists rest,
      Shlex.lex true Shlex.SWord esc quoted tok input
      = Ok ((tok ++ take_word input) :: rest).
Proof.
  induction input as [|c input IH]; intros Hp esc quoted tok Ht.
  - cbn [Shlex.lex take_word]. rewrite append_nil.
    exists []. now apply emit_nonempty.
  - cbn [all_chars] in Hp. apply andb_prop in Hp. destruct Hp as [Hc Hp].
    destruct (plain_char_cases c Hc) as [Hq He].
    cbn [Shlex.lex take_word]. unfold is_shlex_space.
    rewrite Hq, He. cbn [andb].
    destruct (is_member c Shlex.whitespace).
    + rewrite (nonempty_true tok Ht). cbn [orb]. rewrite append_nil.
      destruct (lex_plain_ok input Hp Shlex.SSpace Shlex.SSpace false ""
                             (or_introl eq_refl)) as [toks ->].
      exists toks. now apply emit_nonempty.
    + destruct (IH Hp esc quoted (Shlex.snoc tok c) (snoc_nonempty tok c))
        as [rest ->].
      exists rest. now rewrite snoc_append.
Qed.

(** In POSIX mode the first token of a text without quotes and escapes
    that is not blank is its first word. *)
Lemma split_plain_first_word (input : string) :
  all_chars plain_char input = true ->
  all_chars is_shlex_space input = false ->
  forall esc,
    exists rest,
      Shlex.lex true Shlex.SSpace esc false "" input
      = Ok (first_word input :: rest).
Proof.
  unfold first_word.
  induction input as [|c input IH]; intros Hp Hb esc; [discriminate|].
  cbn [all_chars] in Hp, Hb. apply andb_prop in Hp. destruct Hp as [Hc Hp].
  destruct (plain_char_cases c Hc) as [Hq He].
  cbn [Shlex.lex skip_spaces]. unfold is_shlex_space in *.
  rewrite Hq, He. cbn [andb].
  destruct (is_member c Shlex.whitespace) eqn:Hw.
  - cbn [andb Shlex.nonempty orb] in Hb |- *. now apply IH.
  - cbn [take_word]. unfold is_shlex_space. rewrite Hw.
    destruct (lex_plain_word input Hp esc false (String c "")) as [rest ->];
      [discriminate|].
    now exists rest.
Qed.

Lemma rest_char_plain (c : ascii) :
  grammar_rest c = true \/ c = LF -> plain_char c = true.
Proof.
  intros [H | ->]; [|reflexivity].
  destruct c as [[] [] [] [] [] [] [] []]; try reflexivity; discriminate H.
Qed.

Lemma all_chars_impl (p q : ascii -> bool) (s : string) :
  (forall c, p c = true -> q c = true) ->
  all_chars p s = true -> all_chars q s = true.
Proof.
  intros Hpq. induction s as [|c s IH]; cbn [all_chars]; [reflexivity|].
  intros H. apply andb_prop in H. destruct H as [Hc Hs].
  now rewrite (Hpq c Hc), (IH Hs).
Qed.

Lemma accepted_plain (s : string) :
  accepted s -> all_chars plain_char s = true.
Proof.
  assert (Hr : forall t, all_chars grammar_rest t = true ->
                         all_chars plain_char t = true).
  { intros t. apply all_chars_impl. intros c Hc. apply rest_char_plain.
    now left. }
  intros [H | (s' & -> & H)].
  - apply Hr. now apply grammar_valid_all_rest.
  - rewrite all_chars_app. rewrite (Hr s' (grammar_valid_all_rest s' H)).
    reflexivity.
Qed.

(** With no wrapped command recorded and no wrapper required,
    [prime_command] changes nothing and ends in one of three ways.  The
    text is matched by the pattern, which admits neither quotes nor a
    backslash, so [shlex.split] cannot fail and no [ValueError] leaves the
    call.  A blank text has no token, and [IndexError] is raised.
    Otherwise the first token is the first word of the text, and the
    check is made on that word joined to the staged root: the call
    returns the text if it is an executable file and raises
    [InvalidAppCommandNotExecutable], naming the text and the application,
    if not. *)
Theorem prime_command_plain_outcomes (w : World)
        (can_use_wrapper massage_command : bool) (prime_dir : string)
        (self self1 : Command) (log log1 : list warning) :
  after_massage w massage_command prime_dir self log self1 log1 ->
  wrapped_command self = None ->
  requires_wrapper self1 = false ->
  let out := prime_command w can_use_wrapper massage_command prime_dir self log in
  object_of out = self1
  /\ snd out = log1
  /\ (forall msg, outcome_of out <> Raise (ValueError msg))
  /\ (all_chars is_shlex_space (command self1) = true ->
      outcome_of out = Raise IndexError)
  /\ (all_chars is_shlex_space (command self1) = false ->
      outcome_of out
      = if _executable_is_valid
             w (os_path_join prime_dir (first_word (command self1)))
        then Ok (command self1)
        else Raise (InvalidAppCommandNotExecutable (command self1)
                                                   (_app_name self1))).
Proof.
  intros Ham Hw Hr out. subst out.
  destruct (after_massage_attributes _ _ _ _ _ _ _ Ham) as (_ & _ & Ew & _).
  rewrite (prime_command_after_massage _ _ _ _ _ _ _ _ Ham).
  assert (Hacc : accepted (command self1)).
  { apply requires_wrapper_spec in Hr; [now destruct Hr | congruence]. }
  pose proof (accepted_plain _ Hacc) as Hp.
  unfold prime_checks. rewrite Hr. unfold Shlex.split.
  destruct (all_chars is_shlex_space (command self1)) eqn:Hb.
  - rewrite (lex_blank true _ Hb). cbn [index0].
    unfold object_of, outcome_of. cbn [fst snd].
    repeat split; try reflexivity; discriminate.
  - destruct (split_plain_first_word _ Hp Hb Shlex.SSpace) as [rest ->].
    cbn [index0]. unfold object_of, outcome_of.
    destruct (_executable_is_valid w _); cbn [negb fst snd];
      repeat split; try reflexivity; discriminate.
Qed.

Lemma prime_command_plain_outcomes_witness :
  let self := Command_init "app" "command" "  opt/x/tool   -v" in
  first_word "  opt/x/tool   -v" = "opt/x/tool"
  /\ prime_command sample_world false false "/prime" self []
     = (self, Ok "  opt/x/tool   -v", []).
Proof.
  intros self. split; [reflexivity|].
  destruct (prime_command_plain_outcomes sample_world false false "/prime"
              self self [] [] (conj eq_refl eq_refl) eq_refl eq_refl)
    as (Ho & Hl & _ & _ & Hx).
  specialize (Hx eq_refl).
  destruct (prime_command sample_world false false "/prime" self [])
    as [[o r] l] eqn:E.
  unfold object_of, outcome_of in *. cbn [fst snd] in *.
  now subst.
Defined.

(** When the first word of such a text is an absolute path, the staged
    root takes no part in the check: [os.path.join] returns the word
    itself, and the call returns or raises according to the file of that
    name on the host. *)
Theorem prime_command_absolute_first_word (w : World) (can_use_wrapper : bool)
        (prime_dir : string) (self : Command) (log : list warning) :
  wrapped_command self = None ->
  requires_wrapper self = false ->
  startswith (first_word (command self)) "/" = true ->
  prime_command w can_use_wrapper false prime_dir self log
  = (self,
     if _executable_is_valid w (first_word (command self))
     then Ok (command self)
     else Raise (InvalidAppCommandNotExecutable (command self) (_app_name self)),
     log).
Proof.
  intros Hw Hr Ha.
  assert (Hacc : accepted (command self)).
  { apply requires_wrapper_spec in Hr; [now destruct Hr | assumption]. }
  pose proof (accepted_plain _ Hacc) as Hp.
  assert (Hb : all_chars is_shlex_space (command self) = false).
  { destruct (all_chars is_shlex_space (command self)) eqn:Hb; [|reflexivity].
    assert (E : first_word (command self) = "").
    { clear - Hb. unfold first_word.
      induction (command self) as [|c s IH]; [reflexivity|].
      cbn [all_chars] in Hb. apply andb_prop in Hb. destruct Hb as [Hc Hs].
      cbn [skip_spaces]. rewrite Hc. now apply IH. }
    rewrite E in Ha. discriminate Ha. }
  unfold prime_command, prime_checks. rewrite Hr. unfold Shlex.split.
  destruct (split_plain_first_word _ Hp Hb Shlex.SSpace) as [rest ->].
  cbn [index0]. rewrite (join_absolute prime_dir _ Ha).
  now destruct (_executable_is_valid w _).
Qed.

Lemma prime_command_absolute_first_word_witness :
  let self := Command_init "app" "command" " /bin/sh -c true" in
  requires_wrapper self = false
  /\ first_word (command self) = "/bin/sh"
  /\ prime_command sample_world false false "/prime" self []
     = (self, Ok " /bin/sh -c true", []).
Proof.
  intros self. split; [reflexivity|]. split; [reflexivity|].
  exact (prime_command_absolute_first_word sample_world false "/prime" self []
                                           eq_refl eq_refl eq_refl).
Defined.

(* ================================================================= *)
(** ** The wrapper file in the file system *)

Lemma update_entry_same (c : string) (f : node -> node)
      (absent es : list (string * node)) (ch : node) :
  find_entry c es = Some ch -> f ch = ch -> update_entry c f absent es = es.
Proof.
  intros Hf Hfix. induction es as [|[name x] es IH];
    cbn [find_entry update_entry] in *; [discriminate|].
  destruct (str_eqb name c).
  - injection Hf as ->. now rewrite Hfix.
  - now rewrite (IH Hf).
Qed.

(** Putting back what is there changes nothing. *)
Lemma put_same (t : list string) :
  forall n x, get n t = Some x -> put n t x = n.
Proof.
  induction t as [|c cs IH]; intros n x H.
  - cbn [get] in H. injection H as ->. now destruct x.
  - destruct n as [|es]; [discriminate|]. cbn [get] in H.
    destruct (find_entry c es) as [ch|] eqn:Hc; [|discriminate].
    rewrite put_cons. f_equal.
    apply (update_entry_same c _ _ es ch Hc). now apply IH.
Qed.

(** Writing a regular file leaves every other regular file as it is. *)
Lemma put_other_file (t : list string) (new : node) :
  forall n q mode content,
    file_or_absent n t ->
    q <> t ->
    get n q = Some (File mode content) ->
    get (put n t new) q = Some (File mode content).
Proof.
  induction t as [|c cs IH]; intros n q mode content Hfa Hne Hq.
  - destruct Hfa as [H | (m & ct & H)]; [discriminate|].
    cbn [get] in H. injection H as ->.
    destruct q; [now elim Hne | discriminate].
  - destruct n as [|es]; [exact Hq|].
    rewrite put_cons. destruct q as [|c' q]; [discriminate|].
    cbn [get] in Hq |- *.
    destruct (find_entry c' es) as [ch'|] eqn:Hc'; [|discriminate].
    destruct (String.eqb_spec c' c) as [-> | Hcc].
    + rewrite find_update_same, Hc'. apply IH; [|congruence|assumption].
      unfold file_or_absent in Hfa |- *. cbn [get] in Hfa.
      now rewrite Hc' in Hfa.
    + now rewrite (find_update_other c c' _ _ _ ch' Hcc Hc').
Qed.

Lemma slot_file_or_absent (w : World) (path : string) (parent : list string)
      (name : string) :
  file_slot w path parent name ->
  file_or_absent (fs_root w) (parent ++ [name]).
Proof.
  intros (_ & _ & _ & _ & es & Hg & Hf).
  unfold file_or_absent. rewrite get_app, Hg. cbn [get].
  destruct Hf as [-> | (m & c & ->)]; [now left | right; now exists m, c].
Qed.

Lemma slot_comps (w : World) (path : string) (parent : list string)
      (name : string) :
  file_slot w path parent name ->
  walk_comps w path = (removelast (walk_comps w path) ++ [name])%list.
Proof.
  intros (_ & Hl & _). rewrite <- Hl.
  apply app_removelast_last, walk_comps_nonempty.
Qed.

(** A regular file written into its slot: the path resolves to it, the
    slot is still one, and the tree has only grown. *)
Lemma slot_after_put (w : World) (path : string) (parent : list string)
      (name : string) (mode : Z) (content : string) :
  file_slot w path parent name ->
  let w' := with_root w (put (fs_root w) (parent ++ [name]) (File mode content)) in
  file_slot w' path parent name
  /\ resolve w' path = Some (parent ++ [name])%list
  /\ get (fs_root w') (parent ++ [name]) = Some (File mode content)
  /\ extends (fs_root w) (fs_root w').
Proof.
  intros Hs w'. pose proof (slot_comps _ _ _ _ Hs) as Hsplit.
  pose proof (slot_file_or_absent _ _ _ _ Hs) as Hfa.
  destruct Hs as (Hp & Hl & Hdot & Hc & es & Hg & Hf).
  destruct (put_file_resolves (fs_root w) _ parent es name mode content
                              Hc Hg Hf Hdot)
    as (Hc1 & Hfull1 & Hget1 & es1 & Hg1 & Hf1).
  split; [|split; [|split]].
  - unfold file_slot, w'. rewrite walk_comps_with_root.
    cbn [fs_root with_root]. repeat split; try assumption.
    exists es1. split; [assumption|]. right. now exists mode, content.
  - unfold resolve, w'. rewrite Hp, walk_comps_with_root, Hsplit.
    exact Hfull1.
  - exact Hget1.
  - unfold w'. cbn [fs_root with_root]. now apply put_extends.
Qed.

Lemma write_text_slot (w w1 : World) (path content : string) :
  write_text w path content = Ok w1 ->
  exists parent name mode,
    file_slot w path parent name
    /\ w1 = with_root w (put (fs_root w) (parent ++ [name]) (File mode content))
    /\ (forall m c, get (fs_root w) (parent ++ [name]) = Some (File m c) ->
                    mode = m).
Proof.
  unfold write_text.
  destruct (str_eqb path "") eqn:Hp; [discriminate|]. cbv zeta.
  destruct (is_dot_name (last (walk_comps w path) "")) eqn:Hdot; [discriminate|].
  destruct (canon (fs_root w) [] (removelast (walk_comps w path)))
    as [parent|] eqn:Hc; [|discriminate].
  destruct (get (fs_root w) parent) as [[|es]|] eqn:Hg; try discriminate.
  destruct (find_entry (last (walk_comps w path) "") es) as [[m c|]|] eqn:Hf;
    try discriminate; intros [= <-].
  - exists parent, (last (walk_comps w path) ""), m.
    split; [|split; [reflexivity|]].
    + repeat split; try assumption. exists es. split; [assumption|].
      right. now exists m, c.
    + intros m' c'. rewrite get_app, Hg. cbn [get]. rewrite Hf. congruence.
  - exists parent, (last (walk_comps w path) ""), (Z.ldiff 438 (umask w)).
    split; [|split; [reflexivity|]].
    + repeat split; try assumption. exists es. split; [assumption|]. now left.
    + intros m' c'. rewrite get_app, Hg. cbn [get]. now rewrite Hf.
Qed.

Lemma write_text_on_file (w : World) (path : string) (parent : list string)
      (name : string) (mode : Z) (old content : string) :
  file_slot w path parent name ->
  get (fs_root w) (parent ++ [name]) = Some (File mode old) ->
  write_text w path content
  = Ok (with_root w (put (fs_root w) (parent ++ [name]) (File mode content))).
Proof.
  intros (Hp & Hl & Hdot & Hc & es & Hg & _) Hget.
  rewrite get_app, Hg in Hget. cbn [get] in Hget.
  destruct (find_entry name es) as [x|] eqn:Hf; [|discriminate].
  injection Hget as ->.
  unfold write_text. rewrite Hp. cbv zeta. rewrite Hl, Hdot, Hc, Hg, Hf.
  reflexivity.
Qed.

Lemma chmod_on_file (w : World) (path : string) (t : list string)
      (old mode : Z) (content : string) :
  resolve w path = Some t ->
  get (fs_root w) t = Some (File old content) ->
  os_chmod w path mode
  = Ok (with_root w (put (fs_root w) t (File mode content))).
Proof. intros Hr Hg. unfold os_chmod. now rewrite Hr, Hg. Qed.

(** What a completed [write_wrapper] has done: two writes into the slot of
    the wrapper path, the second one setting the permissions. *)
Lemma write_wrapper_steps (w w' : World) (prime_dir : string) (self : Command)
      (wrapped : string) (r : option string) :
  wrapped_command self = Some wrapped ->
  write_wrapper w prime_dir self = (w', Ok r) ->
  let path := os_path_join prime_dir (wrapped_command_name self) in
  exists parent name mode,
    file_slot w path parent name
    /\ r = Some path
    /\ (forall m c, get (fs_root w) (parent ++ [name]) = Some (File m c) ->
                    mode = m)
    /\ w' = with_root
              (with_root w (put (fs_root w) (parent ++ [name])
                                (File mode (wrapper_script wrapped))))
              (put (put (fs_root w) (parent ++ [name])
                        (File mode (wrapper_script wrapped)))
                   (parent ++ [name])
                   (File 493 (wrapper_script wrapped))).
Proof.
  intros Hw H path. unfold write_wrapper in H. rewrite Hw in H.
  cbv zeta in H. fold path in H.
  assert (Hcmd : (if startswith wrapped "/" then wrapped
                  else os_path_join "$SNAP" wrapped)
                 = invoked_command wrapped).
  { unfold invoked_command.
    destruct (startswith wrapped "/") eqn:E; [reflexivity|].
    now apply join_snap. }
  rewrite Hcmd, wrapper_content_lines in H. fold (wrapper_script wrapped) in H.
  destruct (write_text w path (wrapper_script wrapped)) as [w1|e] eqn:Hwt;
    [|discriminate].
  destruct (write_text_slot _ _ _ _ Hwt) as (parent & name & mode & Hs & -> & Hm).
  destruct (slot_after_put w path parent name mode (wrapper_script wrapped) Hs)
    as (_ & Hr1 & Hg1 & _).
  rewrite (chmod_on_file _ path _ mode 493 _ Hr1 Hg1) in H.
  injection H as <- <-.
  exists parent, name, mode.
  split; [exact Hs|]. split; [reflexivity|]. split; [exact Hm | reflexivity].
Qed.

Lemma executable_file_valid (w : World) (path : string) (content : string) :
  lookup w path = Some (File 493 content) ->
  _executable_is_valid w path = true.
Proof.
  intros H. unfold _executable_is_valid, os_path_exists, os_path_isfile,
              exec_bits_set. now rewrite H.
Qed.

Lemma write_wrapper_written (w : World) (prime_dir : string) (self : Command)
      (wrapped : string) :
  wrapped_command self = Some wrapped ->
  let path := os_path_join prime_dir (wrapped_command_name self) in
  can_open_for_writing w path = true ->
  exists w',
    write_wrapper w prime_dir self = (w', Ok (Some path))
    /\ lookup w' path = Some (File 493 (wrapper_script wrapped)).
Proof.
  intros H path Hopen.
  assert (Hcmd : (if startswith wrapped "/" then wrapped
                  else os_path_join "$SNAP" wrapped)
                 = invoked_command wrapped).
  { unfold invoked_command.
    destruct (startswith wrapped "/") eqn:E; [reflexivity|].
    now apply join_snap. }
  unfold can_open_for_writing in Hopen.
  rewrite (write_text_content_irrelevant w path ""
             (wrapper_content (invoked_command wrapped))) in Hopen.
  destruct (write_text w path (wrapper_content (invoked_command wrapped)))
    as [w1|e] eqn:Hw; [|discriminate].
  destruct (write_text_then_chmod w w1 path _ 493%Z Hw) as (w2 & Hch & Hl).
  exists w2. split.
  - unfold write_wrapper. rewrite H. cbv zeta. rewrite Hcmd.
    fold path. now rewrite Hw, Hch.
  - unfold wrapper_script. now rewrite <- wrapper_content_lines.
Qed.

(** [prime_command] and [write_wrapper] together.  When the first call
    on an object decides on a wrapper, the text it returns, joined to the
    staged root, is the path [write_wrapper] then writes (if the file can
    be opened); the script written invokes the text normalisation left,
    and the file passes the module's own executable check. *)
Theorem prime_command_then_write_wrapper
        (w w1 : World) (massage_command : bool) (prime_dir : string)
        (self self1 : Command) (log log1 : list warning) :
  after_massage w massage_command prime_dir self log self1 log1 ->
  wrapped_command self = None ->
  requires_wrapper self1 = true ->
  let out := prime_command w true massage_command prime_dir self log in
  forall text,
    outcome_of out = Ok text ->
    can_open_for_writing w1 (os_path_join prime_dir text) = true ->
    exists w2,
      write_wrapper w1 prime_dir (object_of out)
      = (w2, Ok (Some (os_path_join prime_dir text)))
      /\ lookup w2 (os_path_join prime_dir text)
         = Some (File 493 (wrapper_script (command self1)))
      /\ _executable_is_valid w2 (os_path_join prime_dir text) = true.
Proof.
  intros Ham Hw Hr out text Ho Hopen. subst out.
  destruct (after_massage_attributes _ _ _ _ _ _ _ Ham) as (Ea & Ec & Ew & _).
  rewrite (prime_command_after_massage _ _ _ _ _ _ _ _ Ham) in Ho |- *.
  unfold prime_checks in Ho |- *. rewrite Hr in Ho |- *.
  cbn [negb] in Ho |- *. unfold outcome_of, object_of in Ho |- *.
  cbn [fst snd] in Ho |- *.
  cbn [command set_command] in Ho. injection Ho as <-.
  set (self2 := set_command (set_wrapped_command self1 (command self1)) _).
  assert (Hn : wrapped_command_name self2
               = wrapped_command_name (set_wrapped_command self1 (command self1)))
    by reflexivity.
  rewrite <- Hn in Hopen |- *.
  destruct (write_wrapper_written w1 prime_dir self2 (command self1) eq_refl Hopen)
    as (w2 & Hww & Hl).
  exists w2. split; [exact Hww|]. split; [exact Hl|].
  now apply (executable_file_valid w2 _ _ Hl).
Qed.

Lemma prime_command_then_write_wrapper_witness :
  let self := Command_init "app" "command" "bin/foo --name='a b'" in
  let out := prime_command sample_world true false "/prime" self [] in
  exists w2,
    write_wrapper sample_world "/prime" (object_of out)
    = (w2, Ok (Some "/prime/command-app.wrapper"))
    /\ lookup w2 "/prime/command-app.wrapper"
       = Some (File 493 (wrapper_script "bin/foo --name='a b'"))
    /\ _executable_is_valid w2 "/prime/command-app.wrapper" = true.
Proof.
  intros self out.
  exact (prime_command_then_write_wrapper sample_world sample_world false
           "/prime" self self [] [] (conj eq_refl eq_refl) eq_refl eq_refl
           "command-app.wrapper" eq_refl eq_refl).
Defined.

Lemma extends_trans (a b c : node) : extends a b -> extends b c -> extends a c.
Proof.
  intros Hab Hbc q es H.
  destruct (Hab q es H) as (es1 & H1 & Hin1).
  destruct (Hbc q es1 H1) as (es2 & H2 & Hin2).
  exists es2. split; [assumption|]. intros x Hx. now apply Hin2, Hin1.
Qed.

Lemma with_root_twice (w : World) (r1 r2 : node) :
  with_root (with_root w r1) r2 = with_root w r2.
Proof. reflexivity. Qed.

(** Running [write_wrapper] again changes nothing: the second run finds
    the file of the first, rewrites the same text into it and sets the
    same permissions. *)
Theorem write_wrapper_again (w w' : World) (prime_dir : string) (self : Command)
        (r : option string) :
  write_wrapper w prime_dir self = (w', Ok r) ->
  write_wrapper w' prime_dir self = (w', Ok r).
Proof.
  intros H.
  destruct (wrapped_command self) as [wrapped|] eqn:Hw.
  - destruct (write_wrapper_steps w w' prime_dir self wrapped r Hw H)
      as (parent & name & mode & Hs & -> & _ & ->).
    set (path := os_path_join prime_dir (wrapped_command_name self)) in *.
    set (t := (parent ++ [name])%list) in *.
    set (script := wrapper_script wrapped) in *.
    destruct (slot_after_put w path parent name mode script Hs)
      as (Hs1 & _ & _ & _).
    fold t in Hs1.
    destruct (slot_after_put _ path parent name 493 script Hs1)
      as (Hs2 & Hr2 & Hg2 & _).
    cbn [fs_root with_root] in Hs2, Hr2, Hg2. fold t in Hs2, Hr2, Hg2.
    rewrite with_root_twice in Hs2, Hr2 |- *.
    set (root2 := put (put (fs_root w) t (File mode script)) t (File 493 script))
      in *.
    assert (Hcmd : (if startswith wrapped "/" then wrapped
                    else os_path_join "$SNAP" wrapped)
                   = invoked_command wrapped).
    { unfold invoked_command.
      destruct (startswith wrapped "/") eqn:E; [reflexivity|].
      now apply join_snap. }
    unfold write_wrapper. rewrite Hw. cbv zeta. fold path.
    rewrite Hcmd, wrapper_content_lines. fold (wrapper_script wrapped).
    fold script.
    assert (Hput : put root2 t (File 493 script) = root2)
      by now apply put_same.
    rewrite (write_text_on_file (with_root w root2) path parent name 493
                                script script Hs2 Hg2).
    cbn [fs_root with_root]. fold t. rewrite Hput, with_root_twice.
    rewrite (chmod_on_file (with_root w root2) path t 493 493 script Hr2 Hg2).
    cbn [fs_root with_root]. now rewrite Hput, with_root_twice.
  - unfold write_wrapper in H |- *. rewrite Hw in H |- *.
    now injection H as <- <-.
Qed.

Lemma write_wrapper_again_witness :
  let w' := fst (write_wrapper sample_world "/prime" wrapped_sample) in
  write_wrapper w' "/prime" wrapped_sample
  = (w', Ok (Some "/prime/command-app.wrapper")).
Proof.
  exact (write_wrapper_again sample_world _ "/prime" wrapped_sample _ eq_refl).
Defined.

(** [write_wrapper] touches the wrapper file only: every directory is
    still a directory, and every regular file reached by a path that does
    not lead to the wrapper file keeps its permissions and its content. *)
Theorem write_wrapper_frame (w w' : World) (prime_dir : string) (self : Command)
        (r : option string) (q : string) :
  write_wrapper w prime_dir self = (w', Ok r) ->
  (os_path_isdir w q = true -> os_path_isdir w' q = true)
  /\ (forall mode content,
         lookup w q = Some (File mode content) ->
         resolve w' q
         <> resolve w' (os_path_join prime_dir (wrapped_command_name self)) ->
         lookup w' q = Some (File mode content)).
Proof.
  intros H.
  destruct (wrapped_command self) as [wrapped|] eqn:Hw.
  - destruct (write_wrapper_steps w w' prime_dir self wrapped r Hw H)
      as (parent & name & mode0 & Hs & -> & _ & ->).
    set (path := os_path_join prime_dir (wrapped_command_name self)) in *.
    set (t := (parent ++ [name])%list) in *.
    set (script := wrapper_script wrapped) in *.
    pose proof (slot_file_or_absent _ _ _ _ Hs) as Hfa. fold t in Hfa.
    destruct (slot_after_put w path parent name mode0 script Hs)
      as (Hs1 & _ & Hg1 & Hx1).
    cbn [fs_root with_root] in Hg1, Hx1. fold t in Hs1, Hg1, Hx1.
    destruct (slot_after_put _ path parent name 493 script Hs1)
      as (_ & Hr2 & _ & Hx2).
    cbn [fs_root with_root] in Hr2, Hx2. fold t in Hr2, Hx2.
    rewrite with_root_twice in Hr2 |- *.
    set (root1 := put (fs_root w) t (File mode0 script)) in *.
    set (root2 := put root1 t (File 493 script)) in *.
    pose proof (extends_trans _ _ _ Hx1 Hx2) as Hx.
    assert (Hres : forall cs, resolve w q = Some cs ->
                              resolve (with_root w root2) q = Some cs).
    { unfold resolve. destruct (str_eqb q ""); [discriminate|].
      rewrite walk_comps_with_root. cbn [fs_root with_root].
      intros cs. now apply canon_extends. }
    split.
    + unfold os_path_isdir, lookup.
      destruct (resolve w q) as [cs|] eqn:Hq; [|discriminate].
      rewrite (Hres cs eq_refl). cbn [fs_root with_root].
      destruct (get (fs_root w) cs) as [[|es]|] eqn:Hg; try discriminate.
      destruct (Hx cs es Hg) as (es' & -> & _). reflexivity.
    + intros mode content Hl Hne. unfold lookup in Hl |- *.
      destruct (resolve w q) as [cs|] eqn:Hq; [|discriminate].
      rewrite (Hres cs eq_refl) in Hne |- *. rewrite Hr2 in Hne.
      cbn [fs_root with_root].
      assert (Hcs : cs <> t) by congruence.
      apply put_other_file; [right; now exists mode0, script|assumption|].
      now apply put_other_file.
  - unfold write_wrapper in H. rewrite Hw in H. injection H as <- _.
    split; [exact (fun x => x) | now intros].
Qed.

Lemma write_wrapper_frame_witness :
  let w' := fst (write_wrapper sample_world "/prime" wrapped_sample) in
  os_path_isdir w' "/prime/bin" = true
  /\ lookup w' "/prime/bin/../README" = Some (File 420 "text").
Proof.
  intros w'.
  destruct (write_wrapper_frame sample_world w' "/prime" wrapped_sample
              (Some "/prime/command-app.wrapper") "/prime/bin" eq_refl)
    as [Hd _].
  destruct (write_wrapper_frame sample_world w' "/prime" wrapped_sample
              (Some "/prime/command-app.wrapper") "/prime/bin/../README"
              eq_refl)
    as [_ Hf].
  split; [exact (Hd eq_refl)|].
  apply Hf; [reflexivity | discriminate].
Defined.

(** A second [prime_command] on an object that already has its wrapper
    takes the wrapper name for the command: it records the wrapper name as
    the wrapped command, and [write_wrapper] then writes, under the wrapper
    name, a script that invokes the wrapper name.  The command the object
    was built with is no longer held anywhere. *)
Theorem second_prime_command_wraps_the_wrapper
        (app_name command_name raw : string) (w w' w1 : World)
        (prime_dir prime_dir' prime_dir1 : string) (log log' : list warning) :
  text_requires_wrapper raw = true ->
  let self0 := Command_init app_name command_name raw in
  let name := wrapped_command_name self0 in
  let self1 := object_of (prime_command w true false prime_dir self0 log) in
  let out2 := prime_command w' true false prime_dir' self1 log' in
  wrapped_command self1 = Some raw
  /\ outcome_of out2 = Ok name
  /\ command (object_of out2) = name
  /\ wrapped_command (object_of out2) = Some name
  /\ (can_open_for_writing w1 (os_path_join prime_dir1 name) = true ->
      exists w2,
        write_wrapper w1 prime_dir1 (object_of out2)
        = (w2, Ok (Some (os_path_join prime_dir1 name)))
        /\ lookup w2 (os_path_join prime_dir1 name)
           = Some (File 493 (wrapper_script name))).
Proof.
  intros Hreq self0 name self1 out2.
  assert (H0 : requires_wrapper self0 = true) by exact Hreq.
  assert (E1 : self1 = set_command (set_wrapped_command self0 raw) name).
  { unfold self1, prime_command, prime_checks. now rewrite H0. }
  clearbody self1.
  assert (H1 : requires_wrapper self1 = true) by now rewrite E1.
  assert (E2 : object_of out2
               = set_command (set_wrapped_command self1 name) name
               /\ outcome_of out2 = Ok name).
  { unfold out2, prime_command, prime_checks. rewrite H1. cbn [negb].
    unfold object_of, outcome_of. cbn [fst snd]. now rewrite E1. }
  clearbody out2. destruct E2 as [E2 Eo].
  split; [now rewrite E1|]. split; [exact Eo|].
  split; [now rewrite E2|]. split; [now rewrite E2|].
  intros Hopen. rewrite E2.
  set (self2 := set_command (set_wrapped_command self1 name) name).
  assert (Hn : wrapped_command_name self2 = name)
    by (unfold self2; now rewrite E1).
  rewrite <- Hn in Hopen.
  destruct (write_wrapper_written w1 prime_dir1 self2 name eq_refl Hopen)
    as (w2 & Hww & Hl).
  rewrite Hn in Hww, Hl. now exists w2.
Qed.

Lemma second_prime_command_wraps_the_wrapper_witness :
  let self0 := Command_init "app" "command" "/opt/tool/bin/run-it" in
  let self1 := object_of (prime_command sample_world true false "/prime" self0 []) in
  let out2 := prime_command sample_world true false "/prime" self1 [] in
  exists w2,
    write_wrapper sample_world "/prime" (object_of out2)
    = (w2, Ok (Some "/prime/command-app.wrapper"))
    /\ lookup w2 "/prime/command-app.wrapper"
       = Some (File 493 (two_lines "#!/bin/sh"
                           ("exec $SNAP/command-app.wrapper "
                            ++ double_quoted "$@"))).
Proof.
  intros self0 self1 out2.
  destruct (second_prime_command_wraps_the_wrapper
              "app" "command" "/opt/tool/bin/run-it"
              sample_world sample_world sample_world "/prime" "/prime" "/prime"
              [] [] eq_refl) as (_ & _ & _ & _ & H).
  exact (H eq_refl).
Defined.

(* ================================================================= *)
(** ** Splitting without POSIX rules, and joining again *)

Lemma lex_np_word (s : string) :
  no_space s = true ->
  forall tok esc quoted rest,
    Shlex.lex false Shlex.SWord esc quoted tok (s ++ rest)
    = Shlex.lex false Shlex.SWord esc quoted (tok ++ s) rest.
Proof.
  unfold no_space.
  induction s as [|c s IH]; intros Hs tok esc quoted rest; cbn [append].
  - now rewrite append_nil.
  - cbn [all_chars] in Hs. apply andb_prop in Hs. destruct Hs as [Hc Hs].
    apply negb_true_iff in Hc. unfold is_shlex_space in Hc.
    cbn [Shlex.lex]. rewrite Hc. cbn [andb].
    rewrite (IH Hs). now rewrite snoc_append.
Qed.

Lemma lex_np_quote_body (q : ascii) (body : string) :
  contains_char q body = false ->
  forall tok esc quoted rest,
    Shlex.lex false (Shlex.SQuote q) esc quoted tok (body ++ String q rest)
    = Shlex.emit false true (tok ++ body ++ String q "")
                 (Shlex.lex false Shlex.SSpace Shlex.SSpace false "" rest).
Proof.
  induction body as [|c body IH]; intros Hb tok esc quoted rest; cbn [append].
  - cbn [Shlex.lex]. now rewrite (proj2 (Ascii.eqb_eq q q) eq_refl).
  - cbn [contains_char] in Hb. apply orb_false_iff in Hb.
    destruct Hb as [Hc Hb].
    cbn [Shlex.lex]. rewrite Hc. cbn [andb].
    rewrite (IH Hb). now rewrite snoc_append.
Qed.

Lemma lex_np_open_quote (q : ascii) (body : string) :
  contains_char q body = false ->
  forall tok esc quoted,
    Shlex.lex false (Shlex.SQuote q) esc quoted tok body
    = Raise (ValueError "No closing quotation").
Proof.
  induction body as [|c body IH]; intros Hb tok esc quoted; [reflexivity|].
  cbn [contains_char] in Hb. apply orb_false_iff in Hb. destruct Hb as [Hc Hb].
  cbn [Shlex.lex]. rewrite Hc. cbn [andb]. now apply IH.
Qed.

Lemma quote_not_space (q : ascii) :
  is_member q Shlex.quotes = true -> is_member q Shlex.whitespace = false.
Proof.
  destruct q as [[] [] [] [] [] [] [] []]; try reflexivity; discriminate.
Qed.

Lemma emit_np_token (quoted : bool) (tok : string) (r : result (list string)) :
  tok <> "" ->
  Shlex.emit false quoted tok r
  = match r with Ok toks => Ok (tok :: toks) | Raise e => Raise e end.
Proof. intros H. destruct tok; [now elim H | reflexivity]. Qed.

(** One token at the head of the input, followed by the end or by a
    space and more input. *)
Lemma lex_np_token (t : string) :
  is_token t ->
  Shlex.lex false Shlex.SSpace Shlex.SSpace false "" t = Ok [t]
  /\ forall more,
      Shlex.lex false Shlex.SSpace Shlex.SSpace false "" (t ++ " " ++ more)
      = match Shlex.lex false Shlex.SSpace Shlex.SSpace false "" more with
        | Ok toks => Ok (t :: toks)
        | Raise e => Raise e
        end.
Proof.
  intros [Hw | (q & body & -> & Hq & Hb)].
  - destruct t as [|c s]; [discriminate|]. cbn [is_word] in Hw.
    apply andb_prop in Hw. destruct Hw as [Hw Hs].
    apply andb_prop in Hw. destruct Hw as [Hc Hq].
    apply negb_true_iff in Hc. apply negb_true_iff in Hq.
    unfold is_shlex_space in Hc. split.
    + cbn [Shlex.lex]. rewrite Hc, Hq. cbn [andb].
      rewrite <- (append_nil s) at 1. rewrite (lex_np_word s Hs).
      reflexivity.
    + intros more. cbn [append Shlex.lex]. rewrite Hc, Hq. cbn [andb].
      rewrite (lex_np_word s Hs). cbn [append Shlex.lex].
      cbn [is_member Shlex.whitespace]. cbn.
      now destruct (Shlex.lex false Shlex.SSpace Shlex.SSpace false "" more).
  - pose proof (quote_not_space q Hq) as Hn. split.
    + cbn [Shlex.lex]. rewrite Hn, Hq. cbn [andb].
      rewrite (lex_np_quote_body q body Hb). reflexivity.
    + intros more. cbn [append Shlex.lex]. rewrite Hn, Hq. cbn [andb].
      replace ((body ++ String q "") ++ String " " more)
        with (body ++ String q (String " " more))
        by now rewrite append_assoc.
      rewrite (lex_np_quote_body q body Hb).
      rewrite emit_np_token by discriminate. reflexivity.
Qed.

(** Tokens joined by single spaces split into the same tokens. *)
Lemma split_join_tokens (toks : list string) :
  Forall is_token toks ->
  Shlex.split (str_join " " toks) false = Ok toks.
Proof.
  unfold Shlex.split. induction 1 as [|t ts Ht Hts IH]; [reflexivity|].
  destruct (lex_np_token t Ht) as [H1 Hm].
  destruct ts as [|t2 ts]; [exact H1|].
  change (str_join " " (t :: t2 :: ts))
    with (t ++ " " ++ str_join " " (t2 :: ts)).
  now rewrite Hm, IH.
Qed.

(** Tokens followed by a quotation that is never closed do not split. *)
Lemma split_open_quote (toks : list string) (q : ascii) (body : string) :
  Forall is_token toks ->
  is_member q Shlex.quotes = true ->
  contains_char q body = false ->
  Shlex.split (str_join " " (toks ++ [String q body])) false
  = Raise (ValueError "No closing quotation").
Proof.
  intros Ht Hq Hb. unfold Shlex.split.
  induction Ht as [|t ts Ht Hts IH].
  - cbn [app str_join Shlex.lex].
    rewrite (quote_not_space q Hq), Hq. cbn [andb].
    now apply lex_np_open_quote.
  - destruct (lex_np_token t Ht) as [_ Hm].
    assert (E : str_join " " ((t :: ts) ++ [String q body])
                = t ++ " " ++ str_join " " (ts ++ [String q body])).
    { cbn [app str_join]. now destruct ts. }
    now rewrite E, Hm, IH.
Qed.

(** ** Quoting in command texts *)

(** [_split_command] splits without POSIX rules so that quoting is kept.
    A text made of a command word and arguments that are words or quoted
    strings, single spaces between them, splits into exactly these
    tokens; when the command is a staged file without shebang, the text
    comes back from normalisation as it is, quotes and the white space
    inside them included, and nothing is logged. *)
Theorem massage_command_keeps_quoting (w : World) (prime_dir first : string)
        (rest : list string) (log : list warning) :
  Forall is_token (first :: rest) ->
  let text := str_join " " (first :: rest) in
  startswith text "/" = false ->
  startswith text "$SNAP/" = false ->
  without_directive w (os_path_join prime_dir first) ->
  Shlex.split text false = Ok (first :: rest)
  /\ _massage_command w text prime_dir log = (Ok text, log).
Proof.
  intros Ht text Ha Hp Hd.
  pose proof (split_join_tokens _ Ht) as Hs. fold text in Hs.
  split; [exact Hs|].
  apply massage_canonical. split; [exact Ha|]. split; [exact Hp|].
  exists first, rest. now repeat split.
Qed.

Lemma massage_command_keeps_quoting_witness :
  Shlex.split "bin/foo --name 'a  b' --x='c'" false
  = Ok ["bin/foo"; "--name"; "'a  b'"; "--x='c'"]
  /\ _massage_command sample_world "bin/foo --name 'a  b' --x='c'" "/prime" []
     = (Ok "bin/foo --name 'a  b' --x='c'", []).
Proof.
  refine (massage_command_keeps_quoting sample_world "/prime" "bin/foo"
            ["--name"; "'a  b'"; "--x='c'"] [] _ eq_refl eq_refl _).
  - apply Forall_cons; [left; reflexivity|].
    apply Forall_cons; [left; reflexivity|].
    apply Forall_cons; [right; exists "'"%char, "a  b"; now repeat split|].
    apply Forall_cons; [left; reflexivity | apply Forall_nil].
  - exists 493%Z, "ELF". split; [reflexivity | discriminate].
Defined.

(** A quotation that is opened and never closed makes [shlex.split]
    raise [ValueError], and nothing in the module catches it: it leaves
    [_massage_command], and [prime_command] with the object as it was. *)
Theorem massage_command_open_quotation (w : World) (prime_dir : string)
        (toks : list string) (q : ascii) (body : string) (log : list warning) :
  Forall is_token toks ->
  is_member q Shlex.quotes = true ->
  contains_char q body = false ->
  let text := str_join " " (toks ++ [String q body]) in
  startswith text "/" = false ->
  startswith text "$SNAP/" = false ->
  _massage_command w text prime_dir log
  = (Raise (ValueError "No closing quotation"), log)
  /\ forall self can_use_wrapper,
      command self = text ->
      prime_command w can_use_wrapper true prime_dir self log
      = (self, Raise (ValueError "No closing quotation"), log).
Proof.
  intros Ht Hq Hb text Ha Hp.
  pose proof (split_open_quote toks q body Ht Hq Hb) as Hs. fold text in Hs.
  assert (Hm : _massage_command w text prime_dir log
               = (Raise (ValueError "No closing quotation"), log)).
  { unfold _massage_command. rewrite Ha.
    rewrite (re_sub_leading_other "$SNAP/" text Hp).
    unfold bind, lift, _split_command. now rewrite Hs. }
  split; [exact Hm|].
  intros self cuw E. unfold prime_command. now rewrite E, Hm.
Qed.

Lemma massage_command_open_quotation_witness :
  _massage_command sample_world "bin/foo --name 'a b" "/prime" []
  = (Raise (ValueError "No closing quotation"), []).
Proof.
  refine (proj1 (massage_command_open_quotation sample_world "/prime"
                   ["bin/foo"; "--name"] "'"%char "a b" [] _ eq_refl eq_refl
                   eq_refl eq_refl)).
  apply Forall_cons; [left; reflexivity|].
  apply Forall_cons; [left; reflexivity | apply Forall_nil].
Defined.

(* ================================================================= *)
(** ** A script whose interpreter is staged *)





